(** * Sense-Flow: the sensor buffer and the statistics of Core/Src/main.c

    A shallow embedding of the firmware's ring buffer ([buffer_push]), of the
    two tasks ([producer_task], [consumer_task]) and of the four statistics
    ([calculate_std_dev], [calculate_max], [calculate_min],
    [calculate_median]), followed by the properties proved about them.

    Numbers are the machine's: [float] is IEEE-754 binary32 and [double] is
    binary64, both as [spec_float] with the operations of the standard
    library's [SpecFloat] at the matching precision; [uint32_t] and [int]
    are [Z] with the wrap-around written where the source can reach it.
    Arrays are lists; an access outside the array has no meaning in C and is
    [None] here. *)

From Stdlib Require Import ZArith Bool Lia.
From Stdlib Require Import Floats.SpecFloat.
From stdpp Require Import base option list sorting.

Local Open Scope Z_scope.

(** ** Machine numbers *)

Definition float : Type := spec_float.
Definition double : Type := spec_float.

Module F32.
Definition prec : Z := 24.
Definition emax : Z := 128.

Definition zero : float := S754_zero false.
Definition add : float -> float -> float := SFadd prec emax.
Definition sub : float -> float -> float := SFsub prec emax.
Definition div : float -> float -> float := SFdiv prec emax.

(** [a < b], [a <= b] and [a == b] of C: false when an operand is NaN. *)
Definition ltb : float -> float -> bool := SFltb.
Definition leb : float -> float -> bool := SFleb.
Definition eqb : float -> float -> bool := SFeqb.
(** [a > b] of C. *)
Definition gtb (a b : float) : bool := ltb b a.

(** Conversion of an integer to [float], rounding to nearest even. *)
Definition of_Z (n : Z) : float := binary_normalize prec emax n 0 false.

Definition is_nan (x : float) : bool :=
  match x with S754_nan => true | _ => false end.

(** FLT_MAX, the largest finite binary32 number: (2^24 - 1) * 2^104. *)
Definition max_float : float := SFmax_float prec emax.
End F32.

Module F64.
Definition prec : Z := 53.
Definition emax : Z := 1024.

Definition add : double -> double -> double := SFadd prec emax.
Definition mul : double -> double -> double := SFmul prec emax.
Definition div : double -> double -> double := SFdiv prec emax.
(** [sqrt] of math.h: the correctly rounded square root IEEE 754
    requires (C, annex F). *)
Definition sqrt : double -> double := SFsqrt prec emax.
Definition of_Z (n : Z) : double := binary_normalize prec emax n 0 false.
End F64.

(** The usual arithmetic conversions between the two formats: widening is
    exact, narrowing rounds to nearest even. *)
Definition convert (prec emax : Z) (x : spec_float) : spec_float :=
  match x with
  | S754_finite s m e => binary_round prec emax s m e
  | _ => x
  end.

Definition float_to_double : float -> double := convert F64.prec F64.emax.
Definition double_to_float : double -> float := convert F32.prec F32.emax.

(** [pow] of math.h is the one library function of the program whose result
    IEEE 754 does not fix; it stays a parameter of the model. *)
Class Libm := { pow : double -> double -> double }.

(** A library whose [pow] squares exactly for the exponent 2, the only
    exponent the program passes, and gives up (NaN) on the others. It is
    used to run the model on examples. *)
Definition libm_square : Libm :=
  {| pow x y := if SFeqb y (F64.of_Z 2) then F64.mul x x else S754_nan |}.

(** [uint32_t] arithmetic wraps modulo 2^32. *)
Definition UINT32_MOD : Z := 2 ^ 32.
Definition u32 (n : Z) : Z := n mod UINT32_MOD.

(** ** Arrays and loops *)

(** [a[i]] as an rvalue. *)
Definition array_get {A} (a : list A) (i : Z) : option A :=
  if decide (0 <= i) then a !! Z.to_nat i else None.

(** [a[i] = v]. *)
Definition array_set {A} (a : list A) (i : Z) (v : A) : option (list A) :=
  if decide (0 <= i < Z.of_nat (length a)) then Some (<[Z.to_nat i := v]> a)
  else None.

(** [n] rounds of a loop body, the index starting at [i] and stepping by
    one; the body may fail. *)
Fixpoint for_loop {S} (n : nat) (i : Z) (body : Z -> S -> option S) (s : S)
  : option S :=
  match n with
  | O => Some s
  | Datatypes.S k => s' ← body i s; for_loop k (i + 1) body s'
  end.

(** [for (i = lo; i < hi; ++i) body]. *)
Definition for_range {S} (lo hi : Z) (body : Z -> S -> option S) (s : S)
  : option S :=
  for_loop (Z.to_nat (hi - lo)) lo body s.

(** ** The sensor buffer *)

Record sensor_data_t := {
  PIR : float;
  humidity_and_heat : float;
  LDR : float
}.

Definition BUFFER_SIZE : Z := 100.

(** The globals [sensor_buffer], [buffer_head] and [buffer_tail]. *)
Record buffer_state := {
  sensor_buffer : list sensor_data_t;
  buffer_head : Z;
  buffer_tail : Z
}.

Definition set_head (h : Z) (st : buffer_state) : buffer_state :=
  {| sensor_buffer := sensor_buffer st;
     buffer_head := h;
     buffer_tail := buffer_tail st |}.

(** The state at reset: statics are zero-filled, both indices are 0. *)
Definition zero_reading : sensor_data_t :=
  {| PIR := F32.zero; humidity_and_heat := F32.zero; LDR := F32.zero |}.

Definition initial_buffer : buffer_state :=
  {| sensor_buffer := replicate (Z.to_nat BUFFER_SIZE) zero_reading;
     buffer_head := 0;
     buffer_tail := 0 |}.

(** The indices are inside the array and the array has its declared size. *)
Definition buffer_wf (st : buffer_state) : Prop :=
  length (sensor_buffer st) = Z.to_nat BUFFER_SIZE /\
  0 <= buffer_head st < BUFFER_SIZE /\
  0 <= buffer_tail st < BUFFER_SIZE.

(** [bool buffer_push(sensor_data_t data)]: the result and the new globals.
    [%] of C truncates, hence [Z.rem]. *)
Definition buffer_push (data : sensor_data_t) (st : buffer_state)
  : option (bool * buffer_state) :=
  let next_head := Z.rem (buffer_head st + 1) BUFFER_SIZE in
  if decide (next_head <> buffer_tail st) then
    buf ← array_set (sensor_buffer st) (buffer_head st) data;
    Some (true, {| sensor_buffer := buf;
                   buffer_head := next_head;
                   buffer_tail := buffer_tail st |})
  else Some (false, st).

(** ** The statistics *)

Section Statistics.
Context `{Libm}.

(** [float calculate_std_dev(float data[], uint32_t count)]. [sum] and
    [std_dev] are [float] variables: [std_dev += pow(...)] adds in
    [double] and rounds back on the store. *)
Definition calculate_std_dev (data : list float) (count : Z) : option float :=
  sum ← for_range 0 count
          (fun i sum => d ← array_get data i; Some (F32.add sum d)) F32.zero;
  let mean := F32.div sum (F32.of_Z count) in
  std_dev ← for_range 0 count
          (fun i std_dev =>
             d ← array_get data i;
             Some (double_to_float
                     (F64.add (float_to_double std_dev)
                              (pow (float_to_double (F32.sub d mean))
                                   (F64.of_Z 2)))))
          F32.zero;
  Some (double_to_float
          (F64.sqrt (float_to_double (F32.div std_dev (F32.of_Z count))))).

(** [float calculate_max(float data[], uint32_t count)]. *)
Definition calculate_max (data : list float) (count : Z) : option float :=
  max ← array_get data 0;
  for_range 1 count
    (fun i max => d ← array_get data i;
                  Some (if F32.gtb d max then d else max)) max.

(** [float calculate_min(float data[], uint32_t count)]. *)
Definition calculate_min (data : list float) (count : Z) : option float :=
  min ← array_get data 0;
  for_range 1 count
    (fun i min => d ← array_get data i;
                  Some (if F32.ltb d min then d else min)) min.

(** The body of the inner loop of the sort: exchange [data[i]] and
    [data[j]] when they are out of order. *)
Definition sort_step (i j : Z) (data : list float) : option (list float) :=
  di ← array_get data i;
  dj ← array_get data j;
  if F32.gtb di dj then
    data1 ← array_set data i dj;
    array_set data1 j di
  else Some data.

(** The two nested loops of [calculate_median]; [count - 1] is computed
    in [uint32_t]. *)
Definition sort_in_place (data : list float) (count : Z) : option (list float) :=
  for_range 0 (u32 (count - 1))
    (fun i data => for_range (i + 1) count (sort_step i) data) data.

(** [(a + b) / 2.0]: the sum is a [float], the quotient a [double], the
    returned value a [float] again. *)
Definition average (a b : float) : float :=
  double_to_float (F64.div (float_to_double (F32.add a b)) (F64.of_Z 2)).

(** [float calculate_median(float data[], uint32_t count)]: the returned
    value and the caller's array after the call ([data] is a pointer). *)
Definition calculate_median (data : list float) (count : Z)
  : option (float * list float) :=
  data ← sort_in_place data count;
  if decide (count mod 2 <> 0) then
    m ← array_get data (count / 2);
    Some (m, data)
  else
    a ← array_get data (u32 (count - 1) / 2);
    b ← array_get data (count / 2);
    Some (average a b, data).
End Statistics.

(** ** The producer *)

(** The two bytes [HAL_I2C_Master_Receive] leaves in [data]. *)
Definition i2c_frame : Type := (Z * Z)%type.

(** [float i2c_read_sensor_data(...)], given the bytes received:
    [(float)((data[0] << 8) | data[1])]. *)
Definition i2c_read_sensor_data (rx : i2c_frame) : float :=
  F32.of_Z (Z.lor (Z.shiftl (fst rx) 8) (snd rx)).

(** What the bus delivers in one round of the batch: one frame per device,
    in the order the producer reads them. *)
Record bus_sample := {
  rx_pir : i2c_frame;
  rx_humidity_and_heat : i2c_frame;
  rx_ldr : i2c_frame
}.

Definition read_sensors (rx : bus_sample) : sensor_data_t :=
  {| PIR := i2c_read_sensor_data (rx_pir rx);
     humidity_and_heat := i2c_read_sensor_data (rx_humidity_and_heat rx);
     LDR := i2c_read_sensor_data (rx_ldr rx) |}.

(** The statement [if (!buffer_push(sensor_data)) { ... }] of the batch. *)
Definition producer_store (sensor_data : sensor_data_t) (st : buffer_state)
  : option buffer_state :=
  '(pushed, st) ← buffer_push sensor_data st;
  if negb pushed then
    let st := set_head (Z.rem (buffer_head st + 1) BUFFER_SIZE) st in
    '(_, st) ← buffer_push sensor_data st;
    Some st
  else Some st.

(** The [for] loop of [producer_task]: 30 rounds, [bus i] being what the
    sensors answer in round [i]. *)
Definition producer_batch (bus : Z -> bus_sample) (st : buffer_state)
  : option buffer_state :=
  for_range 0 30 (fun i st => producer_store (read_sensors (bus i)) st) st.

(** ** The consumer *)

Record filtered_data_for_ble := {
  pir_std_dev : float;
  pir_max : float;
  pir_min : float;
  pir_median : float;
  humidity_and_heat_std_dev : float;
  humidity_and_heat_max : float;
  humidity_and_heat_min : float;
  humidity_and_heat_median : float;
  ldr_std_dev : float;
  ldr_max : float;
  ldr_min : float;
  ldr_median : float
}.

(** The three local arrays [pir_data], [humidity_and_heat_data] and
    [ldr_data] of [consumer_task]. *)
Record consumer_arrays := {
  pir_data : list float;
  humidity_and_heat_data : list float;
  ldr_data : list float
}.

(** The arrays as declared: [BUFFER_SIZE] floats each, of any content. *)
Definition arrays_declared (a : consumer_arrays) : Prop :=
  length (pir_data a) = Z.to_nat BUFFER_SIZE /\
  length (humidity_and_heat_data a) = Z.to_nat BUFFER_SIZE /\
  length (ldr_data a) = Z.to_nat BUFFER_SIZE.

(** One round of the copy loop. *)
Definition copy_slot (buf : list sensor_data_t) (i : Z) (a : consumer_arrays)
  : option consumer_arrays :=
  s ← array_get buf i;
  p ← array_set (pir_data a) i (PIR s);
  s ← array_get buf i;
  h ← array_set (humidity_and_heat_data a) i (humidity_and_heat s);
  s ← array_get buf i;
  l ← array_set (ldr_data a) i (LDR s);
  Some {| pir_data := p; humidity_and_heat_data := h; ldr_data := l |}.

(** [for (int i = 0; i < BUFFER_SIZE; ++i) { ... }]. *)
Definition copy_out (st : buffer_state) (a : consumer_arrays)
  : option consumer_arrays :=
  for_range 0 BUFFER_SIZE (copy_slot (sensor_buffer st)) a.

Section Consumer.
Context `{Libm}.

(** The twelve calls that follow the copy, in the order of the source;
    each [calculate_median] leaves its array sorted. *)
Definition consumer_statistics (a : consumer_arrays)
  : option filtered_data_for_ble :=
  let pir := pir_data a in
  let hh := humidity_and_heat_data a in
  let ldr := ldr_data a in
  pir_std_dev ← calculate_std_dev pir BUFFER_SIZE;
  pir_max ← calculate_max pir BUFFER_SIZE;
  pir_min ← calculate_min pir BUFFER_SIZE;
  '(pir_median, pir) ← calculate_median pir BUFFER_SIZE;
  hh_std_dev ← calculate_std_dev hh BUFFER_SIZE;
  hh_max ← calculate_max hh BUFFER_SIZE;
  hh_min ← calculate_min hh BUFFER_SIZE;
  '(hh_median, hh) ← calculate_median hh BUFFER_SIZE;
  ldr_std_dev ← calculate_std_dev ldr BUFFER_SIZE;
  ldr_max ← calculate_max ldr BUFFER_SIZE;
  ldr_min ← calculate_min ldr BUFFER_SIZE;
  '(ldr_median, ldr) ← calculate_median ldr BUFFER_SIZE;
  Some {| pir_std_dev := pir_std_dev; pir_max := pir_max;
          pir_min := pir_min; pir_median := pir_median;
          humidity_and_heat_std_dev := hh_std_dev;
          humidity_and_heat_max := hh_max;
          humidity_and_heat_min := hh_min;
          humidity_and_heat_median := hh_median;
          ldr_std_dev := ldr_std_dev; ldr_max := ldr_max;
          ldr_min := ldr_min; ldr_median := ldr_median |}.

(** One pass of the consumer's loop body over the data: the copy under
    the mutex, then the statistics; [stack] is what the local arrays
    hold before the copy. *)
Definition consumer_cycle (stack : consumer_arrays) (st : buffer_state)
  : option filtered_data_for_ble :=
  a ← copy_out st stack;
  consumer_statistics a.
End Consumer.

(** ** The two tasks and their handshake *)

Inductive task := ProducerTask | ConsumerTask.
Inductive semaphore_name := ProducerSemaphore | ConsumerSemaphore.

(** Modelled from the spec: the binary semaphores and the mutex of the
    scheduler ([xSemaphoreCreateBinary], [xSemaphoreTake],
    [xSemaphoreGive], [xSemaphoreCreateMutex], [osMutexWait],
    [osMutexRelease]), which the sources call and do not contain. A binary
    semaphore is one flag, signaled or clear, and is created clear; a give
    signals it, and signals given before a wait collapse into one; a take
    with [portMAX_DELAY] clears a signaled flag and otherwise keeps the
    caller blocked ([None]: the call has not returned). The mutex is free
    or held by one task. *)
Definition xSemaphoreCreateBinary : bool := false.

Definition xSemaphoreTake (signaled : bool) : option bool :=
  if signaled then Some false else None.

Definition xSemaphoreGive (signaled : bool) : bool := true.

Definition xSemaphoreCreateMutex : option task := None.

Definition osMutexWait (t : task) (holder : option task) : option (option task) :=
  match holder with
  | None => Some (Some t)
  | Some _ => None
  end.

Definition osMutexRelease (holder : option task) : option task := None.

(** Where each task stands in its [while (1)] loop, named after the
    statement it executes next. *)
Inductive producer_point :=
  | P_take      (* xSemaphoreTake(producer_semaphore, portMAX_DELAY) *)
  | P_lock      (* osMutexWait(sensor_buffer_mutex, osWaitForever) *)
  | P_batch     (* the for loop of 30 rounds *)
  | P_unlock    (* osMutexRelease(sensor_buffer_mutex) *)
  | P_give.     (* xSemaphoreGive(consumer_semaphore) *)

Inductive consumer_point :=
  | C_take      (* xSemaphoreTake(consumer_semaphore, portMAX_DELAY) *)
  | C_lock      (* osMutexWait(sensor_buffer_mutex, osWaitForever) *)
  | C_copy      (* the copy loop *)
  | C_unlock    (* osMutexRelease(sensor_buffer_mutex) *)
  | C_give      (* xSemaphoreGive(producer_semaphore) *)
  | C_compute.  (* the statistics and broadcast_ble *)

(** The control state of the program once the scheduler runs. The data the
    two loop bodies move is that of [producer_batch] and [consumer_cycle]
    above and is left out here. *)
Record system := {
  producer_pc : producer_point;
  consumer_pc : consumer_point;
  producer_semaphore : bool;
  consumer_semaphore : bool;
  sensor_buffer_mutex : option task
}.

Inductive event :=
  | Take (t : task) (s : semaphore_name)
  | Give (t : task) (s : semaphore_name)
  | Lock (t : task)
  | Unlock (t : task)
  | Batch
  | CopyOut
  | Compute.

(** One statement of [producer_task], when it can run. *)
Definition producer_task (s : system) : option (event * system) :=
  match producer_pc s with
  | P_take =>
      sem ← xSemaphoreTake (producer_semaphore s);
      Some (Take ProducerTask ProducerSemaphore,
            {| producer_pc := P_lock; consumer_pc := consumer_pc s;
               producer_semaphore := sem;
               consumer_semaphore := consumer_semaphore s;
               sensor_buffer_mutex := sensor_buffer_mutex s |})
  | P_lock =>
      m ← osMutexWait ProducerTask (sensor_buffer_mutex s);
      Some (Lock ProducerTask,
            {| producer_pc := P_batch; consumer_pc := consumer_pc s;
               producer_semaphore := producer_semaphore s;
               consumer_semaphore := consumer_semaphore s;
               sensor_buffer_mutex := m |})
  | P_batch =>
      Some (Batch,
            {| producer_pc := P_unlock; consumer_pc := consumer_pc s;
               producer_semaphore := producer_semaphore s;
               consumer_semaphore := consumer_semaphore s;
               sensor_buffer_mutex := sensor_buffer_mutex s |})
  | P_unlock =>
      Some (Unlock ProducerTask,
            {| producer_pc := P_give; consumer_pc := consumer_pc s;
               producer_semaphore := producer_semaphore s;
               consumer_semaphore := consumer_semaphore s;
               sensor_buffer_mutex := osMutexRelease (sensor_buffer_mutex s) |})
  | P_give =>
      Some (Give ProducerTask ConsumerSemaphore,
            {| producer_pc := P_take; consumer_pc := consumer_pc s;
               producer_semaphore := producer_semaphore s;
               consumer_semaphore := xSemaphoreGive (consumer_semaphore s);
               sensor_buffer_mutex := sensor_buffer_mutex s |})
  end.

(** One statement of [consumer_task], when it can run. *)
Definition consumer_task (s : system) : option (event * system) :=
  match consumer_pc s with
  | C_take =>
      sem ← xSemaphoreTake (consumer_semaphore s);
      Some (Take ConsumerTask ConsumerSemaphore,
            {| producer_pc := producer_pc s; consumer_pc := C_lock;
               producer_semaphore := producer_semaphore s;
               consumer_semaphore := sem;
               sensor_buffer_mutex := sensor_buffer_mutex s |})
  | C_lock =>
      m ← osMutexWait ConsumerTask (sensor_buffer_mutex s);
      Some (Lock ConsumerTask,
            {| producer_pc := producer_pc s; consumer_pc := C_copy;
               producer_semaphore := producer_semaphore s;
               consumer_semaphore := consumer_semaphore s;
               sensor_buffer_mutex := m |})
  | C_copy =>
      Some (CopyOut,
            {| producer_pc := producer_pc s; consumer_pc := C_unlock;
               producer_semaphore := producer_semaphore s;
               consumer_semaphore := consumer_semaphore s;
               sensor_buffer_mutex := sensor_buffer_mutex s |})
  | C_unlock =>
      Some (Unlock ConsumerTask,
            {| producer_pc := producer_pc s; consumer_pc := C_give;
               producer_semaphore := producer_semaphore s;
               consumer_semaphore := consumer_semaphore s;
               sensor_buffer_mutex := osMutexRelease (sensor_buffer_mutex s) |})
  | C_give =>
      Some (Give ConsumerTask ProducerSemaphore,
            {| producer_pc := producer_pc s; consumer_pc := C_compute;
               producer_semaphore := xSemaphoreGive (producer_semaphore s);
               consumer_semaphore := consumer_semaphore s;
               sensor_buffer_mutex := sensor_buffer_mutex s |})
  | C_compute =>
      Some (Compute,
            {| producer_pc := producer_pc s; consumer_pc := C_take;
               producer_semaphore := producer_semaphore s;
               consumer_semaphore := consumer_semaphore s;
               sensor_buffer_mutex := sensor_buffer_mutex s |})
  end.

Definition run_task (t : task) : system -> option (event * system) :=
  match t with
  | ProducerTask => producer_task
  | ConsumerTask => consumer_task
  end.

(** Both tasks at the top of their loops, the mutex free, the semaphores
    as given. *)
Definition started (producer_sem consumer_sem : bool) : system :=
  {| producer_pc := P_take; consumer_pc := C_take;
     producer_semaphore := producer_sem;
     consumer_semaphore := consumer_sem;
     sensor_buffer_mutex := xSemaphoreCreateMutex |}.

(** The state [main] hands to the scheduler: it creates the mutex and the
    two semaphores, then the two tasks, and gives nothing. *)
Definition main : system :=
  started xSemaphoreCreateBinary xSemaphoreCreateBinary.

(** The executions: the scheduler picks, any number of times, a task that
    can run; the events are listed oldest first. *)
Inductive reaches (s0 : system) : list event -> system -> Prop :=
  | reaches_start : reaches s0 [] s0
  | reaches_step tr s t e s' :
      reaches s0 tr s ->
      run_task t s = Some (e, s') ->
      reaches s0 (tr ++ [e]) s'.

(** Running a schedule from a state, for the examples. *)
Fixpoint run_schedule (sched : list task) (s : system) : option (list event * system) :=
  match sched with
  | [] => Some ([], s)
  | t :: sched =>
      '(e, s) ← run_task t s;
      '(tr, s) ← run_schedule sched s;
      Some (e :: tr, s)
  end.

(** ** The specification's words, for comparison with the code *)

(** A value that is a number: not NaN. The readings of the program are
    such ([i2c_read_sensor_data] converts a 16-bit integer). *)
Definition numeric (x : float) : Prop := F32.is_nan x = false.

(** [a <= b] as a relation. *)
Definition f32_le (a b : float) : Prop := F32.leb a b = true.

Section SpecWords.
Context `{Libm}.

(** [sum(x)], added left to right in [float]. *)
Definition spec_sum (x : list float) : float := foldl F32.add F32.zero x.

(** [mean = sum(x) / n]. *)
Definition spec_mean (x : list float) : float :=
  F32.div (spec_sum x) (F32.of_Z (Z.of_nat (length x))).

(** [(x_i - mean)^2], the square taken by [pow] in [double]. *)
Definition spec_square_deviation (mean x_i : float) : double :=
  pow (float_to_double (F32.sub x_i mean)) (F64.of_Z 2).

(** [sum((x_i - mean)^2)], accumulated left to right in a [float]. *)
Definition spec_sum_square_deviations (x : list float) : float :=
  foldl (fun acc x_i =>
           double_to_float
             (F64.add (float_to_double acc)
                      (spec_square_deviation (spec_mean x) x_i)))
        F32.zero x.

(** [std_dev = sqrt(sum((x_i - mean)^2) / n)]: the divisor is [n]. *)
Definition population_std_dev (x : list float) : float :=
  double_to_float
    (F64.sqrt
       (float_to_double
          (F32.div (spec_sum_square_deviations x)
                   (F32.of_Z (Z.of_nat (length x)))))).
End SpecWords.

(** [s] is [x] sorted ascending. *)
Definition ascending_sort_of (s x : list float) : Prop :=
  s ≡ₚ x /\ StronglySorted f32_le s.

(** The average of two numbers, [(a + b) / 2], in the arithmetic of the
    machine: the sum is rounded to a [float] ([+infinity] when it
    overflows), halved in [double] and rounded to a [float] again. *)
Definition spec_average (a b : float) : float :=
  double_to_float (F64.div (float_to_double (F32.add a b)) (F64.of_Z 2)).

(** The median of a sorted sequence: the middle element of an odd length,
    the average of the two central elements of an even one. *)
Definition median_of_sorted (s : list float) : option float :=
  let n := length s in
  if Nat.odd n then s !! (n / 2)%nat
  else
    a ← s !! (n / 2 - 1)%nat;
    b ← s !! (n / 2)%nat;
    Some (spec_average a b).

(** ** Inputs of the examples *)

(** A full buffer, for the examples: 99 readings stored since reset. *)
Definition full_buffer : buffer_state := set_head 99 initial_buffer.

(** A reading, as [read_sensors] makes it from three frames. *)
Definition reading_7 : sensor_data_t :=
  read_sensors {| rx_pir := (0, 7); rx_humidity_and_heat := (1, 0);
                  rx_ldr := (255, 255) |}.

(** Short sequences of integers as [float]s. *)
Definition sample_1_to_5 : list float := F32.of_Z <$> [1; 2; 3; 4; 5].

Definition sample_2_4_1 : list float := F32.of_Z <$> [2; 4; 1].

Definition sample_5 : list float := [F32.of_Z 5].

Definition sample_4_2_1 : list float := F32.of_Z <$> [4; 2; 1].

(** FLT_MAX twice. *)
Definition sample_max_max : list float := [F32.max_float; F32.max_float].

Definition sample_2_4 : list float := F32.of_Z <$> [2; 4].

(** An even number of values out of order, FLT_MAX among them. *)
Definition sample_3_1_max_2 : list float :=
  [F32.of_Z 3; F32.of_Z 1; F32.max_float; F32.of_Z 2].

(** What the local arrays of the consumer may hold before the copy. *)
Definition garbage_stack : consumer_arrays :=
  {| pir_data := replicate (Z.to_nat BUFFER_SIZE) S754_nan;
     humidity_and_heat_data := replicate (Z.to_nat BUFFER_SIZE) (F32.of_Z 7);
     ldr_data := replicate (Z.to_nat BUFFER_SIZE) F32.max_float |}.

(** Had [producer_semaphore] been created signaled: one batch, then the
    consumer up to its give. *)
Definition first_round : list task :=
  [ProducerTask; ProducerTask; ProducerTask; ProducerTask; ProducerTask;
   ConsumerTask; ConsumerTask; ConsumerTask; ConsumerTask].

(** ** Invariants of the sort *)

(** What the sort keeps of the array [data0] it started from, [n] being
    the number of elements it sorts: the size, the first [n] elements up
    to their order, and everything behind them. *)
Definition sort_frame (n : nat) (data0 d : list float) : Prop :=
  length d = length data0 /\
  take n d ≡ₚ take n data0 /\
  drop n d = drop n data0.

(** The first [i] positions are final: each holds a value below every
    value behind it. *)
Definition prefix_placed (n i : nat) (d : list float) : Prop :=
  forall a b x y, (a < i)%nat -> (a < b < n)%nat ->
                  d !! a = Some x -> d !! b = Some y -> f32_le x y.

(** Position [i] holds a value below those at the positions between [i]
    and [j]. *)
Definition row_placed (i j : nat) (d : list float) : Prop :=
  forall b x y, (i < b < j)%nat ->
                d !! i = Some x -> d !! b = Some y -> f32_le x y.

(** The average of [a] and [b] as the machine computes it lies between
    them. *)
Definition average_between (a b : float) : Prop :=
  f32_le a (average a b) /\ f32_le (average a b) b.

(** ** Sums and averages of sensor values *)

(** [x / 2.0] returned as a [float]: the second half of [average]. *)
Definition halve (x : float) : float :=
  double_to_float (F64.div (float_to_double x) (F64.of_Z 2)).

(** The value of the finite [float] [m * 2^e] in units of [2^-c]. *)
Definition in_units (c : Z) (m : positive) (e : Z) : Z := Zpos m * 2 ^ (e + c).

(** ** Rounding *)

(** What [binary_round_aux] makes of the rounded mantissa [k] and its
    exponent [e]. *)
Definition round_result (prec emax : Z) (s : bool) (k e : Z) : spec_float :=
  match k with
  | 0 => S754_zero s
  | Zpos p => if e <=? emax - prec then S754_finite s p e else S754_infinity s
  | Zneg _ => S754_nan
  end.

(** The integer [v], in units of [2^-c], is the magnitude of a mantissa
    and an exponent in canonical form. *)
Definition representable (prec emax c v : Z) : Prop :=
  v = 0 \/
  exists m e, canonical_mantissa prec emax m e = true /\ 0 <= e + c /\
              Z.abs v = in_units c m e.

(** Zero or a finite number. *)
Definition is_finite (x : spec_float) : bool :=
  match x with
  | S754_zero _ | S754_finite _ _ _ => true
  | _ => false
  end.

(** The value of a finite number in units of [2^-c]. *)
Definition value (c : Z) (x : spec_float) : Z :=
  match x with
  | S754_finite s m e => cond_Zopp s (in_units c m e)
  | _ => 0
  end.

(** A value of the type [float]: the mantissa and the exponent of a
    finite number are in the canonical form of binary32. *)
Definition binary32 (x : float) : Prop :=
  valid_binary F32.prec F32.emax x = true.

(** The [float] sum [a + b] does not overflow: it is a number, and it is
    infinite only if [a] or [b] is. *)
Definition sum_in_range (a b : float) : Prop :=
  match F32.add a b with
  | S754_nan => False
  | S754_infinity _ => is_finite a && is_finite b = false
  | _ => True
  end.

(** ** The producer over several rounds of its loop *)

(** The body of [producer_task]'s [while (1)] run once per element of
    [buses], each element being what the bus answers during that batch. *)
Fixpoint producer_batches (buses : list (Z -> bus_sample)) (st : buffer_state)
  : option buffer_state :=
  match buses with
  | [] => Some st
  | bus :: buses => st ← producer_batch bus st; producer_batches buses st
  end.

(** The slot the producer never writes: the one before [buffer_tail]. *)
Definition spared_slot (st : buffer_state) : Z :=
  (buffer_tail st - 1) mod BUFFER_SIZE.

(** The slot a store of the producer writes: [buffer_head], or
    [buffer_tail] when the buffer is full. *)
Definition store_slot (st : buffer_state) : Z :=
  if decide ((buffer_head st + 1) mod BUFFER_SIZE = buffer_tail st)
  then buffer_tail st else buffer_head st.

(** ** Sensor readings *)

(** A [uint8_t]. *)
Definition uint8 (b : Z) : Prop := 0 <= b < 256.

(** A frame as the bus delivers it: two bytes. *)
Definition frame_in_range (rx : i2c_frame) : Prop :=
  uint8 (fst rx) /\ uint8 (snd rx).

Definition bus_in_range (rx : bus_sample) : Prop :=
  frame_in_range (rx_pir rx) /\
  frame_in_range (rx_humidity_and_heat rx) /\
  frame_in_range (rx_ldr rx).

(** The [float] of a 16-bit unsigned integer. *)
Definition sensor_value (v : float) : Prop :=
  exists k, 0 <= k < 65536 /\ v = F32.of_Z k.


(** A slot whose three fields are sensor values. *)
Definition sensor_slot (x : sensor_data_t) : Prop :=
  sensor_value (PIR x) /\ sensor_value (humidity_and_heat x) /\ sensor_value (LDR x).

(** ** The ring the producer fills *)

(** The reading number [k] since reset, [buses] being the batches run:
    round [k mod 30] of batch [k / 30]. *)
Definition reading_number (buses : list (Z -> bus_sample)) (k : Z) : sensor_data_t :=
  match buses !! Z.to_nat (k / 30) with
  | Some bus => read_sensors (bus (k mod 30))
  | None => zero_reading
  end.

(** The buffer after [k] stores since reset of the readings [reading 0],
    [reading 1], ...: reading [j] sits in slot [j mod 99], the last 99
    readings are there. *)
Definition ring_after (reading : Z -> sensor_data_t) (k : Z) (st : buffer_state) : Prop :=
  buffer_wf st /\
  buffer_tail st = 0 /\
  buffer_head st = (if decide (k = 0) then 0 else (k - 1) mod 99 + 1) /\
  forall j, 0 <= j < k -> k - 99 <= j ->
            array_get (sensor_buffer st) (j mod 99) = Some (reading j).

(** ** The critical sections and the turns of the handshake *)

(** The producer is between its [osMutexWait] and its [osMutexRelease]. *)
Definition producer_in_section (s : system) : bool :=
  match producer_pc s with
  | P_batch | P_unlock => true
  | _ => false
  end.

(** The consumer is between its [osMutexWait] and its [osMutexRelease]. *)
Definition consumer_in_section (s : system) : bool :=
  match consumer_pc s with
  | C_copy | C_unlock => true
  | _ => false
  end.

(** The mutex is held by the task that is in its section, and free when
    none is. *)
Definition mutex_agrees (s : system) : bool :=
  match sensor_buffer_mutex s with
  | None => negb (producer_in_section s) && negb (consumer_in_section s)
  | Some ProducerTask => producer_in_section s && negb (consumer_in_section s)
  | Some ConsumerTask => consumer_in_section s && negb (producer_in_section s)
  end.

(** The batches and the copies of a trace take turns, a batch coming
    first when [batch_next]. *)
Fixpoint alternates (batch_next : bool) (tr : list event) : bool :=
  match tr with
  | [] => true
  | Batch :: tr => batch_next && alternates false tr
  | CopyOut :: tr => negb batch_next && alternates true tr
  | _ :: tr => alternates batch_next tr
  end.

(** Whose turn it is after a trace. *)
Fixpoint turn_after (batch_next : bool) (tr : list event) : bool :=
  match tr with
  | [] => batch_next
  | Batch :: tr => turn_after false tr
  | CopyOut :: tr => turn_after true tr
  | _ :: tr => turn_after batch_next tr
  end.

(** The one signal of the handshake is either pending on a semaphore or
    carried by a task between its take and its give; [turn s] says
    whether a batch comes next ([None] when there is not exactly one
    signal). *)
Definition turn (s : system) : option bool :=
  match producer_semaphore s, producer_pc s, consumer_semaphore s, consumer_pc s with
  | true, P_take, false, (C_take | C_compute) => Some true
  | false, (P_lock | P_batch), false, (C_take | C_compute) => Some true
  | false, (P_unlock | P_give), false, (C_take | C_compute) => Some false
  | false, P_take, true, (C_take | C_compute) => Some false
  | false, P_take, false, (C_lock | C_copy) => Some false
  | false, P_take, false, (C_unlock | C_give) => Some true
  | _, _, _, _ => None
  end.

(** A bus whose first sensor counts the rounds. *)
Definition counting_bus (i : Z) : bus_sample :=
  {| rx_pir := (0, i mod 256); rx_humidity_and_heat := (1, 0);
     rx_ldr := (255, 255) |}.

(** ** The mean of sensor values *)

(** The sum of a list of integers. *)
Definition total (ks : list Z) : Z := foldr Z.add 0 ks.

Section MeanWords.
Context `{Libm}.

(** [sqrt(sum((x_i - mean)^2) / n)] about a given [mean], accumulated as
    [population_std_dev] does. *)
Definition std_dev_about (mean : float) (x : list float) : float :=
  double_to_float
    (F64.sqrt
       (float_to_double
          (F32.div
             (foldl (fun acc x_i =>
                       double_to_float
                         (F64.add (float_to_double acc)
                                  (spec_square_deviation mean x_i)))
                    F32.zero x)
             (F32.of_Z (Z.of_nat (length x)))))).
End MeanWords.

(** * Properties *)

(** ** The order of [float] *)

Lemma SFcompare_swap (x y : float) :
  SFcompare y x = CompOpp <$> SFcompare x y.
Proof.
  destruct x as [[]|[]| |[] mx ex], y as [[]|[]| |[] my ey]; simpl; try done;
    change (Pos.compare_cont Eq) with Pos.compare;
    rewrite (Z.compare_antisym ex ey), (Pos.compare_antisym mx my);
    simpl; by destruct (ex ?= ey), (mx ?= my)%positive.
Qed.

Lemma SFcompare_numeric (x y : float) :
  numeric x -> numeric y -> is_Some (SFcompare x y).
Proof.
  unfold numeric.
  destruct x as [[]|[]| |[] mx ex], y as [[]|[]| |[] my ey]; simpl; by eauto.
Qed.

Lemma f32_le_numeric (x y : float) : f32_le x y -> numeric x /\ numeric y.
Proof.
  unfold f32_le, F32.leb, SFleb, numeric.
  by destruct x as [[]|[]| |[] mx ex], y as [[]|[]| |[] my ey].
Qed.

Lemma f32_le_refl (x : float) : numeric x -> f32_le x x.
Proof.
  unfold f32_le, F32.leb, SFleb, numeric.
  destruct x as [[]|[]| |[] mx ex]; simpl; try done;
    by rewrite Z.compare_refl, Pos.compare_cont_refl.
Qed.

Lemma f32_le_trans (x y z : float) : f32_le x y -> f32_le y z -> f32_le x z.
Proof.
  unfold f32_le, F32.leb, SFleb.
  destruct x as [[]|[]| |[] mx ex], y as [[]|[]| |[] my ey],
           z as [[]|[]| |[] mz ez]; simpl; try done;
    change (Pos.compare_cont Eq) with Pos.compare;
    destruct (Z.compare_spec ex ey), (Z.compare_spec ey ez),
             (Z.compare_spec ex ez); try done; try lia; subst;
    destruct (Pos.compare_spec mx my), (Pos.compare_spec my mz),
             (Pos.compare_spec mx mz); simpl; try done; lia.
Qed.

(** Where [a > b] is false on numbers, [a <= b]. *)
Lemma gtb_false_le (a b : float) :
  numeric a -> numeric b -> F32.gtb a b = false -> f32_le a b.
Proof.
  intros Ha Hb. unfold F32.gtb, F32.ltb, SFltb, f32_le, F32.leb, SFleb.
  rewrite (SFcompare_swap a b).
  destruct (SFcompare_numeric a b Ha Hb) as [c ->]. by destruct c.
Qed.

Lemma gtb_true_le (a b : float) : F32.gtb a b = true -> f32_le b a.
Proof.
  unfold F32.gtb, F32.ltb, SFltb, f32_le, F32.leb, SFleb.
  by destruct (SFcompare b a) as [[]|].
Qed.

Lemma ltb_false_le (a b : float) :
  numeric a -> numeric b -> F32.ltb a b = false -> f32_le b a.
Proof. intros Ha Hb. by apply (gtb_false_le b a). Qed.

Lemma ltb_true_le (a b : float) : F32.ltb a b = true -> f32_le a b.
Proof. apply (gtb_true_le b a). Qed.

(** Two numbers each below the other compare equal. *)
Lemma f32_le_antisym (a b : float) : f32_le a b -> f32_le b a -> F32.eqb a b = true.
Proof.
  unfold f32_le, F32.leb, SFleb, F32.eqb, SFeqb. rewrite (SFcompare_swap a b).
  by destruct (SFcompare a b) as [[]|].
Qed.

(** ** Arrays and loops *)

Lemma array_get_lookup {A} (a : list A) (i : Z) :
  0 <= i -> array_get a i = a !! Z.to_nat i.
Proof. intros Hi. unfold array_get. by rewrite decide_True. Qed.

Lemma array_get_in_range {A} (a : list A) (i : Z) :
  0 <= i < Z.of_nat (length a) -> is_Some (array_get a i).
Proof.
  intros Hi. rewrite array_get_lookup by lia. apply lookup_lt_is_Some. lia.
Qed.

Lemma array_get_Some {A} (a : list A) (i : Z) (x : A) :
  array_get a i = Some x ->
  0 <= i < Z.of_nat (length a) /\ a !! Z.to_nat i = Some x.
Proof.
  unfold array_get. case_decide; [|done]. intros Hx. split; [|done].
  apply lookup_lt_Some in Hx. lia.
Qed.

Lemma array_get_out_of_range {A} (a : list A) (i : Z) :
  Z.of_nat (length a) <= i -> array_get a i = None.
Proof.
  intros Hi. rewrite array_get_lookup by lia. apply lookup_ge_None. lia.
Qed.

Lemma array_set_in_range {A} (a : list A) (i : Z) (v : A) :
  0 <= i < Z.of_nat (length a) ->
  array_set a i v = Some (<[Z.to_nat i := v]> a).
Proof. intros Hi. unfold array_set. by rewrite decide_True. Qed.

Lemma array_set_Some {A} (a b : list A) (i : Z) (v : A) :
  array_set a i v = Some b ->
  0 <= i < Z.of_nat (length a) /\ b = <[Z.to_nat i := v]> a.
Proof. unfold array_set. case_decide; [|done]. by intros [= <-]. Qed.

(** The rule of a counted loop: an invariant every round keeps, and a body
    that returns wherever the invariant holds, give a loop that returns
    with the invariant at the final index. *)
Lemma for_loop_inv {S} (P : Z -> S -> Prop) (body : Z -> S -> option S)
    (n : nat) (i : Z) (s : S) :
  P i s ->
  (forall k s, i <= k < i + Z.of_nat n -> P k s ->
               exists s', body k s = Some s' /\ P (k + 1) s') ->
  exists s', for_loop n i body s = Some s' /\ P (i + Z.of_nat n) s'.
Proof.
  revert i s. induction n as [|n IH]; intros i s HP Hbody; simpl.
  - exists s. split; [done|]. by replace (i + Z.of_nat 0) with i by lia.
  - destruct (Hbody i s) as (s1 & -> & HP1); [lia|done|]. simpl.
    destruct (IH (i + 1) s1 HP1) as (s' & Hloop & HP').
    { intros k s2 Hk. apply Hbody. lia. }
    exists s'. split; [done|].
    by replace (i + Z.of_nat (Datatypes.S n)) with (i + 1 + Z.of_nat n) by lia.
Qed.

Lemma for_range_inv {S} (P : Z -> S -> Prop) (body : Z -> S -> option S)
    (lo hi : Z) (s : S) :
  lo <= hi ->
  P lo s ->
  (forall k s, lo <= k < hi -> P k s ->
               exists s', body k s = Some s' /\ P (k + 1) s') ->
  exists s', for_range lo hi body s = Some s' /\ P hi s'.
Proof.
  intros Hle HP Hbody. unfold for_range.
  destruct (for_loop_inv P body (Z.to_nat (hi - lo)) lo s HP) as (s' & ? & HP').
  { intros k s1 Hk. apply Hbody. lia. }
  exists s'. split; [done|].
  by replace (lo + Z.of_nat (Z.to_nat (hi - lo))) with hi in HP' by lia.
Qed.

Lemma for_range_empty {S} (body : Z -> S -> option S) (lo hi : Z) (s : S) :
  hi <= lo -> for_range lo hi body s = Some s.
Proof.
  intros Hle. unfold for_range. by replace (Z.to_nat (hi - lo)) with 0%nat by lia.
Qed.

(** A loop whose rounds change nothing changes nothing, however long. *)
Lemma for_loop_skip {S} (body : Z -> S -> option S) (n : nat) (i : Z) (s : S) :
  (forall k, i <= k -> body k s = Some s) -> for_loop n i body s = Some s.
Proof.
  revert i. induction n as [|n IH]; intros i Hbody; simpl; [done|].
  rewrite Hbody by lia. simpl. apply IH. intros k Hk. apply Hbody. lia.
Qed.

(** A loop that folds the first [count] elements of an array. *)
Lemma for_range_foldl {A S} (f : S -> A -> S) (data : list A) (count : Z) (s : S) :
  0 <= count <= Z.of_nat (length data) ->
  for_range 0 count (fun i acc => d ← array_get data i; Some (f acc d)) s
  = Some (foldl f s (take (Z.to_nat count) data)).
Proof.
  intros Hc.
  destruct (for_range_inv
              (fun k acc => acc = foldl f s (take (Z.to_nat k) data))
              (fun i acc => d ← array_get data i; Some (f acc d))
              0 count s) as (r & -> & ->); try done; [lia|].
  intros k acc Hk ->.
  destruct (array_get_in_range data k) as [d Hd]; [lia|].
  rewrite Hd. simpl. eexists; split; [done|].
  apply array_get_Some in Hd as [_ Hd].
  replace (Z.to_nat (k + 1)) with (Datatypes.S (Z.to_nat k)) by lia.
  by rewrite (take_S_r _ _ _ Hd), foldl_app.
Qed.

(** ** [buffer_push] *)

Lemma BUFFER_SIZE_pos : 0 < BUFFER_SIZE.
Proof. done. Qed.

Lemma next_head_mod (st : buffer_state) :
  0 <= buffer_head st ->
  Z.rem (buffer_head st + 1) BUFFER_SIZE = (buffer_head st + 1) mod BUFFER_SIZE.
Proof. intros Hh. apply Z.rem_mod_nonneg; [lia|done]. Qed.

Lemma next_head_in_range (st : buffer_state) :
  0 <= buffer_head st ->
  0 <= Z.rem (buffer_head st + 1) BUFFER_SIZE < BUFFER_SIZE.
Proof.
  intros Hh. rewrite next_head_mod by done. by apply Z.mod_pos_bound.
Qed.

Lemma buffer_push_wf (data : sensor_data_t) (st st' : buffer_state) (r : bool) :
  buffer_wf st -> buffer_push data st = Some (r, st') -> buffer_wf st'.
Proof.
  intros Hwf. pose proof Hwf as (Hlen & Hh & Ht).
  unfold buffer_push. case_decide; [|by intros [= <- <-]].
  rewrite array_set_in_range by lia. simpl. intros [= <- <-].
  pose proof (next_head_in_range st ltac:(lia)).
  split_and!; simpl; try lia. by rewrite length_insert.
Qed.

Lemma initial_buffer_wf : buffer_wf initial_buffer.
Proof. repeat split; done. Qed.

Lemma full_buffer_wf : buffer_wf full_buffer.
Proof. repeat split; done. Qed.

(** C1. In a state whose indices lie in [0, N): when [(head + 1) mod N]
    differs from [tail] (not full), [buffer_push] stores the reading at
    index [head], sets [head] to [(head + 1) mod N] and returns true; when
    [(head + 1) mod N = tail] (full) it returns false. *)
Theorem buffer_push_spec (data : sensor_data_t) (st : buffer_state) :
  buffer_wf st ->
  ((buffer_head st + 1) mod BUFFER_SIZE <> buffer_tail st ->
   buffer_push data st =
     Some (true,
           {| sensor_buffer := <[Z.to_nat (buffer_head st) := data]> (sensor_buffer st);
              buffer_head := (buffer_head st + 1) mod BUFFER_SIZE;
              buffer_tail := buffer_tail st |})
   /\ array_get (<[Z.to_nat (buffer_head st) := data]> (sensor_buffer st))
                (buffer_head st) = Some data)
  /\ ((buffer_head st + 1) mod BUFFER_SIZE = buffer_tail st ->
      fst <$> buffer_push data st = Some false).
Proof.
  intros (Hlen & Hh & Ht). unfold buffer_push.
  rewrite next_head_mod by lia. split; intros Hfull.
  - rewrite decide_True by done.
    rewrite array_set_in_range by lia. split; [done|].
    rewrite array_get_lookup by lia. apply list_lookup_insert_eq. lia.
  - by rewrite decide_False by (by intros ?).
Qed.

Lemma buffer_push_spec_witness :
  buffer_wf initial_buffer /\
  (fst <$> buffer_push reading_7 initial_buffer = Some true /\
   array_get (<[0%nat := reading_7]> (sensor_buffer initial_buffer)) 0
     = Some reading_7) /\
  buffer_wf full_buffer /\
  fst <$> buffer_push reading_7 full_buffer = Some false.
Proof.
  split; [exact initial_buffer_wf|]. split.
  - destruct (buffer_push_spec reading_7 initial_buffer initial_buffer_wf)
      as [Hpush _].
    destruct Hpush as [-> Hget]; [by vm_compute|]. by split.
  - split; [exact full_buffer_wf|].
    destruct (buffer_push_spec reading_7 full_buffer full_buffer_wf)
      as [_ Hfull].
    apply Hfull. reflexivity.
Defined.

(** C10. [buffer_push] changes at most [buffer_head] and the slot at the
    old [buffer_head]: [buffer_tail], the size of the array and every
    other slot are as before, and when it returns false the whole state
    is as before. *)
Theorem buffer_push_frame (data : sensor_data_t) (st st' : buffer_state) (r : bool) :
  buffer_push data st = Some (r, st') ->
  buffer_tail st' = buffer_tail st /\
  length (sensor_buffer st') = length (sensor_buffer st) /\
  (forall i, i <> buffer_head st ->
             array_get (sensor_buffer st') i = array_get (sensor_buffer st) i) /\
  (r = false -> st' = st).
Proof.
  unfold buffer_push. case_decide as Hfull.
  - destruct (array_set _ _ _) as [buf|] eqn:Hset; [|done].
    apply array_set_Some in Hset as [Hh ->]. simpl. intros [= <- <-]. simpl.
    split_and!; [done|by rewrite length_insert| |done].
    intros i Hi. unfold array_get. case_decide; [|done].
    apply list_lookup_insert_ne. lia.
  - by intros [= <- <-].
Qed.

Lemma buffer_push_frame_witness :
  exists st',
    buffer_push reading_7 initial_buffer = Some (true, st') /\
    buffer_tail st' = buffer_tail initial_buffer /\
    (forall i, i <> 0 ->
       array_get (sensor_buffer st') i
       = array_get (sensor_buffer initial_buffer) i).
Proof.
  destruct (buffer_push reading_7 initial_buffer) as [[r st']|] eqn:Hpush;
    [|by vm_compute in Hpush].
  assert (r = true) as -> by (by vm_compute in Hpush; injection Hpush).
  exists st'. split; [done|].
  destruct (buffer_push_frame reading_7 initial_buffer st' true Hpush)
    as (Htail & _ & Hslots & _).
  by split.
Defined.

(** ** The producer's handling of a full buffer *)

(** C6. When [buffer_push] returns false, the producer advances
    [buffer_head] by one modulo N and leaves [buffer_tail] and the slots
    alone, then calls [buffer_push] again with the same reading. (The
    state so obtained has [head = tail]; the second call stores the
    reading in slot [tail] and leaves [head] one past it.) *)
Theorem producer_store_full (data : sensor_data_t) (st : buffer_state) :
  buffer_wf st ->
  fst <$> buffer_push data st = Some false ->
  exists advanced,
    buffer_head advanced = (buffer_head st + 1) mod BUFFER_SIZE /\
    buffer_tail advanced = buffer_tail st /\
    sensor_buffer advanced = sensor_buffer st /\
    producer_store data st = snd <$> buffer_push data advanced /\
    producer_store data st =
      Some {| sensor_buffer := <[Z.to_nat (buffer_tail st) := data]> (sensor_buffer st);
              buffer_head := (buffer_tail st + 1) mod BUFFER_SIZE;
              buffer_tail := buffer_tail st |}.
Proof.
  intros (Hlen & Hh & Ht) Hpush.
  assert (buffer_push data st = Some (false, st)
          /\ (buffer_head st + 1) mod BUFFER_SIZE = buffer_tail st)
    as [Hfalse Hfull].
  { revert Hpush. unfold buffer_push. rewrite next_head_mod by lia.
    case_decide as Hne.
    - by destruct (array_set _ _ _).
    - intros _. split; [done|]. lia. }
  exists (set_head ((buffer_head st + 1) mod BUFFER_SIZE) st).
  assert (producer_store data st
          = snd <$> buffer_push data
                      (set_head ((buffer_head st + 1) mod BUFFER_SIZE) st)) as Hretry.
  { unfold producer_store. rewrite Hfalse. simpl.
    rewrite next_head_mod by lia.
    by destruct (buffer_push data (set_head _ st)) as [[? ?]|]. }
  split_and!; try done. rewrite Hretry, Hfull.
  unfold buffer_push, set_head. simpl.
  assert (Z.rem (buffer_tail st + 1) BUFFER_SIZE
          = (buffer_tail st + 1) mod BUFFER_SIZE) as ->
    by (apply Z.rem_mod_nonneg; [lia|done]).
  assert ((buffer_tail st + 1) mod BUFFER_SIZE <> buffer_tail st) as Hne.
  { unfold BUFFER_SIZE in *.
    destruct (decide (buffer_tail st = 99)) as [->|]; [done|].
    rewrite Z.mod_small by lia. lia. }
  rewrite decide_True by done.
  by rewrite array_set_in_range by lia.
Qed.

Lemma producer_store_full_witness :
  fst <$> buffer_push reading_7 full_buffer = Some false /\
  exists advanced,
    buffer_head advanced = 0 /\
    buffer_tail advanced = buffer_tail full_buffer /\
    producer_store reading_7 full_buffer
    = snd <$> buffer_push reading_7 advanced.
Proof.
  split; [reflexivity|].
  destruct (producer_store_full reading_7 full_buffer full_buffer_wf)
    as (advanced & Hhead & Htail & _ & Hretry & _); [reflexivity|].
  exists advanced. by split_and!.
Defined.


(** ** [calculate_std_dev] *)

Lemma calculate_std_dev_returns `{Libm} (data : list float) (count : Z) :
  0 <= count <= Z.of_nat (length data) ->
  calculate_std_dev data count
  = Some (population_std_dev (take (Z.to_nat count) data)).
Proof.
  intros Hc. unfold calculate_std_dev.
  rewrite for_range_foldl by lia. cbn [mbind option_bind].
  rewrite for_range_foldl by lia. cbn [mbind option_bind].
  unfold population_std_dev, spec_sum_square_deviations, spec_mean, spec_sum,
    spec_square_deviation.
  rewrite length_take.
  by replace (Z.of_nat (Z.to_nat count `min` length data)) with count by lia.
Qed.

(** C2. For a sequence [x] of [n >= 1] values (the first [n] slots of the
    array), [calculate_std_dev] returns the population standard deviation
    [sqrt(sum((x_i - mean)^2) / n)] with [mean = sum(x) / n]: both
    divisions are by [n]. The sums and quotients are those of the machine,
    taken in the order of the formula. *)
Theorem calculate_std_dev_population `{Libm} (data : list float) (count : Z) :
  1 <= count <= Z.of_nat (length data) ->
  calculate_std_dev data count
  = Some (population_std_dev (take (Z.to_nat count) data)).
Proof. intros Hc. apply calculate_std_dev_returns. lia. Qed.

Lemma calculate_std_dev_population_witness :
  1 <= 5 <= Z.of_nat (length sample_1_to_5) /\
  calculate_std_dev (H := libm_square) sample_1_to_5 5
  = Some (population_std_dev (H := libm_square) (take (Z.to_nat 5) sample_1_to_5)).
Proof.
  assert (1 <= 5 <= Z.of_nat (length sample_1_to_5)) as Hc by (by vm_compute).
  split; [exact Hc|].
  exact (calculate_std_dev_population (H := libm_square) sample_1_to_5 5 Hc).
Defined.

Example std_dev_scenario_1 :
  calculate_std_dev (H := libm_square) sample_1_to_5 5
  = Some (S754_finite false 11863283 (-23)).
Proof. vm_compute. reflexivity. Qed.

Example std_dev_scenario_2 :
  calculate_std_dev (H := libm_square) (F32.of_Z <$> [2; 4]) 2 = Some (F32.of_Z 1).
Proof. vm_compute. reflexivity. Qed.

(** ** [calculate_max] and [calculate_min] *)

(** A scan that keeps the better of the value held and the next element:
    [better d best] is the test of the [if]. It returns an element of the
    sequence; where [better] is false on numbers the element held is
    [good] against the next, so the result is [good] against all. *)
Lemma scan_spec (better : float -> float -> bool) (good : float -> float -> Prop)
    (data : list float) (count : Z) :
  (forall x, numeric x -> good x x) ->
  (forall x y z, good x y -> good y z -> good x z) ->
  (forall d best, better d best = true -> good d best) ->
  (forall d best, numeric d -> numeric best -> better d best = false -> good best d) ->
  1 <= count <= Z.of_nat (length data) ->
  exists best,
    (first ← array_get data 0;
     for_range 1 count
       (fun i best => d ← array_get data i;
                      Some (if better d best then d else best)) first)
    = Some best /\
    best ∈ take (Z.to_nat count) data /\
    (Forall numeric (take (Z.to_nat count) data) ->
     Forall (good best) (take (Z.to_nat count) data)).
Proof.
  intros Hrefl Htrans Htrue Hfalse Hc.
  destruct (array_get_in_range data 0) as [d0 Hd0]; [lia|].
  rewrite Hd0. cbn [mbind option_bind].
  apply array_get_Some in Hd0 as [_ Hd0]. change (Z.to_nat 0) with 0%nat in Hd0.
  destruct (for_range_inv
    (fun k best =>
       best ∈ take (Z.to_nat k) data /\
       (Forall numeric (take (Z.to_nat count) data) ->
        Forall (good best) (take (Z.to_nat k) data)))
    (fun i best => d ← array_get data i;
                   Some (if better d best then d else best))
    1 count d0) as (best & Hloop & Hin & Hall); [lia| |..].
  - change (Z.to_nat 1) with 1%nat. destruct data as [|d data']; [done|].
    simpl in Hd0. injection Hd0 as ->. simpl. rewrite ?take_0.
    split; [by apply list_elem_of_singleton|].
    intros Hnum. apply Forall_singleton, Hrefl.
    apply (Forall_lookup_1 _ _ 0%nat d0) in Hnum; [done|].
    rewrite lookup_take_lt by lia. done.
  - intros k best Hk [Hin Hall].
    destruct (array_get_in_range data k) as [d Hd]; [lia|].
    rewrite Hd. cbn [mbind option_bind]. eexists; split; [done|].
    apply array_get_Some in Hd as [_ Hd].
    replace (Z.to_nat (k + 1)) with (Datatypes.S (Z.to_nat k)) by lia.
    rewrite (take_S_r _ _ _ Hd). split.
    + rewrite elem_of_app, list_elem_of_singleton.
      destruct (better d best); [by right|by left].
    + intros Hnum. specialize (Hall Hnum).
      assert (numeric d) as Hnd.
      { apply (Forall_lookup_1 _ _ (Z.to_nat k) d) in Hnum; [done|].
        rewrite lookup_take_lt by lia. done. }
      assert (numeric best) as Hnb.
      { apply elem_of_take in Hin as (a & Ha & Hlt).
        apply (Forall_lookup_1 _ _ a best) in Hnum; [done|].
        rewrite lookup_take_lt by lia. done. }
      apply Forall_app. destruct (better d best) eqn:Hb.
      * split; [|by apply Forall_singleton, Hrefl].
        eapply Forall_impl; [done|]. intros x Hx. simpl.
        eapply Htrans; [|done]. by apply Htrue.
      * split; [done|]. by apply Forall_singleton, Hfalse.
  - by exists best.
Qed.

(** [calculate_max] returns an element of the sequence, and on numbers one
    that no element exceeds. *)
Lemma calculate_max_spec (data : list float) (count : Z) :
  1 <= count <= Z.of_nat (length data) ->
  exists m,
    calculate_max data count = Some m /\
    m ∈ take (Z.to_nat count) data /\
    (Forall numeric (take (Z.to_nat count) data) ->
     Forall (fun x => f32_le x m) (take (Z.to_nat count) data)).
Proof.
  intros Hc.
  apply (scan_spec F32.gtb (fun m x => f32_le x m) data count); try done.
  - apply f32_le_refl.
  - intros x y z Hxy Hyz. by apply (f32_le_trans z y x).
  - intros d best. apply gtb_true_le.
  - intros d best. apply gtb_false_le.
Qed.

(** [calculate_min] returns an element of the sequence, and on numbers one
    that exceeds no element. *)
Lemma calculate_min_spec (data : list float) (count : Z) :
  1 <= count <= Z.of_nat (length data) ->
  exists m,
    calculate_min data count = Some m /\
    m ∈ take (Z.to_nat count) data /\
    (Forall numeric (take (Z.to_nat count) data) ->
     Forall (fun x => f32_le m x) (take (Z.to_nat count) data)).
Proof.
  intros Hc.
  apply (scan_spec F32.ltb f32_le data count); try done.
  - apply f32_le_refl.
  - apply f32_le_trans.
  - intros d best. apply ltb_true_le.
  - intros d best Hd Hb. by apply ltb_false_le.
Qed.

(** ** The sort inside [calculate_median] *)

(** Exchanging two elements of a list permutes it. *)
Lemma insert_head_Permutation {A} (l : list A) (j : nat) (x y : A) :
  l !! j = Some y -> y :: <[j := x]> l ≡ₚ x :: l.
Proof.
  revert j. induction l as [|a l IH]; intros [|j] Hj; simpl in *; try done.
  - injection Hj as ->. apply perm_swap.
  - rewrite (perm_swap a y), (IH j Hj). apply perm_swap.
Qed.

Lemma swap_Permutation {A} (l : list A) (i j : nat) (x y : A) :
  l !! i = Some x -> l !! j = Some y ->
  <[j := x]> (<[i := y]> l) ≡ₚ l.
Proof.
  revert i j. induction l as [|a l IH]; intros [|i] [|j] Hi Hj;
    simpl in *; try done.
  - by injection Hi as ->.
  - injection Hi as ->. by apply insert_head_Permutation.
  - injection Hj as ->. by apply insert_head_Permutation.
  - by rewrite (IH i j Hi Hj).
Qed.

(** A list whose elements are in order at every pair of positions is
    sorted. *)
Lemma StronglySorted_lookup {A} (R : A -> A -> Prop) (l : list A) :
  (forall a b x y, (a < b)%nat -> l !! a = Some x -> l !! b = Some y -> R x y) ->
  StronglySorted R l.
Proof.
  induction l as [|x l IH]; intros Hl; constructor.
  - apply IH. intros a b u v Hab Ha Hb.
    apply (Hl (Datatypes.S a) (Datatypes.S b)); [lia|done..].
  - apply Forall_lookup. intros b y Hb.
    apply (Hl 0%nat (Datatypes.S b)); [lia|done..].
Qed.

Lemma StronglySorted_lookup_le {A} (R : A -> A -> Prop) (l : list A)
    (a b : nat) (x y : A) :
  StronglySorted R l -> (a < b)%nat -> l !! a = Some x -> l !! b = Some y -> R x y.
Proof.
  intros Hs. revert a b. induction Hs as [|u l Hs IH Hu]; intros a b Hab Ha Hb.
  - done.
  - destruct b as [|b]; [lia|]. destruct a as [|a]; simpl in *.
    + injection Ha as ->. by apply (Forall_lookup_1 _ _ b y) in Hu.
    + apply (IH a b); [lia|done..].
Qed.

(** One round of the inner loop, inside the array: the two elements are
    read and exchanged when the first is the greater. *)
Lemma sort_step_in_range (i j : Z) (data : list float) :
  0 <= i < Z.of_nat (length data) ->
  0 <= j < Z.of_nat (length data) ->
  exists x y,
    data !! Z.to_nat i = Some x /\ data !! Z.to_nat j = Some y /\
    sort_step i j data
    = Some (if F32.gtb x y
            then <[Z.to_nat j := x]> (<[Z.to_nat i := y]> data)
            else data).
Proof.
  intros Hi Hj. unfold sort_step.
  destruct (array_get_in_range data i Hi) as [x Hx].
  destruct (array_get_in_range data j Hj) as [y Hy].
  rewrite Hx, Hy. cbn [mbind option_bind].
  apply array_get_Some in Hx as [_ Hx]. apply array_get_Some in Hy as [_ Hy].
  exists x, y. split_and!; [done..|].
  destruct (F32.gtb x y); [|done].
  rewrite array_set_in_range by lia. cbn [mbind option_bind].
  rewrite array_set_in_range by (rewrite length_insert; lia). done.
Qed.

Lemma sort_frame_numeric (n : nat) (data0 d : list float) (a : nat) (x : float) :
  sort_frame n data0 d -> Forall numeric (take n data0) ->
  (a < n)%nat -> d !! a = Some x -> numeric x.
Proof.
  intros (_ & Hperm & _) Hnum Ha Hx. rewrite <- Hperm in Hnum.
  apply (Forall_lookup_1 _ _ a x) in Hnum; [done|].
  by rewrite lookup_take_lt.
Qed.

Lemma sort_step_keeps (n : nat) (data0 d : list float) (i j : nat) :
  (n <= length data0)%nat -> sort_frame n data0 d -> (i < j < n)%nat ->
  exists d',
    sort_step (Z.of_nat i) (Z.of_nat j) d = Some d' /\
    sort_frame n data0 d' /\
    (Forall numeric (take n data0) ->
     prefix_placed n i d -> row_placed i j d ->
     prefix_placed n i d' /\ row_placed i (Datatypes.S j) d').
Proof.
  intros Hn Hframe Hij. pose proof Hframe as (Hlen & Hperm & Hdrop).
  destruct (sort_step_in_range (Z.of_nat i) (Z.of_nat j) d)
    as (x & y & Hx & Hy & ->); [lia..|].
  rewrite !Nat2Z.id in *.
  destruct (F32.gtb x y) eqn:Hgt.
  - eexists; split; [done|]. split; [split_and!|].
    + by rewrite !length_insert.
    + rewrite !take_insert_lt by lia. rewrite <- Hperm.
      apply swap_Permutation; by rewrite lookup_take_lt by lia.
    + by rewrite !drop_insert_lt by lia.
    + intros Hnum Hpre Hrow. apply gtb_true_le in Hgt. split.
      * intros a b u v Ha Hb Hu Hv.
        rewrite !list_lookup_insert_ne in Hu by lia.
        destruct (decide (b = j)) as [->|Hbj].
        { rewrite list_lookup_insert_eq in Hv by (rewrite length_insert; lia).
          injection Hv as <-. apply (Hpre a i); [lia..|done|done]. }
        rewrite list_lookup_insert_ne in Hv by lia.
        destruct (decide (b = i)) as [->|Hbi].
        { rewrite list_lookup_insert_eq in Hv by lia.
          injection Hv as <-. apply (Hpre a j); [lia..|done|done]. }
        rewrite list_lookup_insert_ne in Hv by lia.
        by apply (Hpre a b).
      * intros b u v Hb Hu Hv.
        rewrite list_lookup_insert_ne in Hu by lia.
        rewrite list_lookup_insert_eq in Hu by lia. injection Hu as <-.
        destruct (decide (b = j)) as [->|Hbj].
        { rewrite list_lookup_insert_eq in Hv by (rewrite length_insert; lia).
          by injection Hv as <-. }
        rewrite !list_lookup_insert_ne in Hv by lia.
        apply (f32_le_trans y x v); [done|]. apply (Hrow b); [lia|done..].
  - eexists; split; [done|]. split; [done|].
    intros Hnum Hpre Hrow. split; [done|].
    intros b u v Hb Hu Hv. rewrite Hx in Hu. injection Hu as <-.
    destruct (decide (b = j)) as [->|Hbj]; [|apply (Hrow b); [lia|done..]].
    rewrite Hy in Hv. injection Hv as <-.
    apply gtb_false_le; [| |done].
    + apply (sort_frame_numeric n data0 d i); [done..|lia|done].
    + apply (sort_frame_numeric n data0 d j); [done..|lia|done].
Qed.

(** The inner loop places position [i]. *)
Lemma inner_loop_keeps (n : nat) (data0 d : list float) (i : nat) :
  (n <= length data0)%nat -> sort_frame n data0 d -> (i < n)%nat ->
  exists d',
    for_range (Z.of_nat i + 1) (Z.of_nat n) (sort_step (Z.of_nat i)) d = Some d' /\
    sort_frame n data0 d' /\
    (Forall numeric (take n data0) ->
     prefix_placed n i d -> prefix_placed n (Datatypes.S i) d').
Proof.
  intros Hn Hframe Hi.
  destruct (for_range_inv
    (fun k d' =>
       sort_frame n data0 d' /\
       (Forall numeric (take n data0) -> prefix_placed n i d ->
        prefix_placed n i d' /\ row_placed i (Z.to_nat k) d'))
    (sort_step (Z.of_nat i)) (Z.of_nat i + 1) (Z.of_nat n) d)
    as (d' & Hloop & Hframe' & Hord); [lia| |..].
  - split; [done|]. intros _ Hpre. split; [done|].
    intros b x y Hb. lia.
  - intros k d1 Hk [Hframe1 Hord1].
    destruct (sort_step_keeps n data0 d1 i (Z.to_nat k))
      as (d2 & Hstep & Hframe2 & Hord2); [done..|lia|].
    rewrite Z2Nat.id in Hstep by lia.
    exists d2. split; [done|]. split; [done|].
    intros Hnum Hpre. destruct (Hord1 Hnum Hpre) as [Hpre1 Hrow1].
    replace (Z.to_nat (k + 1)) with (Datatypes.S (Z.to_nat k)) by lia.
    by apply Hord2.
  - exists d'. split; [done|]. split; [done|].
    intros Hnum Hpre. destruct (Hord Hnum Hpre) as [Hpre' Hrow'].
    rewrite Nat2Z.id in Hrow'.
    intros a b x y Ha Hb Hx Hy.
    destruct (decide (a = i)) as [->|Hai].
    + by apply (Hrow' b x y).
    + apply (Hpre' a b); [lia|done..].
Qed.

(** The two loops together: they return, keep the frame, and on numbers
    leave the first [n] elements in ascending order. *)
Lemma sort_in_place_spec (data : list float) (count : Z) :
  1 <= count <= Z.of_nat (length data) -> count < UINT32_MOD ->
  exists s,
    sort_in_place data count = Some (s ++ drop (Z.to_nat count) data) /\
    length s = Z.to_nat count /\
    s ≡ₚ take (Z.to_nat count) data /\
    (Forall numeric (take (Z.to_nat count) data) -> StronglySorted f32_le s).
Proof.
  intros Hc Hu. set (n := Z.to_nat count).
  unfold sort_in_place, u32. rewrite Z.mod_small by lia.
  destruct (for_range_inv
    (fun k d =>
       sort_frame n data d /\
       (Forall numeric (take n data) -> prefix_placed n (Z.to_nat k) d))
    (fun i d => for_range (i + 1) count (sort_step i) d) 0 (count - 1) data)
    as (d & -> & (Hlen & Hperm & Hdrop) & Hord); [lia| |..].
  - split; [done|]. intros _ a b x y Ha. lia.
  - intros k d1 Hk [Hframe1 Hord1].
    destruct (inner_loop_keeps n data d1 (Z.to_nat k))
      as (d2 & Hloop & Hframe2 & Hord2); [lia|done|lia|].
    rewrite Z2Nat.id in Hloop by lia.
    replace (Z.of_nat n) with count in Hloop by lia.
    exists d2. split; [done|]. split; [done|].
    intros Hnum. replace (Z.to_nat (k + 1)) with (Datatypes.S (Z.to_nat k)) by lia.
    by apply Hord2, Hord1.
  - exists (take n d). split_and!.
    + by rewrite <- Hdrop, take_drop.
    + rewrite length_take. lia.
    + done.
    + intros Hnum. apply StronglySorted_lookup. intros a b x y Hab Hx Hy.
      assert (b < n)%nat as Hb.
      { apply lookup_lt_Some in Hy. rewrite length_take in Hy. lia. }
      rewrite lookup_take_lt in Hx, Hy by lia.
      apply (Hord Hnum a b); [lia..|done|done].
Qed.

(** ** [calculate_median] *)

Lemma odd_of_mod (count : Z) :
  0 <= count -> Nat.odd (Z.to_nat count) = true <-> count mod 2 <> 0.
Proof.
  intros Hc. rewrite Nat.odd_spec.
  pose proof (Z.div_mod count 2 ltac:(lia)) as Hdiv.
  pose proof (Z.mod_pos_bound count 2 ltac:(lia)) as Hmod.
  split.
  - intros [k Hk] Hm. lia.
  - intros Hm. exists (Z.to_nat (count / 2)). lia.
Qed.

Lemma half_below (count : Z) :
  count mod 2 = 0 -> 1 <= count ->
  Z.to_nat ((count - 1) / 2) = (Z.to_nat count / 2 - 1)%nat.
Proof.
  intros Hm Hc.
  pose proof (Z.div_mod count 2 ltac:(lia)) as Hdiv.
  rewrite <- (Nat2Z.id (Z.to_nat count / 2 - 1)).
  f_equal. rewrite Nat2Z.inj_sub, Nat2Z.inj_div, Z2Nat.id by
    (try lia; apply Nat.div_le_lower_bound; lia).
  change (Z.of_nat 2) with 2. change (Z.of_nat 1) with 1.
  symmetry. apply Z.div_unique with (r := 1); lia.
Qed.

(** [calculate_median] on a whole sequence: it returns, the array is left
    holding a permutation of the sequence, in ascending order when the
    sequence holds numbers, and the value returned is the median of what
    the array then holds. *)
Lemma calculate_median_spec (data : list float) (count : Z) :
  1 <= count <= Z.of_nat (length data) -> count < UINT32_MOD ->
  exists s m,
    calculate_median data count = Some (m, s ++ drop (Z.to_nat count) data) /\
    length s = Z.to_nat count /\
    s ≡ₚ take (Z.to_nat count) data /\
    (Forall numeric (take (Z.to_nat count) data) -> StronglySorted f32_le s) /\
    median_of_sorted s = Some m.
Proof.
  intros Hc Hu.
  destruct (sort_in_place_spec data count Hc Hu) as (s & Hsort & Hlen & Hperm & Hord).
  exists s. unfold calculate_median, median_of_sorted. rewrite Hsort, Hlen.
  cbn [mbind option_bind].
  assert (Z.to_nat (count / 2) = (Z.to_nat count / 2)%nat) as Hhalf.
  { rewrite Z2Nat.inj_div by lia. done. }
  assert (Z.to_nat count / 2 < Z.to_nat count)%nat as Hlt
    by (apply Nat.div_lt; lia).
  assert (0 <= count / 2) as Hpos by (apply Z.div_pos; lia).
  destruct (lookup_lt_is_Some_2 s (Z.to_nat count / 2)) as [b Hb]; [lia|].
  case_decide as Hodd.
  - apply odd_of_mod in Hodd as ->; [|lia].
    rewrite array_get_lookup, Hhalf by done.
    rewrite lookup_app_l, Hb by lia. cbn [mbind option_bind].
    exists b. by split_and!.
  - assert (Nat.odd (Z.to_nat count) = false) as ->.
    { destruct (Nat.odd (Z.to_nat count)) eqn:Ho; [|done].
      apply odd_of_mod in Ho; [done|lia]. }
    unfold u32. rewrite Z.mod_small by lia.
    assert (Z.to_nat ((count - 1) / 2) = (Z.to_nat count / 2 - 1)%nat) as Hlow.
    { apply half_below; lia. }
    destruct (lookup_lt_is_Some_2 s (Z.to_nat count / 2 - 1)) as [a Ha]; [lia|].
    rewrite (array_get_lookup _ ((count - 1) / 2)), Hlow
      by (apply Z.div_pos; lia).
    rewrite lookup_app_l, Ha by lia. cbn [mbind option_bind].
    rewrite (array_get_lookup _ (count / 2)), Hhalf by done.
    rewrite lookup_app_l, Hb by lia. cbn [mbind option_bind].
    exists (average a b). by split_and!.
Qed.

(** C3. For a sequence [x] of [n >= 1] numbers (the first [n] slots of
    the array), [calculate_median] returns the middle element of [x]
    sorted ascending when [n] is odd and the average of the two central
    elements of the sorted sequence when [n] is even: the array then holds
    [s], an ascending permutation of [x], and the value is
    [median_of_sorted s], which is written from the formula [(a + b) / 2]
    and calls nothing of [calculate_median]. *)
Theorem calculate_median_sorted (data : list float) (count : Z) :
  1 <= count <= Z.of_nat (length data) -> count < UINT32_MOD ->
  Forall numeric (take (Z.to_nat count) data) ->
  exists s m,
    calculate_median data count = Some (m, s ++ drop (Z.to_nat count) data) /\
    ascending_sort_of s (take (Z.to_nat count) data) /\
    median_of_sorted s = Some m.
Proof.
  intros Hc Hu Hnum.
  destruct (calculate_median_spec data count Hc Hu)
    as (s & m & Hmed & _ & Hperm & Hord & Hm).
  exists s, m. split_and!; [done| |done]. split; [done|by apply Hord].
Qed.

Lemma calculate_median_sorted_witness :
  exists s m,
    calculate_median sample_3_1_max_2 4
      = Some (m, s ++ drop (Z.to_nat 4) sample_3_1_max_2) /\
    ascending_sort_of s (take (Z.to_nat 4) sample_3_1_max_2) /\
    median_of_sorted s = Some m.
Proof.
  apply (calculate_median_sorted sample_3_1_max_2 4).
  - by vm_compute.
  - by vm_compute.
  - vm_compute. by repeat constructor.
Defined.

(** On the even-length sequence 3, 1, FLT_MAX, 2 the value is 2.5, the
    average of the central elements 2 and 3 of 1, 2, 3, FLT_MAX. *)
Example median_of_four :
  calculate_median sample_3_1_max_2 4
  = Some (S754_finite false 10485760 (-22),
          [F32.of_Z 1; F32.of_Z 2; F32.of_Z 3; F32.max_float]).
Proof. vm_compute. reflexivity. Qed.

(** The scenarios of the specification: the median of [1,2,3,4,5] is 3,
    that of [2,4] is 3. *)
Example median_scenario_1 :
  fst <$> calculate_median sample_1_to_5 5 = Some (F32.of_Z 3).
Proof. vm_compute. reflexivity. Qed.

Example median_scenario_2 :
  fst <$> calculate_median (F32.of_Z <$> [2; 4]) 2 = Some (F32.of_Z 3).
Proof. vm_compute. reflexivity. Qed.

(** ** The statistics on an empty sequence *)

(** C4, as stated, fails: with [count = 0] the operations return a value.
    [calculate_std_dev] returns NaN, [calculate_max] and [calculate_min]
    return the first slot of the array they are given. *)
Lemma empty_sequence_returns_value :
  calculate_std_dev (H := libm_square) sample_5 0 = Some S754_nan /\
  calculate_max sample_5 0 = Some (F32.of_Z 5) /\
  calculate_min sample_5 0 = Some (F32.of_Z 5).
Proof. vm_compute. by split_and!. Qed.

Lemma sort_in_place_empty (data : list float) : sort_in_place data 0 = Some data.
Proof.
  unfold sort_in_place, for_range. apply for_loop_skip.
  intros k Hk. apply for_range_empty. lia.
Qed.

(** C4, amended. The statistics have no error result. With [count = 0],
    [calculate_std_dev] returns NaN (0/0) whatever the array holds;
    [calculate_max] and [calculate_min] return [data[0]], the first slot of
    the array behind the empty sequence; [calculate_median] sorts nothing
    and averages [data[2147483647]] (the index [(count - 1) / 2] taken in
    [uint32_t]) with [data[0]], so it reads outside every array that is
    not that long. *)
Theorem statistics_of_empty_sequence `{Libm} (data : list float) :
  calculate_std_dev data 0 = Some S754_nan /\
  calculate_max data 0 = array_get data 0 /\
  calculate_min data 0 = array_get data 0 /\
  calculate_median data 0 =
    (a ← array_get data 2147483647;
     b ← array_get data 0;
     Some (average a b, data)).
Proof.
  split_and!.
  - done.
  - unfold calculate_max. destruct (array_get data 0); [|done].
    cbn [mbind option_bind]. by apply for_range_empty.
  - unfold calculate_min. destruct (array_get data 0); [|done].
    cbn [mbind option_bind]. by apply for_range_empty.
  - unfold calculate_median. rewrite sort_in_place_empty.
    cbn [mbind option_bind]. done.
Qed.

(** On an array of one element: NaN, the element twice, and a read
    outside the array. *)
Lemma statistics_of_empty_sequence_witness :
  calculate_std_dev (H := libm_square) sample_5 0 = Some S754_nan /\
  calculate_max sample_5 0 = Some (F32.of_Z 5) /\
  calculate_min sample_5 0 = Some (F32.of_Z 5) /\
  calculate_median sample_5 0 = None.
Proof.
  destruct (statistics_of_empty_sequence (H := libm_square) sample_5)
    as (-> & -> & -> & ->).
  by split_and!.
Defined.

(** ** What [calculate_median] does to the caller's array *)

(** C5, as stated, fails: on [4,2,1] the call leaves [1,2,4] in the array,
    and [calculate_std_dev] on the array gives another value after the
    call than before it (the squares are added in another order). *)
Lemma calculate_median_alters_array :
  snd <$> calculate_median sample_4_2_1 3 = Some (F32.of_Z <$> [1; 2; 4]) /\
  (F32.of_Z <$> [1; 2; 4]) <> sample_4_2_1 /\
  calculate_std_dev (H := libm_square) sample_4_2_1 3
    = Some (S754_finite false 10462433 (-23)) /\
  calculate_std_dev (H := libm_square) (F32.of_Z <$> [1; 2; 4]) 3
    = Some (S754_finite false 10462432 (-23)).
Proof.
  split_and!.
  - vm_compute. reflexivity.
  - vm_compute. intros Heq. discriminate Heq.
  - vm_compute. reflexivity.
  - vm_compute. reflexivity.
Qed.

Lemma sorted_prefix (s rest : list float) (n : nat) :
  length s = n -> take n (s ++ rest) = s /\ drop n (s ++ rest) = rest.
Proof.
  intros <-. split; [apply take_app_length|apply drop_app_length].
Qed.

(** Two lists with the same elements have extremes that compare equal. *)
Lemma extreme_unique (good : float -> float -> Prop) (l1 l2 : list float)
    (m1 m2 : float) :
  l1 ≡ₚ l2 ->
  m1 ∈ l1 -> Forall (good m1) l1 ->
  m2 ∈ l2 -> Forall (good m2) l2 ->
  good m1 m2 /\ good m2 m1.
Proof.
  intros Hperm Hin1 Hall1 Hin2 Hall2. rewrite Forall_forall in Hall1, Hall2.
  split.
  - apply Hall1. by rewrite Hperm.
  - apply Hall2. by rewrite <- Hperm.
Qed.

(** C5, amended. [calculate_median] sorts the caller's array in place:
    after the call on [n >= 1] numbers the first [n] slots hold an
    ascending permutation of what they held and the other slots are as
    before. [calculate_max] and [calculate_min] applied to the array
    after the call return values that compare equal to those they return
    before it. *)
Theorem calculate_median_sorts_in_place (data : list float) (count : Z) :
  1 <= count <= Z.of_nat (length data) -> count < UINT32_MOD ->
  Forall numeric (take (Z.to_nat count) data) ->
  exists m data',
    calculate_median data count = Some (m, data') /\
    length data' = length data /\
    ascending_sort_of (take (Z.to_nat count) data') (take (Z.to_nat count) data) /\
    drop (Z.to_nat count) data' = drop (Z.to_nat count) data /\
    (exists mx mx', calculate_max data count = Some mx /\
                    calculate_max data' count = Some mx' /\
                    F32.eqb mx mx' = true) /\
    (exists mn mn', calculate_min data count = Some mn /\
                    calculate_min data' count = Some mn' /\
                    F32.eqb mn mn' = true).
Proof.
  intros Hc Hu Hnum.
  destruct (calculate_median_spec data count Hc Hu)
    as (s & m & Hmed & Hlen & Hperm & Hord & _).
  destruct (sorted_prefix s (drop (Z.to_nat count) data) _ Hlen) as [Htake Hdrop].
  assert (length (s ++ drop (Z.to_nat count) data) = length data) as Hlen'.
  { rewrite length_app, length_drop. lia. }
  assert (Forall numeric (take (Z.to_nat count) (s ++ drop (Z.to_nat count) data)))
    as Hnum' by (by rewrite Htake, Hperm).
  exists m, (s ++ drop (Z.to_nat count) data).
  split_and!; [done|done| |done| |].
  - rewrite Htake. split; [done|by apply Hord].
  - destruct (calculate_max_spec data count Hc) as (mx & Hmx & Hin & Hall).
    destruct (calculate_max_spec (s ++ drop (Z.to_nat count) data) count)
      as (mx' & Hmx' & Hin' & Hall'); [lia|].
    exists mx, mx'. split_and!; [done..|].
    destruct (extreme_unique (fun m x => f32_le x m) _ _ mx mx'
                (symmetry (eq_ind_r (fun l => l ≡ₚ _) Hperm Htake)))
      as [H1 H2]; auto.
    by apply f32_le_antisym.
  - destruct (calculate_min_spec data count Hc) as (mn & Hmn & Hin & Hall).
    destruct (calculate_min_spec (s ++ drop (Z.to_nat count) data) count)
      as (mn' & Hmn' & Hin' & Hall'); [lia|].
    exists mn, mn'. split_and!; [done..|].
    destruct (extreme_unique f32_le _ _ mn mn'
                (symmetry (eq_ind_r (fun l => l ≡ₚ _) Hperm Htake)))
      as [H1 H2]; auto.
    by apply f32_le_antisym.
Qed.

Lemma calculate_median_sorts_in_place_witness :
  exists m data',
    calculate_median sample_4_2_1 3 = Some (m, data') /\
    ascending_sort_of (take (Z.to_nat 3) data') (take (Z.to_nat 3) sample_4_2_1) /\
    (exists mx mx', calculate_max sample_4_2_1 3 = Some mx /\
                    calculate_max data' 3 = Some mx' /\
                    F32.eqb mx mx' = true).
Proof.
  destruct (calculate_median_sorts_in_place sample_4_2_1 3)
    as (m & data' & Hmed & _ & Hsort & _ & Hmax & _).
  - by vm_compute.
  - by vm_compute.
  - vm_compute. by repeat constructor.
  - by exists m, data'.
Defined.

(** * The arithmetic of [float]s *)

(** ** Sums of sensor values *)

(** [iter_pos] of [SpecFloat] counts as [Nat.iter] does. *)
Lemma iter_pos_nat {A} (f : A -> A) (n : positive) (x : A) :
  SpecFloat.iter_pos f n x = Nat.iter (Pos.to_nat n) f x.
Proof.
  revert x. induction n as [n IH|n IH|]; intros x;
    cbn [SpecFloat.iter_pos].
  - rewrite !IH, Pos2Nat.inj_xI, <- Nat.iter_add.
    replace (Datatypes.S (2 * Pos.to_nat n)) with
      (Datatypes.S (Pos.to_nat n + Pos.to_nat n)) by lia.
    by rewrite Nat.iter_succ_r.
  - rewrite !IH, Pos2Nat.inj_xO, <- Nat.iter_add. f_equal. lia.
  - done.
Qed.

Lemma pos_iter_nat {A} (f : A -> A) (n : positive) (x : A) :
  Pos.iter f x n = Nat.iter (Pos.to_nat n) f x.
Proof. apply Pos2Nat.inj_iter. Qed.

(** Shifting right the zeros that a shift left has put in is exact. *)
Lemma shr_1_iter_xO (n : nat) (q : positive) :
  Nat.iter n shr_1 {| shr_m := Zpos (Nat.iter n xO q); shr_r := false; shr_s := false |}
  = {| shr_m := Zpos q; shr_r := false; shr_s := false |}.
Proof.
  induction n as [|n IH]; [done|].
  rewrite Nat.iter_succ_r. simpl. exact IH.
Qed.

Lemma digits2_pos_iter_xO (n : nat) (q : positive) :
  Zpos (digits2_pos (Nat.iter n xO q)) = Zpos (digits2_pos q) + Z.of_nat n.
Proof.
  induction n as [|n IH]; [simpl; lia|].
  rewrite Nat2Z.inj_succ. simpl. lia.
Qed.

Lemma Zpos_iter_xO (n : nat) (q : positive) :
  Zpos (Nat.iter n xO q) = Zpos q * 2 ^ Z.of_nat n.
Proof.
  induction n as [|n IH]; [simpl; lia|].
  rewrite Nat2Z.inj_succ, Z.pow_succ_r by lia. simpl Nat.iter.
  rewrite Pos2Z.inj_xO, IH. lia.
Qed.

(** A positive integer of fewer than 24 bits, written with [k] more zero
    bits and the exponent [-k], rounds to the same [float]. *)
Lemma binary_round_shifted (p : positive) (k : nat) :
  Zpos (digits2_pos p) < 24 ->
  binary_round 24 128 false (Nat.iter k xO p) (- Z.of_nat k)
  = binary_round 24 128 false p 0.
Proof.
  intros Hd. set (D := Zpos (digits2_pos p)) in *.
  assert (0 < D) as HD by (unfold D; lia).
  unfold binary_round. rewrite digits2_pos_iter_xO. fold D.
  replace (D + Z.of_nat k + - Z.of_nat k) with (D + 0) by lia.
  assert (fexp 24 128 (D + 0) = D - 24) as ->
    by (unfold fexp, emin; lia).
  (* the right-hand side shifts [p] left by [24 - D] *)
  assert (shl_align p 0 (D - 24)
          = (Nat.iter (Z.to_nat (24 - D)) xO p, D - 24)) as ->.
  { unfold shl_align. destruct (D - 24 - 0) as [|d|d] eqn:Hd'; [lia|lia|].
    rewrite pos_iter_nat. do 3 f_equal. lia. }
  destruct (decide (D - 24 < - Z.of_nat k)) as [Hlt|Hge].
  - (* the left-hand side shifts left too *)
    assert (shl_align (Nat.iter k xO p) (- Z.of_nat k) (D - 24)
            = (Nat.iter (Z.to_nat (24 - D)) xO p, D - 24)) as ->; [|done].
    unfold shl_align.
    destruct (D - 24 - - Z.of_nat k) as [|d|d] eqn:Hd'; [lia|lia|].
    rewrite pos_iter_nat, <- Nat.iter_add. do 3 f_equal. lia.
  - (* the left-hand side is shifted right by the rounding *)
    assert (shl_align (Nat.iter k xO p) (- Z.of_nat k) (D - 24)
            = (Nat.iter k xO p, - Z.of_nat k)) as ->.
    { unfold shl_align.
      destruct (D - 24 - - Z.of_nat k) as [|d|d] eqn:Hd'; [done|done|lia]. }
    unfold binary_round_aux.
    assert (shr_fexp 24 128 (Zpos (Nat.iter k xO p)) (- Z.of_nat k) loc_Exact
            = shr_fexp 24 128 (Zpos (Nat.iter (Z.to_nat (24 - D)) xO p)) (D - 24)
                loc_Exact) as ->; [|done].
    unfold shr_fexp. simpl Zdigits2. rewrite !digits2_pos_iter_xO. fold D.
    replace (D + Z.of_nat k + - Z.of_nat k) with (D + 0) by lia.
    replace (D + Z.of_nat (Z.to_nat (24 - D)) + (D - 24)) with (D + 0) by lia.
    assert (fexp 24 128 (D + 0) = D - 24) as ->
      by (unfold fexp, emin; lia).
    replace (D - 24 - (D - 24)) with 0 by lia.
    unfold shr at 2. simpl shr_record_of_loc.
    unfold shr. destruct (D - 24 - - Z.of_nat k) as [|d|d] eqn:Hd'; [| |lia].
    + f_equal; [|lia]. do 2 f_equal. f_equal. lia.
    + rewrite iter_pos_nat.
      assert (Nat.iter k xO p
              = Nat.iter (Pos.to_nat d) xO (Nat.iter (Z.to_nat (24 - D)) xO p)) as ->
        by (rewrite <- Nat.iter_add; f_equal; lia).
      rewrite shr_1_iter_xO. f_equal. lia.
Qed.

(** ** Numbers the formats hold exactly *)

Lemma digits2_pos_bounds (p : positive) :
  2 ^ (Zpos (digits2_pos p) - 1) <= Zpos p < 2 ^ Zpos (digits2_pos p).
Proof.
  induction p as [p IH|p IH|]; simpl digits2_pos; [| |simpl; lia].
  - rewrite Pos2Z.inj_succ. change (Zpos p~1) with (2 * Zpos p + 1).
    replace (Z.succ (Zpos (digits2_pos p)) - 1) with (Z.succ (Zpos (digits2_pos p) - 1)) by lia.
    rewrite !Z.pow_succ_r by lia. lia.
  - rewrite Pos2Z.inj_succ. change (Zpos p~0) with (2 * Zpos p).
    replace (Z.succ (Zpos (digits2_pos p)) - 1) with (Z.succ (Zpos (digits2_pos p) - 1)) by lia.
    rewrite !Z.pow_succ_r by lia. lia.
Qed.

Lemma digits2_pos_le (p : positive) (n : Z) :
  Zpos p < 2 ^ n -> Zpos (digits2_pos p) <= n.
Proof.
  intros Hp. destruct (digits2_pos_bounds p) as [Hlo _].
  destruct (decide (Zpos (digits2_pos p) <= n)) as [|Hgt]; [done|].
  assert (0 <= n) by (destruct n; [lia..|by rewrite Z.pow_neg_r in Hp by lia]).
  assert (2 ^ n <= 2 ^ (Zpos (digits2_pos p) - 1)) by (apply Z.pow_le_mono_r; lia).
  lia.
Qed.

(** A mantissa of [prec] bits followed by [n] zero bits, with an exponent
    [n] below [e], rounds to the mantissa with the exponent [e]. *)
Lemma binary_round_aux_exact (prec emax : Z) (s : bool) (m : positive) (e : Z) (n : nat) :
  Zpos (digits2_pos m) = prec ->
  emin prec emax <= e <= emax - prec ->
  binary_round_aux prec emax s (Zpos (Nat.iter n xO m)) (e - Z.of_nat n) loc_Exact
  = S754_finite s m e.
Proof.
  intros Hd He. unfold binary_round_aux.
  assert (shr_fexp prec emax (Zpos (Nat.iter n xO m)) (e - Z.of_nat n) loc_Exact
          = ({| shr_m := Zpos m; shr_r := false; shr_s := false |}, e)) as ->.
  { unfold shr_fexp. simpl Zdigits2. rewrite digits2_pos_iter_xO, Hd.
    replace (prec + Z.of_nat n + (e - Z.of_nat n)) with (prec + e) by lia.
    assert (fexp prec emax (prec + e) = e) as -> by (unfold fexp; lia).
    simpl shr_record_of_loc. unfold shr.
    destruct (e - (e - Z.of_nat n)) as [|d|d] eqn:Hn; [| |lia].
    - assert (n = 0%nat) as -> by lia. simpl. f_equal. lia.
    - rewrite iter_pos_nat. replace (Pos.to_nat d) with n by lia.
      rewrite shr_1_iter_xO. f_equal. lia. }
  simpl loc_of_shr_record. simpl round_nearest_even. cbn [shr_m].
  assert (shr_fexp prec emax (Zpos m) e loc_Exact
          = ({| shr_m := Zpos m; shr_r := false; shr_s := false |}, e)) as ->.
  { unfold shr_fexp. simpl Zdigits2. rewrite Hd.
    assert (fexp prec emax (prec + e) = e) as -> by (unfold fexp; lia).
    by rewrite Z.sub_diag. }
  cbn [shr_m]. by rewrite (proj2 (Z.leb_le _ _)) by lia.
Qed.

(** A positive integer of at most [prec] bits with an exponent in range
    is held exactly: the mantissa is filled to [prec] bits. *)
Lemma binary_round_exact (prec emax : Z) (s : bool) (p : positive) (e : Z) :
  let D := Zpos (digits2_pos p) in
  D <= prec ->
  emin prec emax <= D + e - prec <= emax - prec ->
  binary_round prec emax s p e
  = S754_finite s (Nat.iter (Z.to_nat (prec - D)) xO p) (D + e - prec).
Proof.
  intros D HD He. unfold binary_round. fold D.
  assert (fexp prec emax (D + e) = D + e - prec) as -> by (unfold fexp; lia).
  assert (shl_align p e (D + e - prec)
          = (Nat.iter (Z.to_nat (prec - D)) xO p, D + e - prec)) as ->.
  { unfold shl_align. destruct (D + e - prec - e) as [|d|d] eqn:Hd; [|lia|].
    - replace (Z.to_nat (prec - D)) with 0%nat by lia. simpl. f_equal. lia.
    - rewrite pos_iter_nat. do 3 f_equal. lia. }
  pose proof (binary_round_aux_exact prec emax s
                (Nat.iter (Z.to_nat (prec - D)) xO p) (D + e - prec) 0) as Hexact.
  simpl Nat.iter in Hexact. rewrite Z.sub_0_r in Hexact. apply Hexact; [|done].
  rewrite digits2_pos_iter_xO. fold D. lia.
Qed.

Lemma div_eucl_exact (a b q : Z) :
  0 < b -> a = q * b -> Z.div_eucl a b = (q, 0).
Proof.
  intros Hb ->. pose proof (Z.div_mul q b ltac:(lia)) as Hq.
  pose proof (Z.mod_mul q b ltac:(lia)) as Hr.
  unfold Z.div, Z.modulo in Hq, Hr.
  destruct (Z.div_eucl (q * b) b) as [q' r']. by subst.
Qed.

(** Widening a [float] of 24 bits appends 29 zero bits. *)
Lemma float_to_double_exact (m : positive) (e : Z) :
  Zpos (digits2_pos m) = 24 -> -1045 <= e <= 1000 ->
  float_to_double (S754_finite false m e)
  = S754_finite false (Nat.iter 29 xO m) (e - 29).
Proof.
  intros Hd He. unfold float_to_double, convert.
  rewrite (binary_round_exact F64.prec F64.emax false m e)
    by (rewrite Hd; unfold emin, F64.prec, F64.emax; lia).
  rewrite Hd. f_equal. unfold F64.prec. lia.
Qed.

(** Dividing a [double] of 53 bits by 2 lowers its exponent. *)
Lemma div_two_exact (s : bool) (M : positive) (E : Z) :
  Zpos (digits2_pos M) = 53 -> -1072 <= E <= 972 ->
  F64.div (S754_finite s M E) (F64.of_Z 2) = S754_finite s M (E - 1).
Proof.
  intros HM HE.
  change (F64.of_Z 2) with (S754_finite false 4503599627370496 (-51)).
  unfold F64.div, SFdiv, SFdiv_core_binary.
  change (Zdigits2 (Zpos M)) with (Zpos (digits2_pos M)). rewrite HM.
  change (Zdigits2 4503599627370496) with 53.
  replace (53 + E - (53 + -51)) with (E + 51) by lia.
  assert (fexp F64.prec F64.emax (E + 51) = E - 2) as ->
    by (unfold fexp, emin, F64.prec, F64.emax; lia).
  replace (Z.min (E - 2) (E - -51)) with (E - 2) by lia.
  replace (E - -51 - (E - 2)) with 53 by lia.
  rewrite (div_eucl_exact (Z.shiftl (Zpos M) 53) 4503599627370496 (Zpos (xO M)))
    by (rewrite ?Z.shiftl_mul_pow2; lia).
  change (new_location 4503599627370496 0) with loc_Exact.
  rewrite xorb_false_r.
  pose proof (binary_round_aux_exact F64.prec F64.emax s M (E - 1) 1 HM) as Hdiv.
  change (Nat.iter 1 xO M) with (xO M) in Hdiv.
  replace (E - 1 - Z.of_nat 1) with (E - 2) in Hdiv by lia.
  apply Hdiv. unfold emin, F64.prec, F64.emax. lia.
Qed.

(** Narrowing a [double] whose last 29 bits are zero drops them. *)
Lemma double_to_float_exact (m : positive) (E : Z) :
  Zpos (digits2_pos m) = 24 -> -178 <= E <= 75 ->
  double_to_float (S754_finite false (Nat.iter 29 xO m) E)
  = S754_finite false m (E + 29).
Proof.
  intros Hd HE. unfold double_to_float, convert, binary_round.
  rewrite digits2_pos_iter_xO, Hd.
  assert (fexp F32.prec F32.emax (24 + Z.of_nat 29 + E) = E + 29) as ->
    by (unfold fexp, emin, F32.prec, F32.emax; lia).
  assert (shl_align (Nat.iter 29 xO m) E (E + 29) = (Nat.iter 29 xO m, E)) as ->.
  { unfold shl_align. by destruct (E + 29 - E) as [|d|d] eqn:Hn; [..|lia]. }
  pose proof (binary_round_aux_exact F32.prec F32.emax false m (E + 29) 29 Hd) as Hn.
  replace (E + 29 - Z.of_nat 29) with E in Hn by lia.
  apply Hn. unfold emin, F32.prec, F32.emax. lia.
Qed.

(** Halving a [float] of 24 bits goes through [double] and back without
    loss: the exponent drops by one. *)
Lemma halve_exact (m : positive) (e : Z) :
  Zpos (digits2_pos m) = 24 -> -148 <= e <= 105 ->
  halve (S754_finite false m e) = S754_finite false m (e - 1).
Proof.
  intros Hd He. unfold halve.
  rewrite float_to_double_exact by (done || lia).
  rewrite div_two_exact
    by (rewrite ?digits2_pos_iter_xO, ?Hd; (done || lia)).
  rewrite double_to_float_exact by (done || lia).
  f_equal. lia.
Qed.

(** ** Integers as [float]s *)

(** A positive integer below [2^24] converts without rounding: its bits,
    shifted left to fill the 24 of the format. *)
Lemma of_Z_pos_exact (k : positive) :
  Zpos k < 2 ^ 24 ->
  F32.of_Z (Zpos k)
  = S754_finite false (Nat.iter (Z.to_nat (24 - Zpos (digits2_pos k))) xO k)
      (Zpos (digits2_pos k) - 24).
Proof.
  intros Hk. pose proof (digits2_pos_le k 24 Hk) as HD.
  unfold F32.of_Z, binary_normalize.
  rewrite (binary_round_exact F32.prec F32.emax false k 0)
    by (unfold emin, F32.prec, F32.emax; lia).
  unfold F32.prec. f_equal; lia.
Qed.

Lemma of_Z_pos_units (k : positive) (c : Z) :
  Zpos k < 2 ^ 24 -> 23 <= c ->
  exists m e,
    F32.of_Z (Zpos k) = S754_finite false m e /\
    Zpos (digits2_pos m) = 24 /\ -23 <= e <= 0 /\
    in_units c m e = Zpos k * 2 ^ c.
Proof.
  intros Hk Hc. pose proof (digits2_pos_le k 24 Hk) as HD.
  set (D := Zpos (digits2_pos k)) in *.
  assert (0 < D) by (unfold D; lia).
  exists (Nat.iter (Z.to_nat (24 - D)) xO k), (D - 24).
  split; [by apply of_Z_pos_exact|].
  split; [rewrite digits2_pos_iter_xO; fold D; lia|].
  split; [lia|].
  unfold in_units. rewrite Zpos_iter_xO, <- Z.mul_assoc, <- Z.pow_add_r by lia.
  do 2 f_equal. lia.
Qed.

(** The sum of two integers as [float]s is their sum as a [float], as
    long as it has fewer than 24 bits: [float] addition does not round
    it. *)
Lemma add_of_Z (i j : Z) :
  0 <= i -> 0 <= j -> i + j < 2 ^ 23 ->
  F32.add (F32.of_Z i) (F32.of_Z j) = F32.of_Z (i + j).
Proof.
  intros Hi Hj Hsum.
  destruct i as [|i|i]; [|clear Hi|lia]; (destruct j as [|j|j]; [|clear Hj|lia]).
  - reflexivity.
  - change (0 + Zpos j) with (Zpos j). rewrite of_Z_pos_exact by lia. reflexivity.
  - rewrite Z.add_0_r. rewrite of_Z_pos_exact by lia. reflexivity.
  - assert (Zpos i < 2 ^ 24 /\ Zpos j < 2 ^ 24) as [Hi Hj] by lia.
    pose proof (digits2_pos_le i 24 Hi) as HDi.
    pose proof (digits2_pos_le j 24 Hj) as HDj.
    rewrite (of_Z_pos_exact i Hi), (of_Z_pos_exact j Hj).
    set (Di := Zpos (digits2_pos i)) in *. set (Dj := Zpos (digits2_pos j)) in *.
    assert (0 < Di /\ 0 < Dj) as [? ?] by (unfold Di, Dj; lia).
    unfold F32.add, SFadd. cbn [cond_Zopp].
    set (ez := Z.min (Di - 24) (Dj - 24)).
    assert (forall (k : positive) (D : Z), 0 < D <= 24 -> ez <= D - 24 ->
              Zpos (fst (shl_align (Nat.iter (Z.to_nat (24 - D)) xO k) (D - 24) ez))
              = Zpos k * 2 ^ (- ez)) as Halign.
    { intros k D HD Hez. unfold shl_align.
      destruct (ez - (D - 24)) as [|d|d] eqn:Hd; cbn [fst]; [|lia|].
      - rewrite Zpos_iter_xO. do 2 f_equal. lia.
      - unfold shift_pos. rewrite pos_iter_nat, <- Nat.iter_add, Zpos_iter_xO.
        do 2 f_equal. lia. }
    rewrite (Halign i Di), (Halign j Dj) by (unfold ez; lia).
    replace (Zpos i * 2 ^ (- ez) + Zpos j * 2 ^ (- ez))
      with (Zpos (Nat.iter (Z.to_nat (- ez)) xO (i + j)%positive))
      by (rewrite Zpos_iter_xO, Z2Nat.id by (unfold ez; lia); lia).
    unfold binary_normalize, F32.of_Z. simpl Z.add.
    replace ez with (- Z.of_nat (Z.to_nat (- ez))) at 2 by (unfold ez; lia).
    apply binary_round_shifted.
    assert (Zpos (digits2_pos (i + j)) <= 23); [|lia].
    apply digits2_pos_le. lia.
Qed.

(** ** The order of positive [float]s *)

(** Two positive [float]s of 24 bits compare as their values do. *)
Lemma leb_in_units (c : Z) (m1 : positive) (e1 : Z) (m2 : positive) (e2 : Z) :
  Zpos (digits2_pos m1) = 24 -> Zpos (digits2_pos m2) = 24 ->
  0 <= e1 + c -> 0 <= e2 + c ->
  f32_le (S754_finite false m1 e1) (S754_finite false m2 e2)
  <-> in_units c m1 e1 <= in_units c m2 e2.
Proof.
  intros H1 H2 Hc1 Hc2.
  pose proof (digits2_pos_bounds m1) as B1. rewrite H1 in B1.
  pose proof (digits2_pos_bounds m2) as B2. rewrite H2 in B2.
  change (2 ^ (24 - 1)) with 8388608 in *. change (2 ^ 24) with 16777216 in *.
  unfold f32_le, F32.leb, SFleb, SFcompare, in_units.
  destruct (Z.compare_spec e1 e2) as [->|Hlt|Hgt].
  - change (Pos.compare_cont Eq m1 m2) with (m1 ?= m2)%positive.
    assert (0 < 2 ^ (e2 + c)) by (apply Z.pow_pos_nonneg; lia).
    destruct (Pos.compare_spec m1 m2) as [->|?|?]; split; try done; nia.
  - replace (e2 + c) with ((e2 - e1) + (e1 + c)) by lia.
    rewrite (Z.pow_add_r 2 (e2 - e1) (e1 + c)) by lia.
    assert (0 < 2 ^ (e1 + c)) by (apply Z.pow_pos_nonneg; lia).
    assert (2 ^ 1 <= 2 ^ (e2 - e1)) by (apply Z.pow_le_mono_r; lia).
    change (2 ^ 1) with 2 in *. split; [|done]. intros _.
    rewrite Z.mul_assoc. apply Z.mul_le_mono_nonneg_r; [lia|nia].
  - replace (e1 + c) with ((e1 - e2) + (e2 + c)) by lia.
    rewrite (Z.pow_add_r 2 (e1 - e2) (e2 + c)) by lia.
    assert (0 < 2 ^ (e2 + c)) by (apply Z.pow_pos_nonneg; lia).
    assert (2 ^ 1 <= 2 ^ (e1 - e2)) by (apply Z.pow_le_mono_r; lia).
    change (2 ^ 1) with 2 in *. split; [done|]. intros Hle.
    rewrite Z.mul_assoc in Hle. apply Z.mul_le_mono_pos_r in Hle; [nia|lia].
Qed.

(** Integers as [float]s are ordered as the integers. *)
Lemma of_Z_le (i j : Z) :
  0 <= i < 2 ^ 24 -> 0 <= j < 2 ^ 24 ->
  f32_le (F32.of_Z i) (F32.of_Z j) <-> i <= j.
Proof.
  intros Hi Hj.
  destruct i as [|i|i]; [| |lia]; (destruct j as [|j|j]; [| |lia]).
  - done.
  - rewrite of_Z_pos_exact by lia. done.
  - rewrite of_Z_pos_exact by lia. split; [done|lia].
  - destruct (of_Z_pos_units i 24) as (mi & ei & -> & Hdi & Hei & Hui); [lia..|].
    destruct (of_Z_pos_units j 24) as (mj & ej & -> & Hdj & Hej & Huj); [lia..|].
    rewrite (leb_in_units 24) by (done || lia). rewrite Hui, Huj. lia.
Qed.

(** ** The median of sensor values *)

(** The average of two integers as [float]s, their sum below [2^23], is
    not rounded and lies between them. *)
Lemma average_of_Z_between (i j : Z) :
  0 <= i -> i <= j -> i + j < 2 ^ 23 ->
  average_between (F32.of_Z i) (F32.of_Z j).
Proof.
  intros Hi Hij Hsum. unfold average_between, average.
  rewrite add_of_Z by lia. fold (halve (F32.of_Z (i + j))).
  destruct (decide (j = 0)) as [->|Hj].
  { assert (i = 0) as -> by lia. by vm_compute. }
  destruct (i + j) as [|s|s] eqn:Hs; [lia| |lia].
  destruct (of_Z_pos_units s 24) as (m & e & -> & Hd & He & Hu); [lia..|].
  rewrite halve_exact by (done || lia).
  assert (in_units 25 m (e - 1) = Zpos s * 2 ^ 24) as Hhalf
    by (rewrite <- Hu; unfold in_units; do 2 f_equal; lia).
  destruct j as [|j|j]; [done| |lia].
  destruct (of_Z_pos_units j 25) as (mj & ej & -> & Hdj & Hej & Huj); [lia..|].
  split.
  - destruct i as [|i|i]; [done| |lia].
    destruct (of_Z_pos_units i 25) as (mi & ei & -> & Hdi & Hei & Hui); [lia..|].
    rewrite (leb_in_units 25) by (done || lia). rewrite Hui, Hhalf.
    change (2 ^ 25) with (2 * 2 ^ 24). lia.
  - rewrite (leb_in_units 25) by (done || lia). rewrite Huj, Hhalf.
    change (2 ^ 25) with (2 * 2 ^ 24). lia.
Qed.

(** ** Rounding to nearest *)

Lemma pow2_pos (n : Z) : 0 <= n -> 0 < 2 ^ n.
Proof. intros Hn. by apply Z.pow_pos_nonneg. Qed.

Lemma pow2_le (a b : Z) : 0 <= a <= b -> 2 ^ a <= 2 ^ b.
Proof. intros Hab. apply Z.pow_le_mono_r; lia. Qed.

Lemma pow2_add (a b : Z) : 0 <= a -> 0 <= b -> 2 ^ (a + b) = 2 ^ a * 2 ^ b.
Proof. intros Ha Hb. by apply Z.pow_add_r. Qed.

Lemma Zdigits2_pos (k : Z) : 0 < k -> 2 ^ (Zdigits2 k - 1) <= k < 2 ^ Zdigits2 k.
Proof. destruct k as [|p|p]; [lia| |lia]. intros _. apply digits2_pos_bounds. Qed.

Lemma Zdigits2_lower (k j : Z) : 0 <= j -> 2 ^ j <= k -> j < Zdigits2 k.
Proof.
  intros Hj Hk. pose proof (pow2_pos j Hj).
  destruct (Zdigits2_pos k ltac:(lia)) as [_ Hhi].
  destruct (decide (j < Zdigits2 k)) as [|Hge]; [done|].
  assert (0 <= Zdigits2 k) by (destruct k; simpl; lia).
  pose proof (pow2_le (Zdigits2 k) j ltac:(lia)). lia.
Qed.

Lemma Zdigits2_upper (k j : Z) : 0 < k -> k < 2 ^ j -> Zdigits2 k <= j.
Proof. destruct k as [|p|p]; [lia| |lia]. intros _. apply digits2_pos_le. Qed.

(** One step of the shift: the mantissa is halved, the round bit is the
    bit shifted out and the sticky bit remembers the earlier ones. *)
Lemma shr_1_spec (mrs : shr_record) :
  0 <= shr_m mrs ->
  shr_m (shr_1 mrs) = shr_m mrs / 2 /\
  shr_r (shr_1 mrs) = Z.odd (shr_m mrs) /\
  shr_s (shr_1 mrs) = shr_r mrs || shr_s mrs.
Proof.
  destruct mrs as [m r s]. cbn [shr_m shr_r shr_s]. intros Hm.
  rewrite <- Z.div2_div.
  destruct m as [|[p|p|]|p]; [done..|lia].
Qed.

Lemma shr_iter_spec (N : nat) (m : Z) :
  0 <= m ->
  let mrs := Nat.iter N shr_1 {| shr_m := m; shr_r := false; shr_s := false |} in
  shr_m mrs = m / 2 ^ Z.of_nat N /\
  (m mod 2 ^ Z.of_nat N = 0 -> shr_r mrs = false /\ shr_s mrs = false).
Proof.
  intros Hm. cbv zeta. induction N as [|N [IHm IHe]].
  - cbn. rewrite Z.div_1_r. done.
  - rewrite Nat.iter_succ. set (mrs := Nat.iter N shr_1 _) in *.
    pose proof (pow2_pos (Z.of_nat N) ltac:(lia)) as Hpow.
    assert (0 <= shr_m mrs) as Hpos by (rewrite IHm; apply Z.div_pos; lia).
    destruct (shr_1_spec mrs Hpos) as (-> & -> & ->).
    rewrite Nat2Z.inj_succ, Z.pow_succ_r by lia. split.
    + rewrite IHm, Z.div_div by lia. f_equal. lia.
    + intros Hex.
      assert (m = 2 ^ Z.of_nat N * (2 * (m / (2 * 2 ^ Z.of_nat N)))) as Heq.
      { pose proof (Z.div_mod m (2 * 2 ^ Z.of_nat N) ltac:(lia)). lia. }
      set (j := m / (2 * 2 ^ Z.of_nat N)) in *.
      assert (m mod 2 ^ Z.of_nat N = 0) as Hex'
        by (rewrite Heq, Z.mul_comm; apply Z.mod_mul; lia).
      destruct (IHe Hex') as [-> ->]. split; [|done].
      rewrite IHm, Heq, Z.mul_comm, Z.div_mul by lia.
      by rewrite Z.odd_mul.
Qed.

Lemma round_nearest_even_spec (mrs : shr_record) :
  shr_m mrs <= round_nearest_even (shr_m mrs) (loc_of_shr_record mrs) <= shr_m mrs + 1 /\
  (shr_r mrs = false -> shr_s mrs = false ->
   round_nearest_even (shr_m mrs) (loc_of_shr_record mrs) = shr_m mrs).
Proof.
  destruct mrs as [q [] []]; cbn; try destruct (Z.even q); split; (done || lia).
Qed.

Section Rounding.
Variables prec emax : Z.
Hypothesis prec_pos : 0 < prec.

Lemma fexp_ge_emin (x : Z) : emin prec emax <= fexp prec emax x.
Proof. unfold fexp. lia. Qed.

Lemma canonical_facts (m : positive) (e : Z) :
  canonical_mantissa prec emax m e = true ->
  emin prec emax <= e /\ Zpos (digits2_pos m) <= prec /\
  (emin prec emax < e -> Zpos (digits2_pos m) = prec).
Proof. unfold canonical_mantissa, fexp. intros Hc%Z.eqb_eq. lia. Qed.

(** The first shift of [binary_round_aux]: the mantissa loses its
    [t - e] low bits, and the round and sticky bits stay clear when these
    bits are zero. *)
Lemma shr_fexp_spec (m : positive) (e : Z) :
  let t := fexp prec emax (Zpos (digits2_pos m) + e) in
  e <= t ->
  exists mrs,
    shr_fexp prec emax (Zpos m) e loc_Exact = (mrs, t) /\
    shr_m mrs = Zpos m / 2 ^ (t - e) /\
    (Zpos m mod 2 ^ (t - e) = 0 -> shr_r mrs = false /\ shr_s mrs = false).
Proof.
  intros t Het. unfold shr_fexp, shr. cbn [Zdigits2 shr_record_of_loc]. fold t.
  destruct (t - e) as [|n|n] eqn:Hn; [| |lia].
  - eexists. split; [f_equal; lia|]. cbn [shr_m shr_r shr_s].
    by rewrite Z.div_1_r.
  - rewrite iter_pos_nat.
    destruct (shr_iter_spec (Pos.to_nat n) (Zpos m) ltac:(lia)) as [Hm Hex].
    rewrite positive_nat_Z in Hm, Hex.
    eexists. split; [f_equal; lia|]. done.
Qed.

(** [binary_round_aux] on an exact mantissa [m] whose exponent [e] is not
    above the one of the format, [t]: the mantissa is cut to
    [q = m / 2^(t - e)] and rounded to [q] or [q + 1], to [q] when nothing
    is cut off; the result is in canonical form. *)
Lemma binary_round_aux_spec (s : bool) (m : positive) (e : Z) :
  let t := fexp prec emax (Zpos (digits2_pos m) + e) in
  let q := Zpos m / 2 ^ (t - e) in
  e <= t ->
  exists k e1,
    binary_round_aux prec emax s (Zpos m) e loc_Exact
      = round_result prec emax s k e1 /\
    0 <= k /\ t <= e1 /\
    (0 < k -> fexp prec emax (Zdigits2 k + e1) = e1) /\
    q <= k * 2 ^ (e1 - t) <= q + 1 /\
    (Zpos m mod 2 ^ (t - e) = 0 -> k * 2 ^ (e1 - t) = q) /\
    (emin prec emax < t -> 2 ^ (prec - 1) <= q).
Proof.
  intros t q Het.
  set (d := Zpos (digits2_pos m)) in *.
  pose proof (digits2_pos_bounds m) as [Hmlo Hmhi]. fold d in Hmlo, Hmhi.
  pose proof (fexp_ge_emin (d + e)) as Hemin. fold t in Hemin.
  assert (d + e - prec <= t) as Ht by (unfold t, fexp; lia).
  pose proof (pow2_pos (t - e) ltac:(lia)) as Hn.
  assert (0 <= q) as Hq0 by (apply Z.div_pos; lia).
  assert (q < 2 ^ prec) as Hqhi.
  { apply Z.div_lt_upper_bound; [lia|].
    rewrite <- pow2_add by lia.
    pose proof (pow2_le d (t - e + prec) ltac:(lia)). lia. }
  assert (emin prec emax < t -> 2 ^ (prec - 1) <= q) as Hqlo.
  { intros Hnorm. assert (t = d + e - prec) as Heq by (unfold t, fexp in *; lia).
    apply Z.div_le_lower_bound; [lia|].
    rewrite <- pow2_add by lia.
    replace (t - e + (prec - 1)) with (d - 1) by lia. done. }
  destruct (shr_fexp_spec m e Het) as (mrs & Hshift & Hm & Hex).
  fold d t in Hshift, Hm, Hex. fold q in Hm.
  unfold binary_round_aux. rewrite Hshift.
  destruct (round_nearest_even_spec mrs) as [Hk1 Hk1ex].
  set (k1 := round_nearest_even (shr_m mrs) (loc_of_shr_record mrs)) in *.
  rewrite Hm in Hk1, Hk1ex.
  unfold shr_fexp, shr. cbn [shr_record_of_loc].
  destruct (fexp prec emax (Zdigits2 k1 + t) - t) as [|n1|n1] eqn:Hn1.
  1,3: exists k1, t; cbn [shr_m]; split; [done|];
       rewrite Z.sub_diag, Z.mul_1_r;
       split; [lia|]; split; [lia|]; split; [|split; [lia|split; [|done]]].
  1,3: intros Hpos;
       destruct (decide (emin prec emax < t)) as [Hnorm|Hsub];
         [|pose proof (fexp_ge_emin (Zdigits2 k1 + t)); lia];
       pose proof (Zdigits2_lower k1 (prec - 1) ltac:(lia) ltac:(specialize (Hqlo Hnorm); lia));
       unfold fexp in *; lia.
  1,2: intros Hz; destruct (Hex Hz) as [Hr Hs]; by apply Hk1ex.
  (* the rounding has carried into a new bit *)
  assert (0 < k1) as Hpos.
  { destruct (decide (0 < k1)) as [|Hz]; [done|].
    assert (k1 = 0) as Hk0 by lia. rewrite Hk0 in Hn1. cbn [Zdigits2] in Hn1.
    unfold fexp in Hn1. lia. }
  assert (Zdigits2 k1 <= prec + 1) as Hd1.
  { apply Zdigits2_upper; [done|]. rewrite Z.pow_add_r by lia. lia. }
  assert (Zdigits2 k1 = prec + 1) as Hd1' by (unfold fexp in Hn1; lia).
  assert (fexp prec emax (Zdigits2 k1 + t) = t + 1) as Hf
    by (unfold fexp in *; lia).
  assert (n1 = 1%positive) as -> by lia.
  assert (k1 = 2 ^ prec) as Hk1eq.
  { destruct (Zdigits2_pos k1 Hpos) as [Hlo _]. rewrite Hd1' in Hlo.
    replace (prec + 1 - 1) with prec in Hlo by lia. lia. }
  cbn [iter_pos].
  destruct (shr_1_spec {| shr_m := k1; shr_r := false; shr_s := false |})
    as (Hhalf & _); [cbn; lia|]. cbn [shr_m] in Hhalf.
  assert (k1 / 2 = 2 ^ (prec - 1)) as Hhalf'.
  { rewrite Hk1eq. replace prec with (Z.succ (prec - 1)) at 1 by lia.
    rewrite Z.pow_succ_r by lia. rewrite Z.mul_comm, Z.div_mul by lia. done. }
  exists (k1 / 2), (t + 1). rewrite <- Hhalf. split; [done|]. rewrite Hhalf, Hhalf'.
  pose proof (pow2_pos (prec - 1) ltac:(lia)) as Hp1.
  assert (2 ^ (prec - 1) * 2 ^ (t + 1 - t) = k1) as Hval.
  { replace (t + 1 - t) with 1 by lia. rewrite Hk1eq.
    replace prec with (Z.succ (prec - 1)) at 2 by lia.
    rewrite Z.pow_succ_r by lia. lia. }
  split; [lia|]. split; [lia|]. split; [|split; [lia|split; [|done]]].
  - intros _.
    assert (Zdigits2 (2 ^ (prec - 1)) = prec) as ->.
    { pose proof (Zdigits2_lower (2 ^ (prec - 1)) (prec - 1) ltac:(lia) ltac:(lia)).
      pose proof (Zdigits2_upper (2 ^ (prec - 1)) prec Hp1
                    ltac:(apply Z.pow_lt_mono_r; lia)). lia. }
    unfold fexp in *. lia.
  - intros Hz. destruct (Hex Hz) as [Hr Hs]. specialize (Hk1ex Hr Hs). lia.
Qed.
End Rounding.

Section Brackets.
Variables prec emax : Z.
Hypothesis prec_pos : 0 < prec.

(** A canonical number is on the grid of every exponent [t] not above its
    own, and below [2^(prec - 1)] grid steps otherwise. *)
Lemma canonical_grid (mr : positive) (er t c : Z) :
  canonical_mantissa prec emax mr er = true -> 0 <= er + c -> 0 <= t + c ->
  (t <= er /\ in_units c mr er = Zpos mr * 2 ^ (er - t) * 2 ^ (t + c)) \/
  (er < t /\ emin prec emax < t /\ in_units c mr er < 2 ^ (prec - 1) * 2 ^ (t + c)).
Proof.
  intros Hcan Her Ht. unfold in_units.
  destruct (canonical_facts prec emax mr er Hcan) as (Hemin & Hd & _).
  destruct (decide (t <= er)) as [Hle|Hlt].
  - left. split; [done|]. rewrite <- Z.mul_assoc, <- pow2_add by lia.
    do 2 f_equal. lia.
  - right. split; [lia|]. split; [lia|].
    destruct (digits2_pos_bounds mr) as [_ Hhi].
    pose proof (pow2_le (Zpos (digits2_pos mr)) prec ltac:(lia)).
    pose proof (pow2_pos (er + c) Her).
    assert (Zpos mr * 2 ^ (er + c) < 2 ^ prec * 2 ^ (er + c)) as Hlt'
      by (apply Z.mul_lt_mono_pos_r; lia).
    rewrite <- pow2_add in * by lia.
    pose proof (pow2_le (prec + (er + c)) (prec - 1 + (t + c)) ltac:(lia)). lia.
Qed.

(** [binary_round_aux] neither passes a canonical number below its
    argument nor one above: the result, in units of [2^-c], stays on the
    same side of both. *)
Lemma binary_round_aux_between (s : bool) (m : positive) (e c : Z) :
  e <= fexp prec emax (Zpos (digits2_pos m) + e) -> 0 <= e + c ->
  exists k e1,
    binary_round_aux prec emax s (Zpos m) e loc_Exact
      = round_result prec emax s k e1 /\
    0 <= k /\ 0 <= e1 + c /\
    (0 < k -> fexp prec emax (Zdigits2 k + e1) = e1) /\
    (forall mr er, canonical_mantissa prec emax mr er = true -> 0 <= er + c ->
       in_units c mr er <= in_units c m e ->
       in_units c mr er <= k * 2 ^ (e1 + c)) /\
    (forall mr er, canonical_mantissa prec emax mr er = true -> 0 <= er + c ->
       in_units c m e <= in_units c mr er ->
       k * 2 ^ (e1 + c) <= in_units c mr er).
Proof.
  intros Het Hec.
  destruct (binary_round_aux_spec prec emax prec_pos s m e Het)
    as (k & e1 & Hres & Hk & Hte1 & Hcan & Hw & Hex & Hqlo).
  set (t := fexp prec emax (Zpos (digits2_pos m) + e)) in *.
  set (q := Zpos m / 2 ^ (t - e)) in *.
  set (w := k * 2 ^ (e1 - t)) in *.
  set (u := 2 ^ (t + c)).
  assert (0 < u) as Hu by (apply pow2_pos; lia).
  pose proof (pow2_pos (t - e) ltac:(lia)) as Hn.
  pose proof (pow2_pos (e + c) Hec) as Hpc.
  assert (u = 2 ^ (t - e) * 2 ^ (e + c)) as Hu'
    by (unfold u; rewrite <- pow2_add by lia; f_equal; lia).
  assert (k * 2 ^ (e1 + c) = w * u) as HV.
  { unfold w, u. rewrite <- Z.mul_assoc, <- pow2_add by lia. do 2 f_equal. lia. }
  assert (q * u <= in_units c m e < (q + 1) * u) as HX.
  { unfold in_units. rewrite Hu'.
    pose proof (Z.mul_div_le (Zpos m) (2 ^ (t - e)) Hn).
    pose proof (Z.mul_succ_div_gt (Zpos m) (2 ^ (t - e)) Hn).
    fold q in H, H0. split.
    - rewrite Z.mul_assoc. apply Z.mul_le_mono_nonneg_r; lia.
    - rewrite Z.mul_assoc. apply Z.mul_lt_mono_pos_r; lia. }
  assert (Zpos m mod 2 ^ (t - e) = 0 -> in_units c m e = q * u) as HXex.
  { intros Hz. unfold in_units. rewrite Hu', Z.mul_assoc. f_equal.
    pose proof (Z.div_mod (Zpos m) (2 ^ (t - e)) ltac:(lia)). fold q in H. lia. }
  assert (Zpos m mod 2 ^ (t - e) <> 0 -> q * u < in_units c m e) as HXin.
  { intros Hz. unfold in_units. rewrite Hu', Z.mul_assoc.
    apply Z.mul_lt_mono_pos_r; [lia|].
    pose proof (Z.div_mod (Zpos m) (2 ^ (t - e)) ltac:(lia)). fold q in H.
    pose proof (Z.mod_pos_bound (Zpos m) (2 ^ (t - e)) Hn). lia. }
  exists k, e1. split; [done|]. split; [done|]. split; [lia|]. split; [done|].
  rewrite HV. split.
  - intros mr er Hc Her HR.
    destruct (canonical_grid mr er t c Hc Her ltac:(lia))
      as [(_ & Heq)|(_ & Hnorm & Hsmall)].
    + rewrite Heq in *. set (j := Zpos mr * 2 ^ (er - t)) in *. fold u in HR |- *.
      apply Z.mul_le_mono_nonneg_r; [lia|].
      assert (j < q + 1); [|lia].
      apply (Z.mul_lt_mono_pos_r u); lia.
    + fold u in Hsmall. specialize (Hqlo Hnorm).
      assert (2 ^ (prec - 1) * u <= w * u); [|lia].
      apply Z.mul_le_mono_nonneg_r; lia.
  - intros mr er Hc Her HR.
    destruct (decide (Zpos m mod 2 ^ (t - e) = 0)) as [Hz|Hnz].
    { rewrite (Hex Hz), <- (HXex Hz). done. }
    specialize (HXin Hnz).
    destruct (canonical_grid mr er t c Hc Her ltac:(lia))
      as [(_ & Heq)|(_ & Hnorm & Hsmall)].
    + rewrite Heq in *. set (j := Zpos mr * 2 ^ (er - t)) in *. fold u in HR |- *.
      apply Z.mul_le_mono_nonneg_r; [lia|].
      assert (q < j); [|lia].
      apply (Z.mul_lt_mono_pos_r u); lia.
    + fold u in Hsmall. specialize (Hqlo Hnorm).
      assert (2 ^ (prec - 1) * u <= q * u); [|lia].
      apply Z.mul_le_mono_nonneg_r; lia.
Qed.

(** The same of [binary_round], which first aligns the mantissa. *)
Lemma binary_round_between (s : bool) (m : positive) (e c : Z) :
  0 <= e + c -> 0 <= emin prec emax + c ->
  exists k e1,
    binary_round prec emax s m e = round_result prec emax s k e1 /\
    0 <= k /\ 0 <= e1 + c /\
    (0 < k -> fexp prec emax (Zdigits2 k + e1) = e1) /\
    (forall mr er, canonical_mantissa prec emax mr er = true -> 0 <= er + c ->
       in_units c mr er <= in_units c m e ->
       in_units c mr er <= k * 2 ^ (e1 + c)) /\
    (forall mr er, canonical_mantissa prec emax mr er = true -> 0 <= er + c ->
       in_units c m e <= in_units c mr er ->
       k * 2 ^ (e1 + c) <= in_units c mr er).
Proof.
  intros Hec Hc. unfold binary_round.
  set (t := fexp prec emax (Zpos (digits2_pos m) + e)).
  pose proof (fexp_ge_emin prec emax (Zpos (digits2_pos m) + e)) as Hemin. fold t in Hemin.
  unfold shl_align. destruct (t - e) as [|n|n] eqn:Hn.
  - apply binary_round_aux_between; [fold t; lia|done].
  - apply binary_round_aux_between; [fold t; lia|done].
  - rewrite pos_iter_nat.
    assert (in_units c (Nat.iter (Pos.to_nat n) xO m) t = in_units c m e) as <-.
    { unfold in_units. rewrite Zpos_iter_xO, positive_nat_Z.
      rewrite <- Z.mul_assoc, <- pow2_add by lia. do 2 f_equal. lia. }
    apply binary_round_aux_between; [|lia].
    rewrite digits2_pos_iter_xO, positive_nat_Z.
    replace (Zpos (digits2_pos m) + Zpos n + t) with (Zpos (digits2_pos m) + e) by lia.
    fold t. lia.
Qed.
End Brackets.

Section Values.
Variables prec emax : Z.
Hypothesis prec_pos : 0 < prec.

Lemma value_round_result (s : bool) (k e1 c : Z) :
  0 <= k -> is_finite (round_result prec emax s k e1) = true ->
  value c (round_result prec emax s k e1) = cond_Zopp s (k * 2 ^ (e1 + c)).
Proof.
  intros Hk. unfold round_result. destruct k as [|p|p]; [by destruct s| |lia].
  by destruct (e1 <=? emax - prec).
Qed.

Lemma round_result_valid (s : bool) (k e1 : Z) :
  (0 < k -> fexp prec emax (Zdigits2 k + e1) = e1) ->
  is_finite (round_result prec emax s k e1) = true ->
  valid_binary prec emax (round_result prec emax s k e1) = true.
Proof.
  intros Hcan. unfold round_result. destruct k as [|p|p]; [done| |done].
  destruct (e1 <=? emax - prec) eqn:Hle; [|done]. intros _. cbn.
  unfold bounded, canonical_mantissa. rewrite Hle, andb_true_r.
  apply Z.eqb_eq. by apply Hcan.
Qed.

Lemma value_representable (c : Z) (x : spec_float) :
  valid_binary prec emax x = true -> 0 <= emin prec emax + c ->
  representable prec emax c (value c x).
Proof.
  intros Hv Hc. destruct x as [| | |s m e]; [by left..|]. right.
  cbn in Hv. apply andb_true_iff in Hv as [Hcan _].
  destruct (canonical_facts prec emax m e Hcan) as (Hemin & _).
  exists m, e. split; [done|]. split; [lia|]. cbn [value].
  assert (0 < in_units c m e)
    by (unfold in_units; pose proof (pow2_pos (e + c) ltac:(lia)); lia).
  destruct s; cbn [cond_Zopp]; lia.
Qed.

(** Twice a canonical number is canonical, whatever its size: the
    exponent goes up, or the mantissa of a subnormal number gains a bit. *)
Lemma representable_double (c v : Z) :
  representable prec emax c v -> representable prec emax c (2 * v).
Proof.
  intros [->|(m & e & Hcan & Hec & Hv)]; [by left|]. right.
  destruct (canonical_facts prec emax m e Hcan) as (Hemin & Hd & Hnorm).
  assert (Z.abs (2 * v) = 2 * in_units c m e) as -> by lia.
  destruct (decide (Zpos (digits2_pos m) = prec)) as [Heq|Hne].
  - exists m, (e + 1). split; [|split; [lia|]].
    + unfold canonical_mantissa, fexp. apply Z.eqb_eq. lia.
    + unfold in_units. replace (e + 1 + c) with (Z.succ (e + c)) by lia.
      rewrite Z.pow_succ_r by lia. lia.
  - exists (xO m), e. split; [|split; [lia|]].
    + unfold canonical_mantissa, fexp in *. apply Z.eqb_eq.
      cbn [digits2_pos]. rewrite Pos2Z.inj_succ. lia.
    + unfold in_units. change (Zpos m~0) with (2 * Zpos m). lia.
Qed.

(** [binary_round] passes no canonical number, on either side. *)
Lemma binary_round_value_ge (s : bool) (m : positive) (e c v : Z) :
  0 <= e + c -> 0 <= emin prec emax + c ->
  representable prec emax c v ->
  v <= cond_Zopp s (in_units c m e) ->
  is_finite (binary_round prec emax s m e) = true ->
  v <= value c (binary_round prec emax s m e).
Proof.
  intros Hec Hc Hrep Hv.
  destruct (binary_round_between prec emax prec_pos s m e c Hec Hc)
    as (k & e1 & -> & Hk & He1 & _ & Hlo & Hhi).
  intros Hfin. rewrite value_round_result by done.
  pose proof (pow2_pos (e1 + c) He1) as Hp.
  assert (0 <= k * 2 ^ (e1 + c)) as HV by lia.
  assert (0 < in_units c m e) as HX
    by (unfold in_units; pose proof (pow2_pos (e + c) Hec); lia).
  destruct Hrep as [->|(mr & er & Hcan & Her & Habs)].
  - destruct s; cbn [cond_Zopp] in *; lia.
  - destruct s; cbn [cond_Zopp] in *.
    + assert (Z.abs v = - v) as Hneg by lia. rewrite Hneg in Habs.
      specialize (Hhi mr er Hcan Her ltac:(lia)). lia.
    + destruct (decide (v <= 0)) as [|Hpos]; [lia|].
      assert (Z.abs v = v) as Hp' by lia. rewrite Hp' in Habs.
      specialize (Hlo mr er Hcan Her ltac:(lia)). lia.
Qed.

Lemma binary_round_value_le (s : bool) (m : positive) (e c v : Z) :
  0 <= e + c -> 0 <= emin prec emax + c ->
  representable prec emax c v ->
  cond_Zopp s (in_units c m e) <= v ->
  is_finite (binary_round prec emax s m e) = true ->
  value c (binary_round prec emax s m e) <= v.
Proof.
  intros Hec Hc Hrep Hv.
  destruct (binary_round_between prec emax prec_pos s m e c Hec Hc)
    as (k & e1 & -> & Hk & He1 & _ & Hlo & Hhi).
  intros Hfin. rewrite value_round_result by done.
  pose proof (pow2_pos (e1 + c) He1) as Hp.
  assert (0 <= k * 2 ^ (e1 + c)) as HV by lia.
  assert (0 < in_units c m e) as HX
    by (unfold in_units; pose proof (pow2_pos (e + c) Hec); lia).
  destruct Hrep as [->|(mr & er & Hcan & Her & Habs)].
  - destruct s; cbn [cond_Zopp] in *; lia.
  - destruct s; cbn [cond_Zopp] in *.
    + destruct (decide (0 <= v)) as [|Hneg]; [lia|].
      assert (Z.abs v = - v) as Hn' by lia. rewrite Hn' in Habs.
      specialize (Hlo mr er Hcan Her ltac:(lia)). lia.
    + assert (Z.abs v = v) as Hp' by lia. rewrite Hp' in Habs.
      specialize (Hhi mr er Hcan Her ltac:(lia)). lia.
Qed.

Lemma binary_round_valid (s : bool) (m : positive) (e c : Z) :
  0 <= e + c -> 0 <= emin prec emax + c ->
  is_finite (binary_round prec emax s m e) = true ->
  valid_binary prec emax (binary_round prec emax s m e) = true.
Proof.
  intros Hec Hc.
  destruct (binary_round_between prec emax prec_pos s m e c Hec Hc)
    as (k & e1 & -> & _ & _ & Hcan & _).
  by apply round_result_valid.
Qed.

(** A number of the format above the argument keeps [binary_round] from
    overflowing. *)
Lemma binary_round_no_overflow (s : bool) (m : positive) (e c : Z)
    (mr : positive) (er : Z) :
  0 <= e + c -> 0 <= emin prec emax + c ->
  bounded prec emax mr er = true ->
  in_units c m e <= in_units c mr er ->
  is_finite (binary_round prec emax s m e) = true.
Proof.
  intros Hec Hc Hb HR. apply andb_true_iff in Hb as [Hcanr Hler].
  apply Z.leb_le in Hler.
  destruct (canonical_facts prec emax mr er Hcanr) as (Hemin & Hdr & _).
  destruct (binary_round_between prec emax prec_pos s m e c Hec Hc)
    as (k & e1 & -> & Hk & He1 & Hcan & _ & Hhi).
  specialize (Hhi mr er Hcanr ltac:(lia) HR).
  unfold round_result. destruct k as [|p|p]; [done| |lia].
  destruct (e1 <=? emax - prec) eqn:Hle; [done|]. exfalso.
  apply Z.leb_gt in Hle. specialize (Hcan ltac:(lia)). cbn [Zdigits2] in Hcan.
  assert (Zpos (digits2_pos p) = prec) as Hdp by (unfold fexp in Hcan; lia).
  destruct (digits2_pos_bounds p) as [Hplo _]. rewrite Hdp in Hplo.
  destruct (digits2_pos_bounds mr) as [_ Hrhi].
  pose proof (pow2_le (Zpos (digits2_pos mr)) prec ltac:(lia)).
  unfold in_units in *.
  pose proof (pow2_pos (er + c) ltac:(lia)) as Hpr.
  pose proof (pow2_pos (e1 + c) He1) as Hp1.
  assert (2 ^ (prec - 1) * 2 ^ (e1 + c) <= Zpos p * 2 ^ (e1 + c))
    by (apply Z.mul_le_mono_nonneg_r; lia).
  assert (Zpos mr * 2 ^ (er + c) < 2 ^ prec * 2 ^ (er + c))
    by (apply Z.mul_lt_mono_pos_r; lia).
  rewrite <- pow2_add in * by lia.
  pose proof (pow2_le (prec + (er + c)) (prec - 1 + (e1 + c)) ltac:(lia)). lia.
Qed.

(** ** The order of the numbers of a format *)

Lemma canonical_lt (m1 : positive) (e1 : Z) (m2 : positive) (e2 c : Z) :
  canonical_mantissa prec emax m1 e1 = true ->
  canonical_mantissa prec emax m2 e2 = true ->
  0 <= emin prec emax + c -> e1 < e2 ->
  in_units c m1 e1 < in_units c m2 e2.
Proof.
  intros H1 H2 Hc Hlt.
  destruct (canonical_facts prec emax m1 e1 H1) as (Hemin1 & _).
  destruct (canonical_facts prec emax m2 e2 H2) as (_ & _ & Hd2).
  destruct (canonical_grid prec emax prec_pos m1 e1 e2 c H1 ltac:(lia) ltac:(lia))
    as [(? & _)|(_ & _ & Hsmall)]; [lia|].
  destruct (digits2_pos_bounds m2) as [Hlo _]. rewrite Hd2 in Hlo by lia.
  pose proof (pow2_pos (e2 + c) ltac:(lia)).
  assert (2 ^ (prec - 1) * 2 ^ (e2 + c) <= in_units c m2 e2); [|lia].
  unfold in_units. apply Z.mul_le_mono_nonneg_r; lia.
Qed.

Lemma compare_canonical (m1 : positive) (e1 : Z) (m2 : positive) (e2 c : Z) :
  canonical_mantissa prec emax m1 e1 = true ->
  canonical_mantissa prec emax m2 e2 = true ->
  0 <= emin prec emax + c ->
  match e1 ?= e2 with
  | Lt => Lt
  | Gt => Gt
  | Eq => Pos.compare_cont Eq m1 m2
  end = (in_units c m1 e1 ?= in_units c m2 e2).
Proof.
  intros H1 H2 Hc. destruct (Z.compare_spec e1 e2) as [->|Hlt|Hgt]; symmetry.
  - destruct (canonical_facts prec emax m2 e2 H2) as (Hemin & _).
    pose proof (pow2_pos (e2 + c) ltac:(lia)) as Hp. unfold in_units.
    change (Pos.compare_cont Eq m1 m2) with (Zpos m1 ?= Zpos m2).
    destruct (Z.compare_spec (Zpos m1) (Zpos m2)) as [->|Hlt|Hgt].
    + apply Z.compare_refl.
    + apply Z.compare_lt_iff. by apply Z.mul_lt_mono_pos_r.
    + apply Z.compare_gt_iff. by apply Z.mul_lt_mono_pos_r.
  - apply Z.compare_lt_iff. by apply canonical_lt.
  - apply Z.compare_gt_iff. by apply canonical_lt.
Qed.

(** Numbers of a format compare as their values. *)
Lemma SFcompare_value (c : Z) (x y : spec_float) :
  valid_binary prec emax x = true -> valid_binary prec emax y = true ->
  is_finite x = true -> is_finite y = true ->
  0 <= emin prec emax + c ->
  SFcompare x y = Some (value c x ?= value c y).
Proof.
  intros Hx Hy Hfx Hfy Hc.
  assert (forall s m e, valid_binary prec emax (S754_finite s m e) = true ->
            canonical_mantissa prec emax m e = true /\ 0 < in_units c m e) as Hpos.
  { intros s m e Hv. cbn in Hv. apply andb_true_iff in Hv as [Hcan _].
    split; [done|].
    destruct (canonical_facts prec emax m e Hcan) as (Hemin & _).
    unfold in_units. pose proof (pow2_pos (e + c) ltac:(lia)). lia. }
  destruct x as [sx| | |sx mx ex], y as [sy| | |sy my ey]; try done.
  - destruct (Hpos _ _ _ Hy) as [_ Hv]. cbn [SFcompare value]. f_equal. symmetry.
    destruct sy; cbn [cond_Zopp];
      [apply Z.compare_gt_iff|apply Z.compare_lt_iff]; lia.
  - destruct (Hpos _ _ _ Hx) as [_ Hv]. cbn [SFcompare value]. f_equal. symmetry.
    destruct sx; cbn [cond_Zopp];
      [apply Z.compare_lt_iff|apply Z.compare_gt_iff]; lia.
  - destruct (Hpos _ _ _ Hx) as [Hcx Hvx], (Hpos _ _ _ Hy) as [Hcy Hvy].
    cbn [SFcompare value]. f_equal.
    destruct sx, sy; cbn [cond_Zopp].
    + rewrite Z.compare_opp, (Z.compare_antisym (in_units c mx ex)).
      rewrite <- (compare_canonical mx ex my ey c) by done.
      by destruct (ex ?= ey).
    + symmetry. apply Z.compare_lt_iff. lia.
    + symmetry. apply Z.compare_gt_iff. lia.
    + by apply compare_canonical.
Qed.

Lemma SFleb_value (c : Z) (x y : spec_float) :
  valid_binary prec emax x = true -> valid_binary prec emax y = true ->
  is_finite x = true -> is_finite y = true ->
  0 <= emin prec emax + c ->
  SFleb x y = true <-> value c x <= value c y.
Proof.
  intros Hx Hy Hfx Hfy Hc. unfold SFleb.
  rewrite (SFcompare_value c x y) by done.
  rewrite <- Z.compare_le_iff. by destruct (value c x ?= value c y).
Qed.
End Values.

(** ** Sums and halves *)

Lemma shl_align_value (m : positive) (e ez : Z) :
  ez <= e -> Zpos (fst (shl_align m e ez)) = Zpos m * 2 ^ (e - ez).
Proof.
  intros Hle. unfold shl_align. destruct (ez - e) as [|d|d] eqn:Hd; cbn [fst].
  - replace (e - ez) with 0 by lia. lia.
  - lia.
  - rewrite pos_iter_nat, Zpos_iter_xO, positive_nat_Z. do 2 f_equal. lia.
Qed.

Section Sums.
Variables prec emax : Z.
Hypothesis prec_pos : 0 < prec.

(** The sum of two finite numbers is their exact sum, rounded. *)
Lemma SFadd_finite_value (sx : bool) (mx : positive) (ex : Z)
    (sy : bool) (my : positive) (ey c : Z) :
  0 <= ex + c -> 0 <= ey + c ->
  exists z,
    SFadd prec emax (S754_finite sx mx ex) (S754_finite sy my ey)
      = binary_normalize prec emax z (Z.min ex ey) false /\
    z * 2 ^ (Z.min ex ey + c)
      = value c (S754_finite sx mx ex) + value c (S754_finite sy my ey).
Proof.
  intros Hx Hy. eexists. split; [reflexivity|].
  cbn [value]. rewrite Z.mul_add_distr_r.
  assert (forall s m e, Z.min ex ey <= e -> 0 <= e + c ->
            cond_Zopp s (Zpos (fst (shl_align m e (Z.min ex ey))))
              * 2 ^ (Z.min ex ey + c)
            = cond_Zopp s (in_units c m e)) as Hal.
  { intros s m e Hle Hec. rewrite shl_align_value by done. unfold in_units.
    assert (Zpos m * 2 ^ (e - Z.min ex ey) * 2 ^ (Z.min ex ey + c)
            = Zpos m * 2 ^ (e + c)) as Heq.
    { rewrite <- Z.mul_assoc, <- pow2_add by lia. do 2 f_equal. lia. }
    destruct s; cbn [cond_Zopp]; lia. }
  rewrite !Hal by lia. done.
Qed.

(** The sum of two numbers [x <= y] of the format, when it does not
    overflow, is a number of the format between [2x] and [2y]. *)
Lemma SFadd_between (c : Z) (x y : spec_float) :
  valid_binary prec emax x = true -> valid_binary prec emax y = true ->
  is_finite x = true -> is_finite y = true ->
  0 <= emin prec emax + c ->
  value c x <= value c y ->
  is_finite (SFadd prec emax x y) = true ->
  valid_binary prec emax (SFadd prec emax x y) = true /\
  2 * value c x <= value c (SFadd prec emax x y) <= 2 * value c y.
Proof.
  intros Hx Hy Hfx Hfy Hc Hle.
  pose proof (representable_double prec emax c _ (value_representable prec emax c x Hx Hc))
    as Hrx.
  pose proof (representable_double prec emax c _ (value_representable prec emax c y Hy Hc))
    as Hry.
  destruct x as [sx| | |sx mx ex], y as [sy| | |sy my ey]; try done.
  - intros _. by destruct sx, sy.
  - intros _. cbn [SFadd]. split; [done|]. cbn [value] in *. lia.
  - intros _. cbn [SFadd]. split; [done|]. cbn [value] in *. lia.
  - assert (emin prec emax <= ex /\ emin prec emax <= ey) as [Hex Hey].
    { cbn in Hx, Hy. apply andb_true_iff in Hx as [Hx _], Hy as [Hy _].
      split; [by apply (canonical_facts prec emax mx)|by apply (canonical_facts prec emax my)]. }
    destruct (SFadd_finite_value sx mx ex sy my ey c) as (z & -> & Hz); [lia..|].
    set (vx := value c (S754_finite sx mx ex)) in *.
    set (vy := value c (S754_finite sy my ey)) in *.
    unfold binary_normalize. destruct z as [|p|p].
    + intros _. split; [done|]. cbn [value]. lia.
    + intros Hfin.
      assert (cond_Zopp false (in_units c p (Z.min ex ey)) = vx + vy) as Hs
        by (rewrite <- Hz; done).
      split; [by apply (binary_round_valid prec emax prec_pos _ _ _ c); [lia..|]|].
      split.
      * apply (binary_round_value_ge prec emax prec_pos); [lia|lia|done|lia|done].
      * apply (binary_round_value_le prec emax prec_pos); [lia|lia|done|lia|done].
    + intros Hfin.
      assert (cond_Zopp true (in_units c p (Z.min ex ey)) = vx + vy) as Hs.
      { rewrite <- Hz. unfold in_units. cbn [cond_Zopp]. lia. }
      split; [by apply (binary_round_valid prec emax prec_pos _ _ _ c); [lia..|]|].
      split.
      * apply (binary_round_value_ge prec emax prec_pos); [lia|lia|done|lia|done].
      * apply (binary_round_value_le prec emax prec_pos); [lia|lia|done|lia|done].
Qed.
End Sums.

Lemma halve_zero (s : bool) : halve (S754_zero s) = S754_zero s.
Proof. destruct s; vm_compute; reflexivity. Qed.

Lemma halve_infinity (s : bool) : halve (S754_infinity s) = S754_infinity s.
Proof. destruct s; vm_compute; reflexivity. Qed.

(** Halving a [float] through [double]: the widening and the division
    are exact, the narrowing rounds half the value. *)
Lemma halve_finite (s : bool) (m : positive) (e : Z) :
  bounded F32.prec F32.emax m e = true ->
  exists M E,
    halve (S754_finite s m e) = binary_round F32.prec F32.emax s M E /\
    -202 <= E /\
    forall c, 202 <= c -> 2 * in_units c M E = in_units c m e.
Proof.
  intros Hb. apply andb_true_iff in Hb as [Hcan Hle]. apply Z.leb_le in Hle.
  destruct (canonical_facts F32.prec F32.emax m e Hcan) as (Hemin & Hd & _).
  unfold emin, F32.prec, F32.emax in *.
  set (D := Zpos (digits2_pos m)) in *.
  assert (0 < D) by (unfold D; lia).
  unfold halve, float_to_double, convert.
  rewrite (binary_round_exact F64.prec F64.emax s m e)
    by (fold D; unfold emin, F64.prec, F64.emax; lia).
  fold D. unfold F64.prec.
  set (M := Nat.iter (Z.to_nat (53 - D)) xO m).
  assert (Zpos (digits2_pos M) = 53) as HM
    by (unfold M; rewrite digits2_pos_iter_xO; fold D; lia).
  rewrite div_two_exact by (done || lia).
  exists M, (D + e - 53 - 1). split; [done|]. split; [lia|].
  intros c Hc. unfold in_units, M. rewrite Zpos_iter_xO, Z2Nat.id by lia.
  replace (e + c) with (Z.succ ((53 - D) + (D + e - 53 - 1 + c))) by lia.
  rewrite Z.pow_succ_r, (pow2_add (53 - D)) by lia. ring.
Qed.

(** Half of a [float] lies between the [float]s that half its value lies
    between. *)
Lemma halve_between (c : Z) (x lo hi : float) :
  binary32 x -> binary32 lo -> binary32 hi ->
  is_finite x = true -> is_finite lo = true -> is_finite hi = true ->
  202 <= c ->
  2 * value c lo <= value c x <= 2 * value c hi ->
  is_finite (halve x) = true /\ binary32 (halve x) /\
  value c lo <= value c (halve x) <= value c hi.
Proof.
  unfold binary32. intros Hx Hlo Hhi Hfx Hflo Hfhi Hc Hv.
  assert (0 <= emin F32.prec F32.emax + c) as Hemin by (unfold emin, F32.prec, F32.emax; lia).
  assert (0 < F32.prec) as Hprec by done.
  destruct x as [s| | |s m e]; try done.
  { rewrite halve_zero. cbn [value] in *. split; [done|]. split; [done|]. lia. }
  destruct (halve_finite s m e Hx) as (M & E & -> & HE & Hhalf).
  specialize (Hhalf c Hc). cbn [value] in Hv.
  assert (0 < in_units c M E) as HX
    by (unfold in_units; pose proof (pow2_pos (E + c) ltac:(lia)); lia).
  assert (value c lo <= cond_Zopp s (in_units c M E) <= value c hi) as Hv'
    by (destruct s; cbn [cond_Zopp] in *; lia).
  assert (is_finite (binary_round F32.prec F32.emax s M E) = true) as Hfin.
  { destruct s; cbn [cond_Zopp] in Hv'.
    - destruct lo as [| | |[] ml el]; cbn [value cond_Zopp] in Hv'; try (done || lia).
      + apply (binary_round_no_overflow F32.prec F32.emax Hprec _ M E c ml el);
          [lia|done|done|lia].
      + assert (0 < in_units c ml el); [|lia].
        unfold in_units. cbn in Hlo. apply andb_true_iff in Hlo as [Hcl _].
        destruct (canonical_facts F32.prec F32.emax ml el Hcl) as (? & _).
        pose proof (pow2_pos (el + c) ltac:(lia)). lia.
    - destruct hi as [| | |[] mh eh]; cbn [value cond_Zopp] in Hv'; try (done || lia).
      + assert (0 < in_units c mh eh); [|lia].
        unfold in_units. cbn in Hhi. apply andb_true_iff in Hhi as [Hch _].
        destruct (canonical_facts F32.prec F32.emax mh eh Hch) as (? & _).
        pose proof (pow2_pos (eh + c) ltac:(lia)). lia.
      + apply (binary_round_no_overflow F32.prec F32.emax Hprec _ M E c mh eh);
          [lia|done|done|lia]. }
  split; [done|].
  split; [by apply (binary_round_valid F32.prec F32.emax Hprec _ _ _ c); [lia|..]|].
  split.
  - apply (binary_round_value_ge F32.prec F32.emax Hprec); [lia|done| |lia|done].
    by apply value_representable.
  - apply (binary_round_value_le F32.prec F32.emax Hprec); [lia|done| |lia|done].
    by apply value_representable.
Qed.

(** ** The average of two [float]s *)

(** The average [(a + b) / 2.0] of two [float]s [a <= b], as the machine
    computes it, lies between them unless the sum overflows. *)
Lemma average_between_in_range (a b : float) :
  binary32 a -> binary32 b -> f32_le a b -> sum_in_range a b ->
  average_between a b.
Proof.
  intros Ha Hb Hle Hsum. unfold average_between.
  change (average a b) with (halve (F32.add a b)).
  assert (0 < F32.prec) as Hprec by done.
  assert (0 <= emin F32.prec F32.emax + 300) as Hemin by done.
  destruct (is_finite a && is_finite b) eqn:Hfin.
  - apply andb_true_iff in Hfin as [Hfa Hfb].
    assert (is_finite (F32.add a b) = true) as Hfs.
    { unfold sum_in_range in Hsum. rewrite Hfa, Hfb in Hsum.
      by destruct (F32.add a b). }
    pose proof (proj1 (SFleb_value F32.prec F32.emax Hprec 300 a b Ha Hb Hfa Hfb Hemin) Hle)
      as Hv.
    destruct (SFadd_between F32.prec F32.emax Hprec 300 a b Ha Hb Hfa Hfb Hemin Hv Hfs)
      as (Hvs & Hbounds).
    destruct (halve_between 300 (F32.add a b) a b Hvs Ha Hb Hfs Hfa Hfb ltac:(lia) Hbounds)
      as (Hfh & Hvh & Hlo & Hhi).
    split; apply (SFleb_value F32.prec F32.emax Hprec 300); done.
  - unfold sum_in_range, f32_le, F32.leb in *.
    destruct a as [sa|sa| |sa ma ea], b as [sb|sb| |sb mb eb]; try done;
      cbn [F32.add SFadd] in *;
      repeat match goal with s : bool |- _ => destruct s end;
      try done; rewrite ?halve_infinity; done.
Qed.

(** * Properties, continued *)

(** ** The median between the minimum and the maximum *)

(** C8, as stated, fails: the two-element sequence FLT_MAX, FLT_MAX has
    minimum and maximum FLT_MAX and median +infinity, the sum of the two
    central elements overflowing before it is halved. *)
Lemma median_above_max :
  Forall numeric sample_max_max /\
  calculate_min sample_max_max 2 = Some F32.max_float /\
  calculate_max sample_max_max 2 = Some F32.max_float /\
  fst <$> calculate_median sample_max_max 2 = Some (S754_infinity false) /\
  F32.leb (S754_infinity false) F32.max_float = false.
Proof.
  split_and!; [by repeat constructor|vm_compute; reflexivity..].
Qed.

(** The two central elements of a sorted even-length sequence are in
    order, so their average is between them when that of any two ordered
    elements is. *)
Lemma central_average_between (s : list float) (a b : float) (count : Z) (data : list float) :
  length s = Z.to_nat count -> 1 <= count ->
  s ≡ₚ take (Z.to_nat count) data ->
  StronglySorted f32_le s ->
  Nat.odd (Z.to_nat count) = false ->
  (count mod 2 = 0 ->
   forall a b, a ∈ take (Z.to_nat count) data ->
               b ∈ take (Z.to_nat count) data ->
               f32_le a b -> average_between a b) ->
  s !! (Z.to_nat count / 2 - 1)%nat = Some a ->
  s !! (Z.to_nat count / 2)%nat = Some b ->
  average_between a b.
Proof.
  intros Hlen Hc Hperm Hord Hodd Havg Ha Hb.
  assert (count mod 2 = 0) as Heven.
  { destruct (decide (count mod 2 = 0)) as [|Hne]; [done|].
    apply odd_of_mod in Hne; [congruence|lia]. }
  assert (0 < Z.to_nat count / 2)%nat as Hpos.
  { apply Nat.div_str_pos.
    pose proof (Z.div_mod count 2 ltac:(lia)). lia. }
  apply (Havg Heven).
  - rewrite <- Hperm. by apply list_elem_of_lookup_2 in Ha.
  - rewrite <- Hperm. by apply list_elem_of_lookup_2 in Hb.
  - apply (StronglySorted_lookup_le f32_le s (Z.to_nat count / 2 - 1)
             (Z.to_nat count / 2)); [done|lia|done..].
Qed.

(** C8, amended. For a sequence [x] of [n >= 1] numbers,
    [calculate_min(x) <= calculate_median(x) <= calculate_max(x)] when [n]
    is odd, and when [n] is even provided the [float] sum of the two
    central elements of [x] sorted ascending does not overflow: the two
    are values of the type [float], and their sum is a number that is
    infinite only if one of them is. Nothing is asked of the other
    elements. *)
Theorem min_median_max (data : list float) (count : Z) :
  1 <= count <= Z.of_nat (length data) -> count < UINT32_MOD ->
  Forall numeric (take (Z.to_nat count) data) ->
  (count mod 2 = 0 ->
   forall s a b, ascending_sort_of s (take (Z.to_nat count) data) ->
                 s !! (Z.to_nat count / 2 - 1)%nat = Some a ->
                 s !! (Z.to_nat count / 2)%nat = Some b ->
                 binary32 a /\ binary32 b /\ sum_in_range a b) ->
  exists mn md mx,
    calculate_min data count = Some mn /\
    fst <$> calculate_median data count = Some md /\
    calculate_max data count = Some mx /\
    f32_le mn md /\ f32_le md mx.
Proof.
  intros Hc Hu Hnum Hsum.
  destruct (calculate_min_spec data count Hc) as (mn & Hmn & _ & Hmin).
  destruct (calculate_max_spec data count Hc) as (mx & Hmx & _ & Hmax).
  destruct (calculate_median_spec data count Hc Hu)
    as (s & md & Hmed & Hlen & Hperm & Hord & Hmd).
  specialize (Hmin Hnum). specialize (Hmax Hnum). specialize (Hord Hnum).
  rewrite <- Hperm in Hmin, Hmax. rewrite Forall_forall in Hmin, Hmax.
  assert (Nat.odd (Z.to_nat count) = false ->
          forall a b, s !! (Z.to_nat count / 2 - 1)%nat = Some a ->
                      s !! (Z.to_nat count / 2)%nat = Some b ->
                      average_between a b) as Havg.
  { intros Hodd a b Ha Hb.
    assert (count mod 2 = 0) as Heven.
    { destruct (decide (count mod 2 = 0)) as [|Hne]; [done|].
      apply odd_of_mod in Hne; [congruence|lia]. }
    assert (0 < Z.to_nat count / 2)%nat as Hpos.
    { apply Nat.div_str_pos.
      pose proof (Z.div_mod count 2 ltac:(lia)). lia. }
    destruct (Hsum Heven s a b (conj Hperm Hord) Ha Hb) as (Hva & Hvb & Hrange).
    apply average_between_in_range; [done..| |done].
    apply (StronglySorted_lookup_le f32_le s (Z.to_nat count / 2 - 1)
             (Z.to_nat count / 2)); [done|lia|done..]. }
  exists mn, md, mx. rewrite Hmed. split_and!; [done..| |];
    revert Hmd; unfold median_of_sorted; rewrite Hlen;
    destruct (Nat.odd (Z.to_nat count)) eqn:Hodd.
  - intros Hmd. by apply list_elem_of_lookup_2, Hmin in Hmd.
  - destruct (s !! (Z.to_nat count / 2 - 1)%nat) as [a|] eqn:Ha; [|done].
    destruct (s !! (Z.to_nat count / 2)%nat) as [b|] eqn:Hb; [|done].
    cbn [mbind option_bind]. intros [= <-].
    destruct (Havg eq_refl a b eq_refl eq_refl) as [Hlo Hhi].
    apply (f32_le_trans mn a); [|exact Hlo].
    by apply list_elem_of_lookup_2, Hmin in Ha.
  - intros Hmd. by apply list_elem_of_lookup_2, Hmax in Hmd.
  - destruct (s !! (Z.to_nat count / 2 - 1)%nat) as [a|] eqn:Ha; [|done].
    destruct (s !! (Z.to_nat count / 2)%nat) as [b|] eqn:Hb; [|done].
    cbn [mbind option_bind]. intros [= <-].
    destruct (Havg eq_refl a b eq_refl eq_refl) as [Hlo Hhi].
    apply (f32_le_trans _ b); [exact Hhi|].
    by apply list_elem_of_lookup_2, Hmax in Hb.
Qed.

Lemma min_median_max_witness :
  exists mn md mx,
    calculate_min sample_3_1_max_2 4 = Some mn /\
    fst <$> calculate_median sample_3_1_max_2 4 = Some md /\
    calculate_max sample_3_1_max_2 4 = Some mx /\
    f32_le mn md /\ f32_le md mx.
Proof.
  apply (min_median_max sample_3_1_max_2 4).
  - by vm_compute.
  - by vm_compute.
  - vm_compute. by repeat constructor.
  - intros _ s a b [Hperm _] Ha Hb.
    symmetry in Hperm. apply permutations_Permutation in Hperm.
    vm_compute in Hperm.
    repeat (apply elem_of_cons in Hperm as [->|Hperm];
            [vm_compute in Ha, Hb; injection Ha as <-; injection Hb as <-;
             repeat split; vm_compute; first [reflexivity|exact I]|]).
    by apply elem_of_nil in Hperm.
Defined.

(** ** The consumer's copy and statistics *)

Lemma copy_out_whole_array (st : buffer_state) (stack : consumer_arrays) :
  length (sensor_buffer st) = Z.to_nat BUFFER_SIZE ->
  arrays_declared stack ->
  copy_out st stack =
    Some {| pir_data := PIR <$> sensor_buffer st;
            humidity_and_heat_data := humidity_and_heat <$> sensor_buffer st;
            ldr_data := LDR <$> sensor_buffer st |}.
Proof.
  intros Hlen (Hp & Hh & Hl). unfold copy_out.
  set (buf := sensor_buffer st) in *.
  destruct (for_range_inv
    (fun k a =>
       arrays_declared a /\
       take (Z.to_nat k) (pir_data a) = take (Z.to_nat k) (PIR <$> buf) /\
       take (Z.to_nat k) (humidity_and_heat_data a)
         = take (Z.to_nat k) (humidity_and_heat <$> buf) /\
       take (Z.to_nat k) (ldr_data a) = take (Z.to_nat k) (LDR <$> buf))
    (copy_slot buf) 0 BUFFER_SIZE stack)
    as ([p h l] & -> & (Hp' & Hh' & Hl') & Hpe & Hhe & Hle); [done| |..].
  - by split_and!.
  - intros k [p h l] Hk ((Hp1 & Hh1 & Hl1) & Hpe & Hhe & Hle). simpl in *.
    unfold copy_slot. simpl.
    destruct (array_get_in_range buf k) as [s Hs]; [lia|].
    rewrite Hs. cbn [mbind option_bind].
    rewrite !array_set_in_range by lia. cbn [mbind option_bind].
    apply array_get_Some in Hs as [_ Hs].
    eexists; split; [done|]. simpl.
    replace (Z.to_nat (k + 1)) with (Datatypes.S (Z.to_nat k)) by lia.
    assert (forall (f : sensor_data_t -> float) (a : list float),
              length a = Z.to_nat BUFFER_SIZE ->
              take (Z.to_nat k) a = take (Z.to_nat k) (f <$> buf) ->
              take (Datatypes.S (Z.to_nat k)) (<[Z.to_nat k := f s]> a)
              = take (Datatypes.S (Z.to_nat k)) (f <$> buf)) as Hgrow.
    { intros f a Ha Heq.
      rewrite (take_S_r (<[Z.to_nat k := f s]> a) _ (f s))
        by (apply list_lookup_insert_eq; lia).
      rewrite (take_S_r (f <$> buf) _ (f s))
        by (by rewrite list_lookup_fmap, Hs).
      by rewrite take_insert_ge, Heq by lia. }
    unfold arrays_declared. simpl.
    split_and!; try (by rewrite length_insert); by apply Hgrow.
  - simpl in *. rewrite <- Hlen in Hp', Hh', Hl'.
    rewrite take_ge in Hpe, Hhe, Hle by lia.
    rewrite take_ge in Hpe, Hhe, Hle by (rewrite length_fmap; lia).
    by subst.
Qed.

Lemma BUFFER_SIZE_count (x : list float) :
  length x = Z.to_nat BUFFER_SIZE ->
  1 <= BUFFER_SIZE <= Z.of_nat (length x) /\ BUFFER_SIZE < UINT32_MOD.
Proof. intros ->. by vm_compute. Qed.

(** The four statistics of one array of [BUFFER_SIZE] floats all return. *)
Lemma four_statistics_return `{Libm} (x : list float) :
  length x = Z.to_nat BUFFER_SIZE ->
  exists sd mx mn md x',
    calculate_std_dev x BUFFER_SIZE = Some sd /\
    calculate_max x BUFFER_SIZE = Some mx /\
    calculate_min x BUFFER_SIZE = Some mn /\
    calculate_median x BUFFER_SIZE = Some (md, x').
Proof.
  intros Hlen. destruct (BUFFER_SIZE_count x Hlen) as [Hc Hu].
  destruct (calculate_max_spec x BUFFER_SIZE Hc) as (mx & Hmx & _).
  destruct (calculate_min_spec x BUFFER_SIZE Hc) as (mn & Hmn & _).
  destruct (calculate_median_spec x BUFFER_SIZE Hc Hu) as (s & md & Hmd & _).
  eexists _, mx, mn, md, _. split_and!; [|done..].
  apply calculate_std_dev_returns. lia.
Qed.

(** C7. Whatever [buffer_head] and [buffer_tail] are and whatever the
    slots hold, the copy of a consumer cycle reads all [BUFFER_SIZE]
    (= 100) slots of [sensor_buffer]: it fills the three local arrays with
    the three fields of every slot, each array of length [BUFFER_SIZE],
    and the twelve statistics of the cycle are those of these arrays
    taken with [count = BUFFER_SIZE]. *)
Theorem consumer_cycle_whole_array `{Libm}
    (buf : list sensor_data_t) (head tail : Z) (stack : consumer_arrays) :
  length buf = Z.to_nat BUFFER_SIZE ->
  arrays_declared stack ->
  let st := {| sensor_buffer := buf; buffer_head := head; buffer_tail := tail |} in
  let pir := PIR <$> buf in
  let hh := humidity_and_heat <$> buf in
  let ldr := LDR <$> buf in
  BUFFER_SIZE = 100 /\
  copy_out st stack
    = Some {| pir_data := pir; humidity_and_heat_data := hh; ldr_data := ldr |} /\
  Z.of_nat (length pir) = BUFFER_SIZE /\
  Z.of_nat (length hh) = BUFFER_SIZE /\
  Z.of_nat (length ldr) = BUFFER_SIZE /\
  exists r,
    consumer_cycle stack st = Some r /\
    calculate_std_dev pir BUFFER_SIZE = Some (pir_std_dev r) /\
    calculate_max pir BUFFER_SIZE = Some (pir_max r) /\
    calculate_min pir BUFFER_SIZE = Some (pir_min r) /\
    fst <$> calculate_median pir BUFFER_SIZE = Some (pir_median r) /\
    calculate_std_dev hh BUFFER_SIZE = Some (humidity_and_heat_std_dev r) /\
    calculate_max hh BUFFER_SIZE = Some (humidity_and_heat_max r) /\
    calculate_min hh BUFFER_SIZE = Some (humidity_and_heat_min r) /\
    fst <$> calculate_median hh BUFFER_SIZE = Some (humidity_and_heat_median r) /\
    calculate_std_dev ldr BUFFER_SIZE = Some (ldr_std_dev r) /\
    calculate_max ldr BUFFER_SIZE = Some (ldr_max r) /\
    calculate_min ldr BUFFER_SIZE = Some (ldr_min r) /\
    fst <$> calculate_median ldr BUFFER_SIZE = Some (ldr_median r).
Proof.
  intros Hlen Hstack st pir hh ldr.
  assert (length pir = Z.to_nat BUFFER_SIZE) as Hp by (unfold pir; by rewrite length_fmap).
  assert (length hh = Z.to_nat BUFFER_SIZE) as Hh by (unfold hh; by rewrite length_fmap).
  assert (length ldr = Z.to_nat BUFFER_SIZE) as Hl by (unfold ldr; by rewrite length_fmap).
  split; [done|]. split; [by apply copy_out_whole_array|].
  split_and!; [rewrite ?Hp, ?Hh, ?Hl; done..|].
  unfold consumer_cycle. rewrite (copy_out_whole_array st stack Hlen Hstack).
  cbn [mbind option_bind]. unfold consumer_statistics.
  cbn [pir_data humidity_and_heat_data ldr_data sensor_buffer st].
  fold pir hh ldr.
  destruct (four_statistics_return pir Hp)
    as (sd1 & mx1 & mn1 & md1 & x1 & -> & -> & -> & ->).
  destruct (four_statistics_return hh Hh)
    as (sd2 & mx2 & mn2 & md2 & x2 & -> & -> & -> & ->).
  destruct (four_statistics_return ldr Hl)
    as (sd3 & mx3 & mn3 & md3 & x3 & -> & -> & -> & ->).
  cbn [mbind option_bind]. eexists. split; [reflexivity|].
  by split_and!.
Qed.

Lemma consumer_cycle_whole_array_witness :
  exists r,
    consumer_cycle (H := libm_square) garbage_stack
      {| sensor_buffer := sensor_buffer initial_buffer;
         buffer_head := 99; buffer_tail := 0 |} = Some r /\
    calculate_max (PIR <$> sensor_buffer initial_buffer) BUFFER_SIZE
      = Some (pir_max r) /\
    fst <$> calculate_median (LDR <$> sensor_buffer initial_buffer) BUFFER_SIZE
      = Some (ldr_median r).
Proof.
  destruct (consumer_cycle_whole_array (H := libm_square)
              (sensor_buffer initial_buffer) 99 0 garbage_stack)
    as (_ & _ & _ & _ & _ & r & Hr & _ & Hmax & _ & _ & _ & _ & _ & _ & _ & _ & _ & Hmed).
  - vm_compute. reflexivity.
  - repeat split; vm_compute; reflexivity.
  - cbv zeta in Hr, Hmax, Hmed. exists r.
    split; [exact Hr|]. split; [exact Hmax|exact Hmed].
Defined.

(** ** The handshake at start-up *)

(** Nothing can run in the state [main] leaves: each task waits for a
    semaphore only the other one gives. *)
Lemma main_is_stuck (t : task) : run_task t main = None.
Proof. by destruct t. Qed.

Lemma reaches_main (tr : list event) (s : system) :
  reaches main tr s -> tr = [] /\ s = main.
Proof.
  induction 1 as [|tr s t e s' _ [-> ->] Hstep]; [done|].
  by rewrite main_is_stuck in Hstep.
Qed.

(** The consumer leaves the top of its loop only by taking its
    semaphore. *)
Lemma consumer_woken (p c : bool) (tr : list event) (s : system) :
  reaches (started p c) tr s ->
  consumer_pc s <> C_take -> Take ConsumerTask ConsumerSemaphore ∈ tr.
Proof.
  induction 1 as [|tr s t e s' _ IH Hstep]; [done|].
  intros Hpc. rewrite elem_of_app, list_elem_of_singleton.
  destruct t; simpl in Hstep.
  - left. apply IH. unfold producer_task in Hstep.
    destruct (producer_pc s); simplify_option_eq; done.
  - unfold consumer_task in Hstep.
    destruct (consumer_pc s) eqn:Hs; simplify_option_eq;
      first [ by right | by left; apply IH ].
Qed.

(** A give on [producer_semaphore] is a step of the consumer standing at
    its [xSemaphoreGive]. *)
Lemma give_producer_semaphore (t t' : task) (s s' : system) :
  run_task t s = Some (Give t' ProducerSemaphore, s') ->
  t = ConsumerTask /\ t' = ConsumerTask /\ consumer_pc s = C_give.
Proof.
  destruct t; simpl; intros Hstep.
  - unfold producer_task in Hstep.
    destruct (producer_pc s); simplify_option_eq.
  - unfold consumer_task in Hstep.
    destruct (consumer_pc s) eqn:Hs; by simplify_option_eq.
Qed.

(** C9. The binary semaphores are created unsignaled, and from the state
    [main] leaves no execution ever gives [producer_semaphore]: in every
    execution the producer is still at its first wait, the semaphore
    clear (no execution makes a step at all). Whatever state the
    semaphores start in, the only give of [producer_semaphore] is made by
    the consumer, after the consumer has itself taken
    [consumer_semaphore]. *)
Theorem producer_semaphore_not_given :
  (producer_semaphore main = false /\ consumer_semaphore main = false) /\
  (forall tr s, reaches main tr s ->
     (forall t, Give t ProducerSemaphore ∉ tr) /\
     producer_pc s = P_take /\ producer_semaphore s = false /\ tr = []) /\
  (forall p c tr s t t' s',
     reaches (started p c) tr s ->
     run_task t s = Some (Give t' ProducerSemaphore, s') ->
     t = ConsumerTask /\ t' = ConsumerTask /\
     Take ConsumerTask ConsumerSemaphore ∈ tr).
Proof.
  split; [done|]. split.
  - intros tr s [-> ->]%reaches_main. split_and!; try done.
    intros t. apply not_elem_of_nil.
  - intros p c tr s t t' s' Hreach Hstep.
    destruct (give_producer_semaphore t t' s s' Hstep) as (-> & -> & Hpc).
    split_and!; [done..|].
    apply (consumer_woken p c tr s Hreach). by rewrite Hpc.
Qed.

Lemma reaches_cons (s0 s1 s : system) (t : task) (e : event) (tr : list event) :
  run_task t s0 = Some (e, s1) -> reaches s1 tr s -> reaches s0 (e :: tr) s.
Proof.
  intros Hstep Hreach. induction Hreach as [|tr1 s2 t' e' s' _ IH Hstep'].
  - apply (reaches_step s0 [] s0 t e s1); [constructor|done].
  - rewrite app_comm_cons. by apply (reaches_step s0 (e :: tr1) s2 t' e' s').
Qed.

(** A schedule that runs is an execution. *)
Lemma run_schedule_reaches (sched : list task) (s0 s : system) (tr : list event) :
  run_schedule sched s0 = Some (tr, s) -> reaches s0 tr s.
Proof.
  revert s0 tr. induction sched as [|t sched IH]; intros s0 tr; simpl.
  - intros [= <- <-]. constructor.
  - destruct (run_task t s0) as [[e s1]|] eqn:Hstep; [|done]. simpl.
    destruct (run_schedule sched s1) as [[tr1 s2]|] eqn:Hrun; [|done]. simpl.
    intros [= <- <-]. apply (reaches_cons s0 s1 s2 t e tr1 Hstep). by apply IH.
Qed.

Lemma producer_semaphore_not_given_witness :
  (forall t, Give t ProducerSemaphore ∉ ([] : list event)) /\
  exists tr s, run_schedule first_round (started true false) = Some (tr, s) /\
               Take ConsumerTask ConsumerSemaphore ∈ tr.
Proof.
  destruct producer_semaphore_not_given as (_ & Hmain & Hgive). split.
  - by destruct (Hmain [] main (reaches_start main)) as (Hno & _).
  - destruct (run_schedule first_round (started true false))
      as [[tr s]|] eqn:Hrun; [|by vm_compute in Hrun].
    exists tr, s. split; [done|].
    apply run_schedule_reaches in Hrun as Hreach.
    destruct (run_task ConsumerTask s) as [[e s']|] eqn:Hstep.
    + assert (e = Give ConsumerTask ProducerSemaphore) as ->.
      { vm_compute in Hrun. injection Hrun as <- <-.
        vm_compute in Hstep. by injection Hstep as <- <-. }
      by destruct (Hgive true false tr s ConsumerTask ConsumerTask s' Hreach Hstep)
        as (_ & _ & Hin).
    + vm_compute in Hrun. injection Hrun as <- <-. by vm_compute in Hstep.
Defined.

(** * Further properties *)

(** ** More on the producer *)

(** One store of the producer on a well-formed state: it returns, keeps
    the state well formed and [buffer_tail] as it is, writes exactly one
    slot, which is not the one before [buffer_tail], and leaves the
    reading in the slot before the new [buffer_head]. *)
Lemma producer_store_spec (data : sensor_data_t) (st : buffer_state) :
  buffer_wf st ->
  exists st',
    producer_store data st = Some st' /\
    buffer_wf st' /\
    buffer_tail st' = buffer_tail st /\
    0 <= store_slot st < BUFFER_SIZE /\ store_slot st <> spared_slot st /\
    sensor_buffer st' = <[Z.to_nat (store_slot st) := data]> (sensor_buffer st) /\
    buffer_head st' = (store_slot st + 1) mod BUFFER_SIZE.
Proof.
  intros Hwf. pose proof Hwf as (Hlen & Hh & Ht).
  unfold producer_store, buffer_push, spared_slot, store_slot.
  rewrite next_head_mod by lia. unfold BUFFER_SIZE in *.
  case_decide as Hfull; [rewrite decide_False by done|rewrite decide_True by lia].
  - rewrite array_set_in_range by lia. cbn [mbind option_bind negb].
    eexists. split; [done|]. cbn [sensor_buffer buffer_head buffer_tail].
    assert (0 <= (buffer_head st + 1) mod 100 < 100) by (by apply Z.mod_pos_bound).
    split. { unfold buffer_wf, BUFFER_SIZE. cbn [sensor_buffer buffer_head buffer_tail]. rewrite length_insert. lia. }
    split; [done|]. split; [lia|]. split; [|done].
    intros Heq. apply Hfull. rewrite Heq.
    rewrite Zplus_mod_idemp_l. replace (buffer_tail st - 1 + 1) with (buffer_tail st) by lia.
    apply Z.mod_small. lia.
  - cbn [mbind option_bind negb set_head buffer_head buffer_tail sensor_buffer].
    assert ((buffer_head st + 1) mod 100 = buffer_tail st) as Hnext by lia.
    rewrite (Z.rem_mod_nonneg (buffer_head st + 1) 100), Hnext by lia.
    rewrite (Z.rem_mod_nonneg (buffer_tail st + 1) 100) by lia.
    assert (0 <= (buffer_tail st + 1) mod 100 < 100) by (by apply Z.mod_pos_bound).
    assert ((buffer_tail st + 1) mod 100 <> buffer_tail st) as Hne.
    { destruct (decide (buffer_tail st = 99)) as [->|]; [done|].
      rewrite Z.mod_small by lia. lia. }
    rewrite decide_True by done.
    rewrite array_set_in_range by lia. cbn [mbind option_bind].
    eexists. split; [done|]. cbn [sensor_buffer buffer_head buffer_tail].
    split. { unfold buffer_wf, BUFFER_SIZE. cbn [sensor_buffer buffer_head buffer_tail]. rewrite length_insert. lia. }
    split; [done|]. split; [lia|]. split; [|done].
    destruct (decide (buffer_tail st = 0)) as [->|]; [done|].
    rewrite Z.mod_small by lia. lia.
Qed.

Lemma array_get_insert {A} (a : list A) (w i : Z) (v : A) :
  0 <= w < Z.of_nat (length a) ->
  array_get (<[Z.to_nat w := v]> a) i
  = if decide (i = w) then Some v else array_get a i.
Proof.
  intros Hw. unfold array_get. case_decide as Hi.
  - case_decide as Hiw.
    + subst. apply list_lookup_insert_eq. lia.
    + apply list_lookup_insert_ne. lia.
  - case_decide; [lia|done].
Qed.

(** A batch on a well-formed state: it returns, keeps the state well
    formed and [buffer_tail] and the spared slot as they are, and every
    slot holds afterwards what it held or one of the 30 readings. *)
Lemma producer_batch_spec (bus : Z -> bus_sample) (st : buffer_state) :
  buffer_wf st ->
  exists st',
    producer_batch bus st = Some st' /\
    buffer_wf st' /\
    buffer_tail st' = buffer_tail st /\
    array_get (sensor_buffer st') (spared_slot st)
      = array_get (sensor_buffer st) (spared_slot st) /\
    (forall x, x ∈ sensor_buffer st' ->
               x ∈ sensor_buffer st \/
               exists i, 0 <= i < 30 /\ x = read_sensors (bus i)).
Proof.
  intros Hwf. unfold producer_batch.
  destruct (for_range_inv
    (fun k st' =>
       buffer_wf st' /\
       buffer_tail st' = buffer_tail st /\
       array_get (sensor_buffer st') (spared_slot st)
         = array_get (sensor_buffer st) (spared_slot st) /\
       (forall x, x ∈ sensor_buffer st' ->
                  x ∈ sensor_buffer st \/
                  exists i, 0 <= i < k /\ x = read_sensors (bus i)))
    (fun i st => producer_store (read_sensors (bus i)) st) 0 30 st)
    as (st' & Hloop & Hinv); [lia| |..].
  - split_and!; [done..|]. intros x Hx. by left.
  - intros k st1 Hk (Hwf1 & Htail1 & Hspared1 & Hin1).
    destruct (producer_store_spec (read_sensors (bus k)) st1 Hwf1)
      as (st2 & Hstore & Hwf2 & Htail2 & Hw & Hne & Hbuf & _).
    set (w := store_slot st1) in *.
    exists st2. split; [done|].
    destruct Hwf1 as (Hlen1 & _).
    split_and!; [done|congruence| |].
    + rewrite Hbuf, array_get_insert by (unfold BUFFER_SIZE in *; lia).
      rewrite decide_False; [done|].
      unfold spared_slot in *. by rewrite <- Htail1.
    + intros x Hx. rewrite Hbuf in Hx.
      apply list_elem_of_lookup in Hx as [j Hj].
      destruct (decide (j = Z.to_nat w)) as [->|Hjw].
      * rewrite list_lookup_insert_eq in Hj by (unfold BUFFER_SIZE in *; lia).
        injection Hj as <-. right. exists k. split; [lia|done].
      * rewrite list_lookup_insert_ne in Hj by done.
        apply list_elem_of_lookup_2 in Hj.
        destruct (Hin1 x Hj) as [?|(i & Hi & ->)]; [by left|].
        right. exists i. split; [lia|done].
  - by exists st'.
Qed.

(** A store into a buffer that is not full is a push at [buffer_head]. *)
Lemma producer_store_not_full (data : sensor_data_t) (st : buffer_state) :
  buffer_wf st ->
  buffer_tail st <= buffer_head st -> buffer_head st + 1 < BUFFER_SIZE ->
  producer_store data st =
    Some {| sensor_buffer := <[Z.to_nat (buffer_head st) := data]> (sensor_buffer st);
            buffer_head := buffer_head st + 1;
            buffer_tail := buffer_tail st |}.
Proof.
  intros (Hlen & Hh & Ht) Hth Hroom.
  unfold producer_store, buffer_push.
  rewrite next_head_mod by lia. rewrite Z.mod_small by lia.
  rewrite decide_True by lia.
  rewrite array_set_in_range by lia. done.
Qed.

Lemma producer_batch_rounds (bus : Z -> bus_sample) (st : buffer_state) (n : Z) :
  buffer_wf st ->
  buffer_tail st <= buffer_head st -> 0 <= n -> buffer_head st + n < BUFFER_SIZE ->
  exists st',
    for_range 0 n (fun i st => producer_store (read_sensors (bus i)) st) st
      = Some st' /\
    buffer_wf st' /\
    buffer_head st' = buffer_head st + n /\
    buffer_tail st' = buffer_tail st /\
    forall i, array_get (sensor_buffer st') i =
              if decide (buffer_head st <= i < buffer_head st + n)
              then Some (read_sensors (bus (i - buffer_head st)))
              else array_get (sensor_buffer st) i.
Proof.
  intros Hwf Hth Hn Hroom.
  destruct (for_range_inv
    (fun k st' =>
       buffer_wf st' /\
       buffer_head st' = buffer_head st + k /\
       buffer_tail st' = buffer_tail st /\
       forall i, array_get (sensor_buffer st') i =
                 if decide (buffer_head st <= i < buffer_head st + k)
                 then Some (read_sensors (bus (i - buffer_head st)))
                 else array_get (sensor_buffer st) i)
    (fun i st => producer_store (read_sensors (bus i)) st) 0 n st)
    as (st' & Hloop & Hinv); [lia| |..].
  - split_and!; [done|lia|done|]. intros i. by rewrite decide_False by lia.
  - intros k st1 Hk (Hwf1 & Hhead1 & Htail1 & Hslots1).
    rewrite producer_store_not_full by (done || lia).
    eexists; split; [done|].
    pose proof Hwf as (_ & Hh & _). pose proof Hwf1 as (Hlen1 & _ & Ht1).
    cbn [sensor_buffer buffer_head buffer_tail].
    split_and!; [|lia|done|].
    + unfold buffer_wf. cbn [sensor_buffer buffer_head buffer_tail].
      rewrite length_insert. split; [done|]. lia.
    + intros i. rewrite array_get_insert by lia. rewrite Hslots1, Hhead1.
      destruct (decide (i = buffer_head st + k)) as [->|Hi].
      * rewrite decide_True by lia. do 3 f_equal. lia.
      * destruct (decide (buffer_head st <= i < buffer_head st + k));
          [by rewrite decide_True by lia|by rewrite decide_False by lia].
  - by exists st'.
Qed.

(** What every round of the producer keeps, from reset on: the state is
    well formed, [buffer_tail] is 0 and the last slot holds the zero
    reading it was reset to. *)
Lemma producer_batches_spec (buses : list (Z -> bus_sample)) (st : buffer_state) :
  buffer_wf st -> buffer_tail st = 0 ->
  exists st',
    producer_batches buses st = Some st' /\
    buffer_wf st' /\ buffer_tail st' = 0 /\
    array_get (sensor_buffer st') 99 = array_get (sensor_buffer st) 99 /\
    (forall x, x ∈ sensor_buffer st' ->
               x ∈ sensor_buffer st \/
               exists bus i, bus ∈ buses /\ 0 <= i < 30 /\ x = read_sensors (bus i)).
Proof.
  revert st. induction buses as [|bus buses IH]; intros st Hwf Htail; simpl.
  - exists st. split_and!; [done..|]. intros x Hx. by left.
  - destruct (producer_batch_spec bus st Hwf)
      as (st1 & -> & Hwf1 & Htail1 & Hspared1 & Hin1).
    cbn [mbind option_bind].
    destruct (IH st1 Hwf1) as (st2 & Hrun & Hwf2 & Htail2 & Hlast2 & Hin2);
      [congruence|].
    exists st2. split_and!; [done..| |].
    + rewrite Hlast2. unfold spared_slot in Hspared1. rewrite Htail in Hspared1.
      exact Hspared1.
    + intros x Hx. destruct (Hin2 x Hx) as [Hx1|(b & i & Hb & Hi & ->)].
      * destruct (Hin1 x Hx1) as [?|(i & Hi & ->)]; [by left|].
        right. exists bus, i. split; [apply elem_of_cons; by left|done].
      * right. exists b, i. split; [apply elem_of_cons; by right|done].
Qed.

(** ** Sensor readings *)

(** Two bytes joined by shift and or make [256 * b0 + b1]. *)
Lemma join_bytes (b0 b1 : Z) :
  uint8 b0 -> uint8 b1 -> Z.lor (Z.shiftl b0 8) b1 = 256 * b0 + b1.
Proof.
  unfold uint8. intros H0 H1. rewrite Z.shiftl_mul_pow2 by lia.
  assert (Z.land (b0 * 2 ^ 8) b1 = 0) as Hland.
  { apply Z.bits_inj'. intros n Hn. rewrite Z.land_spec, Z.bits_0.
    destruct (Z.lt_ge_cases n 8) as [Hlow|Hhigh].
    - by rewrite Z.mul_pow2_bits_low by lia.
    - destruct (decide (b1 = 0)) as [->|Hb1];
        [by rewrite Z.bits_0, andb_false_r|].
      rewrite (Z.bits_above_log2 b1 n), andb_false_r; [done|lia|].
      assert (Z.log2 b1 < 8); [|lia]. apply Z.log2_lt_pow2; lia. }
  rewrite <- Z.lxor_lor, <- Z.add_nocarry_lxor by done. lia.
Qed.

Lemma of_Z_numeric (k : Z) : 0 <= k < 2 ^ 24 -> numeric (F32.of_Z k).
Proof.
  intros Hk. destruct k as [|k|k]; [done| |lia].
  by rewrite of_Z_pos_exact by lia.
Qed.

Lemma sensor_value_facts (v : float) :
  sensor_value v ->
  numeric v /\ f32_le F32.zero v /\ f32_le v (F32.of_Z 65535) /\
  (f32_le v F32.zero -> v = F32.zero).
Proof.
  intros (k & Hk & ->). change F32.zero with (F32.of_Z 0).
  change (2 ^ 24) with 16777216 in *.
  split_and!.
  - apply of_Z_numeric. lia.
  - apply of_Z_le; lia.
  - apply of_Z_le; lia.
  - intros Hle. apply of_Z_le in Hle; [|lia..].
    by replace k with 0 by lia.
Qed.


Lemma i2c_read_sensor_data_sensor_value (rx : i2c_frame) :
  frame_in_range rx -> sensor_value (i2c_read_sensor_data rx).
Proof.
  intros [H0 H1]. exists (256 * fst rx + snd rx). unfold i2c_read_sensor_data.
  rewrite join_bytes by done. unfold uint8 in *. split; [lia|done].
Qed.

(** ** The consumer on what the producer stores *)

(** A consumer cycle on a buffer of the declared size returns, and its
    twelve results are the statistics of the three columns of the
    buffer. *)
Lemma consumer_cycle_columns `{Libm} (st : buffer_state) (stack : consumer_arrays) :
  length (sensor_buffer st) = Z.to_nat BUFFER_SIZE ->
  arrays_declared stack ->
  exists r,
    consumer_cycle stack st = Some r /\
    calculate_min (PIR <$> sensor_buffer st) BUFFER_SIZE = Some (pir_min r) /\
    calculate_min (humidity_and_heat <$> sensor_buffer st) BUFFER_SIZE
      = Some (humidity_and_heat_min r) /\
    calculate_min (LDR <$> sensor_buffer st) BUFFER_SIZE = Some (ldr_min r) /\
    calculate_max (PIR <$> sensor_buffer st) BUFFER_SIZE = Some (pir_max r) /\
    calculate_max (humidity_and_heat <$> sensor_buffer st) BUFFER_SIZE
      = Some (humidity_and_heat_max r) /\
    calculate_max (LDR <$> sensor_buffer st) BUFFER_SIZE = Some (ldr_max r) /\
    fst <$> calculate_median (PIR <$> sensor_buffer st) BUFFER_SIZE
      = Some (pir_median r) /\
    fst <$> calculate_median (humidity_and_heat <$> sensor_buffer st) BUFFER_SIZE
      = Some (humidity_and_heat_median r) /\
    fst <$> calculate_median (LDR <$> sensor_buffer st) BUFFER_SIZE
      = Some (ldr_median r).
Proof.
  intros Hlen Hstack.
  unfold consumer_cycle. rewrite (copy_out_whole_array st stack Hlen Hstack).
  cbn [mbind option_bind]. unfold consumer_statistics.
  cbn [pir_data humidity_and_heat_data ldr_data].
  destruct (four_statistics_return (PIR <$> sensor_buffer st))
    as (sd1 & mx1 & mn1 & md1 & x1 & -> & -> & -> & ->);
    [by rewrite length_fmap|].
  destruct (four_statistics_return (humidity_and_heat <$> sensor_buffer st))
    as (sd2 & mx2 & mn2 & md2 & x2 & -> & -> & -> & ->);
    [by rewrite length_fmap|].
  destruct (four_statistics_return (LDR <$> sensor_buffer st))
    as (sd3 & mx3 & mn3 & md3 & x3 & -> & -> & -> & ->);
    [by rewrite length_fmap|].
  cbn [mbind option_bind]. eexists. split; [reflexivity|].
  by split_and!.
Qed.

Lemma read_sensors_sensor_slot (rx : bus_sample) :
  bus_in_range rx -> sensor_slot (read_sensors rx).
Proof.
  intros (Hp & Hh & Hl). split_and!; by apply i2c_read_sensor_data_sensor_value.
Qed.

Lemma zero_reading_sensor_slot : sensor_slot zero_reading.
Proof. split_and!; by exists 0. Qed.

(** The minimum of a column of sensor values one of which is 0 is 0. *)
Lemma calculate_min_zero (x : list float) (count : Z) (m : float) :
  1 <= count <= Z.of_nat (length x) ->
  Forall sensor_value (take (Z.to_nat count) x) ->
  F32.zero ∈ take (Z.to_nat count) x ->
  calculate_min x count = Some m -> m = F32.zero.
Proof.
  intros Hc Hvalues Hzero Hm.
  destruct (calculate_min_spec x count Hc) as (m' & Hm' & Hin & Hall).
  rewrite Hm in Hm'. injection Hm' as <-.
  rewrite Forall_forall in Hvalues.
  destruct (sensor_value_facts m (Hvalues m Hin)) as (_ & _ & _ & Honly).
  apply Honly.
  assert (Forall numeric (take (Z.to_nat count) x)) as Hnum.
  { apply Forall_forall. intros v Hv. by apply sensor_value_facts, Hvalues. }
  specialize (Hall Hnum). rewrite Forall_forall in Hall. by apply Hall.
Qed.

(** After any number of batches from reset, on frames of bytes, every
    slot holds sensor values and the last slot the zero reading. *)
Lemma producer_batches_slots (buses : list (Z -> bus_sample)) :
  (forall bus i, bus ∈ buses -> bus_in_range (bus i)) ->
  exists st,
    producer_batches buses initial_buffer = Some st /\
    buffer_wf st /\ buffer_tail st = 0 /\
    sensor_buffer st !! 99%nat = Some zero_reading /\
    Forall sensor_slot (sensor_buffer st).
Proof.
  intros Hbytes.
  destruct (producer_batches_spec buses initial_buffer initial_buffer_wf eq_refl)
    as (st & Hrun & Hwf & Htail & Hlast & Hin).
  exists st. split_and!; [done..| |].
  - rewrite array_get_lookup in Hlast by done.
    change (Z.to_nat 99) with 99%nat in Hlast. rewrite Hlast. reflexivity.
  - apply Forall_forall. intros x Hx.
    destruct (Hin x Hx) as [Hx0|(bus & i & Hbus & _ & ->)].
    + apply elem_of_replicate in Hx0 as [-> _]. apply zero_reading_sensor_slot.
    + by apply read_sensors_sensor_slot, Hbytes.
Qed.

(** ** The ring the producer fills *)

(** With [buffer_tail = 0] the store number [k] writes slot [k mod 99]. *)
Lemma ring_store_slot (k : Z) (st : buffer_state) :
  0 <= k -> buffer_tail st = 0 ->
  buffer_head st = (if decide (k = 0) then 0 else (k - 1) mod 99 + 1) ->
  store_slot st = k mod 99.
Proof.
  intros Hk Htail Hhead. unfold store_slot, BUFFER_SIZE. rewrite Htail, Hhead.
  destruct (decide (k = 0)) as [->|Hk0]; [done|].
  case_decide as Hfull; revert Hfull; Z.div_mod_to_equations; lia.
Qed.

Lemma ring_store (reading : Z -> sensor_data_t) (k : Z) (st : buffer_state) :
  0 <= k -> ring_after reading k st ->
  exists st', producer_store (reading k) st = Some st' /\
              ring_after reading (k + 1) st'.
Proof.
  intros Hk (Hwf & Htail & Hhead & Hslots).
  destruct (producer_store_spec (reading k) st Hwf)
    as (st' & Hstore & Hwf' & Htail' & Hw & _ & Hbuf & Hhead').
  rewrite (ring_store_slot k st Hk Htail Hhead) in *.
  exists st'. split; [done|]. pose proof Hwf as (Hlen & _).
  split_and!; [done|congruence| |].
  - rewrite Hhead', decide_False by lia. unfold BUFFER_SIZE.
    replace (k + 1 - 1) with k by lia.
    apply Z.mod_small. Z.div_mod_to_equations. lia.
  - intros j Hj Hwin. rewrite Hbuf, array_get_insert by lia.
    destruct (decide (j = k)) as [->|Hjk]; [by rewrite decide_True|].
    rewrite decide_False; [apply Hslots; lia|].
    Z.div_mod_to_equations. lia.
Qed.

Lemma ring_stores (reading : Z -> sensor_data_t) (k n : Z) (st : buffer_state)
    (body : Z -> sensor_data_t) :
  0 <= k -> 0 <= n -> ring_after reading k st ->
  (forall i, 0 <= i < n -> body i = reading (k + i)) ->
  exists st',
    for_range 0 n (fun i st => producer_store (body i) st) st = Some st' /\
    ring_after reading (k + n) st'.
Proof.
  intros Hk Hn Hring Hbody.
  destruct (for_range_inv (fun i st' => ring_after reading (k + i) st')
              (fun i st => producer_store (body i) st) 0 n st)
    as (st' & Hloop & Hring'); [lia| |..].
  - by replace (k + 0) with k by lia.
  - intros i st1 Hi Hring1. rewrite Hbody by lia.
    replace (k + (i + 1)) with (k + i + 1) by lia.
    apply ring_store; [lia|done].
  - by exists st'.
Qed.

Lemma reading_number_batch (done_ rest : list (Z -> bus_sample))
    (bus : Z -> bus_sample) (i : Z) :
  0 <= i < 30 ->
  read_sensors (bus i)
  = reading_number (done_ ++ bus :: rest) (30 * Z.of_nat (length done_) + i).
Proof.
  intros Hi. unfold reading_number.
  replace ((30 * Z.of_nat (length done_) + i) / 30) with (Z.of_nat (length done_))
    by (Z.div_mod_to_equations; lia).
  replace ((30 * Z.of_nat (length done_) + i) mod 30) with i
    by (Z.div_mod_to_equations; lia).
  rewrite Nat2Z.id, lookup_app_r, Nat.sub_diag by lia. done.
Qed.

Lemma ring_batches (buses done_ rest : list (Z -> bus_sample)) (st : buffer_state) :
  buses = done_ ++ rest ->
  ring_after (reading_number buses) (30 * Z.of_nat (length done_)) st ->
  exists st',
    producer_batches rest st = Some st' /\
    ring_after (reading_number buses) (30 * Z.of_nat (length buses)) st'.
Proof.
  revert done_ st. induction rest as [|bus rest IH]; intros done_ st -> Hring.
  - exists st. split; [done|]. by rewrite app_nil_r in *.
  - simpl. unfold producer_batch.
    destruct (ring_stores (reading_number (done_ ++ bus :: rest))
                (30 * Z.of_nat (length done_)) 30 st
                (fun i => read_sensors (bus i)))
      as (st1 & -> & Hring1); [lia|lia|done| |].
    { intros i Hi. by apply reading_number_batch. }
    cbn [mbind option_bind].
    apply (IH (done_ ++ [bus])).
    + by rewrite <- app_assoc.
    + rewrite length_app. simpl length.
      replace (30 * Z.of_nat (length done_ + 1)) with (30 * Z.of_nat (length done_) + 30)
        by lia.
      done.
Qed.

(** ** The sort on a sorted array *)

Lemma f32_le_not_gt (a b : float) : f32_le a b -> F32.gtb a b = false.
Proof.
  unfold f32_le, F32.leb, SFleb, F32.gtb, F32.ltb, SFltb.
  rewrite (SFcompare_swap a b). by destruct (SFcompare a b) as [[]|].
Qed.

(** On an array whose first [count] elements are in ascending order the
    two loops exchange nothing. *)
Lemma sort_in_place_sorted (data : list float) (count : Z) :
  1 <= count <= Z.of_nat (length data) -> count < UINT32_MOD ->
  StronglySorted f32_le (take (Z.to_nat count) data) ->
  sort_in_place data count = Some data.
Proof.
  intros Hc Hu Hsorted. unfold sort_in_place, u32. rewrite Z.mod_small by lia.
  destruct (for_range_inv (fun _ d => d = data)
              (fun i d => for_range (i + 1) count (sort_step i) d)
              0 (count - 1) data) as (d & -> & ->); [lia|done| |done].
  intros i d Hi ->.
  destruct (for_range_inv (fun _ d => d = data) (sort_step i)
              (i + 1) count data) as (d & -> & ->); [lia|done| |by exists data].
  intros j d Hj ->. exists data. split; [|done].
  destruct (sort_step_in_range i j data) as (x & y & Hx & Hy & ->); [lia..|].
  rewrite f32_le_not_gt; [done|].
  apply (StronglySorted_lookup_le f32_le (take (Z.to_nat count) data)
           (Z.to_nat i) (Z.to_nat j)); [done|lia|..];
    by rewrite lookup_take_lt by lia.
Qed.

(** ** The critical sections and the turns of the handshake *)

Lemma run_task_mutex_agrees (t : task) (s s' : system) (e : event) :
  run_task t s = Some (e, s') -> mutex_agrees s = true -> mutex_agrees s' = true.
Proof.
  destruct s as [[] [] [] [] [[]|]], t; cbn; intros Hstep Hok;
    try discriminate; injection Hstep as <- <-; done.
Qed.

Lemma reaches_mutex_agrees (p c : bool) (tr : list event) (s : system) :
  reaches (started p c) tr s -> mutex_agrees s = true.
Proof.
  induction 1 as [|tr s t e s' _ IH Hstep]; [done|].
  by apply (run_task_mutex_agrees t s s' e).
Qed.

Lemma run_task_turn (t : task) (s s' : system) (e : event) (b : bool) :
  run_task t s = Some (e, s') -> turn s = Some b ->
  match e with
  | Batch => b = true /\ turn s' = Some false
  | CopyOut => b = false /\ turn s' = Some true
  | _ => turn s' = Some b
  end.
Proof.
  destruct s as [[] [] [] [] [[]|]], t; cbn; intros Hstep Hturn;
    try discriminate; injection Hstep as <- <-; injection Hturn as <-; done.
Qed.

Lemma alternates_snoc (b : bool) (tr : list event) (e : event) :
  alternates b (tr ++ [e]) =
    alternates b tr &&
    match e with
    | Batch => turn_after b tr
    | CopyOut => negb (turn_after b tr)
    | _ => true
    end
  /\ turn_after b (tr ++ [e]) =
     match e with
     | Batch => false
     | CopyOut => true
     | _ => turn_after b tr
     end.
Proof.
  revert b. induction tr as [|e' tr IH]; intros b.
  - destruct e, b; done.
  - destruct e'; simpl;
      try (destruct (IH b) as [-> ->]; done);
      [destruct (IH false) as [-> ->]|destruct (IH true) as [-> ->]];
      by rewrite andb_assoc.
Qed.

Lemma reaches_turn (tr : list event) (s : system) :
  reaches (started true false) tr s ->
  alternates true tr = true /\ turn s = Some (turn_after true tr).
Proof.
  induction 1 as [|tr s t e s' _ [IHalt IHturn] Hstep]; [done|].
  pose proof (run_task_turn t s s' e _ Hstep IHturn) as Hnext.
  destruct (alternates_snoc true tr e) as [-> ->]. rewrite IHalt.
  destruct e; try done; by destruct Hnext as [-> ->].
Qed.

(** ** Properties of the buffer and of the producer *)

(** X1. [buffer_push] on a well-formed state returns (it stores inside the
    array) and leaves a well-formed state: the array keeps its size and
    both indices stay in [0, BUFFER_SIZE). *)
Theorem buffer_push_keeps_wf (data : sensor_data_t) (st : buffer_state) :
  buffer_wf st ->
  exists r st', buffer_push data st = Some (r, st') /\ buffer_wf st'.
Proof.
  intros Hwf.
  destruct (buffer_push data st) as [[r st']|] eqn:Hpush.
  - exists r, st'. split; [done|]. by apply (buffer_push_wf data st st' r).
  - exfalso. revert Hpush. destruct Hwf as (Hlen & Hh & _).
    unfold buffer_push. case_decide; [|done].
    by rewrite array_set_in_range by lia.
Qed.

Lemma buffer_push_keeps_wf_witness :
  exists r st', buffer_push reading_7 full_buffer = Some (r, st') /\ buffer_wf st'.
Proof. exact (buffer_push_keeps_wf reading_7 full_buffer full_buffer_wf). Defined.

(** X2. The statement [if (!buffer_push(d)) { ... buffer_push(d); }] of the
    producer, on a well-formed state, always stores the reading: it
    returns a well-formed state with the same [buffer_tail] in which the
    slot before the new [buffer_head] holds [d]. No reading is dropped,
    full buffer or not. *)
Theorem producer_store_keeps_newest (data : sensor_data_t) (st : buffer_state) :
  buffer_wf st ->
  exists st',
    producer_store data st = Some st' /\
    buffer_wf st' /\
    buffer_tail st' = buffer_tail st /\
    array_get (sensor_buffer st') ((buffer_head st' - 1) mod BUFFER_SIZE)
      = Some data.
Proof.
  intros Hwf.
  destruct (producer_store_spec data st Hwf)
    as (st' & Hstore & Hwf' & Htail & Hw & _ & Hbuf & Hhead).
  exists st'. split_and!; [done..|].
  destruct Hwf as (Hlen & _). unfold BUFFER_SIZE in *.
  rewrite Hhead, Hbuf, array_get_insert by lia.
  rewrite decide_True; [done|]. Z.div_mod_to_equations. lia.
Qed.

Lemma producer_store_keeps_newest_witness :
  exists st',
    producer_store reading_7 full_buffer = Some st' /\
    buffer_wf st' /\
    buffer_tail st' = buffer_tail full_buffer /\
    array_get (sensor_buffer st') ((buffer_head st' - 1) mod BUFFER_SIZE)
      = Some reading_7.
Proof. exact (producer_store_keeps_newest reading_7 full_buffer full_buffer_wf). Defined.

(** X3. A store of the producer writes exactly one slot: the reading goes
    to [buffer_head] or, on a full buffer, to [buffer_tail]; every other
    slot is as before and the array keeps its size; the slot before
    [buffer_tail] is never the one written. *)
Theorem producer_store_writes_one_slot (data : sensor_data_t) (st : buffer_state) :
  buffer_wf st ->
  exists st',
    producer_store data st = Some st' /\
    0 <= store_slot st < BUFFER_SIZE /\
    sensor_buffer st'
      = <[Z.to_nat (store_slot st) := data]> (sensor_buffer st) /\
    array_get (sensor_buffer st') (store_slot st) = Some data /\
    (forall i, i <> store_slot st ->
               array_get (sensor_buffer st') i = array_get (sensor_buffer st) i) /\
    store_slot st <> (buffer_tail st - 1) mod BUFFER_SIZE.
Proof.
  intros Hwf.
  destruct (producer_store_spec data st Hwf)
    as (st' & Hstore & _ & _ & Hw & Hne & Hbuf & _).
  exists st'. destruct Hwf as (Hlen & _). unfold BUFFER_SIZE in *.
  split; [done|]. split; [done|]. split; [done|]. split; [|split; [|done]].
  - rewrite Hbuf, array_get_insert by lia. by rewrite decide_True.
  - intros i Hi. rewrite Hbuf, array_get_insert by lia. by rewrite decide_False.
Qed.

Lemma producer_store_writes_one_slot_witness :
  exists st',
    producer_store reading_7 full_buffer = Some st' /\
    0 <= store_slot full_buffer < BUFFER_SIZE /\
    sensor_buffer st'
      = <[Z.to_nat (store_slot full_buffer) := reading_7]> (sensor_buffer full_buffer) /\
    array_get (sensor_buffer st') (store_slot full_buffer) = Some reading_7 /\
    (forall i, i <> store_slot full_buffer ->
               array_get (sensor_buffer st') i
               = array_get (sensor_buffer full_buffer) i) /\
    store_slot full_buffer <> (buffer_tail full_buffer - 1) mod BUFFER_SIZE.
Proof. exact (producer_store_writes_one_slot reading_7 full_buffer full_buffer_wf). Defined.

(** X4. A batch on a well-formed state returns a well-formed state with the
    same [buffer_tail]: the producer never moves the read index and
    never stores outside the array. *)
Theorem producer_batch_keeps_wf (bus : Z -> bus_sample) (st : buffer_state) :
  buffer_wf st ->
  exists st',
    producer_batch bus st = Some st' /\
    buffer_wf st' /\ buffer_tail st' = buffer_tail st.
Proof.
  intros Hwf.
  destruct (producer_batch_spec bus st Hwf) as (st' & Hrun & Hwf' & Htail & _).
  by exists st'.
Qed.

Lemma producer_batch_keeps_wf_witness :
  exists st',
    producer_batch counting_bus full_buffer = Some st' /\
    buffer_wf st' /\ buffer_tail st' = buffer_tail full_buffer.
Proof. exact (producer_batch_keeps_wf counting_bus full_buffer full_buffer_wf). Defined.

(** X5. A batch that finds room for its 30 readings ([buffer_tail] not above
    [buffer_head], and [buffer_head + 30] below [BUFFER_SIZE]) stores
    them in the order read, in the 30 slots from [buffer_head] on, moves
    [buffer_head] by 30 and changes no other slot. *)
Theorem producer_batch_in_order (bus : Z -> bus_sample) (st : buffer_state) :
  buffer_wf st ->
  buffer_tail st <= buffer_head st -> buffer_head st + 30 < BUFFER_SIZE ->
  exists st',
    producer_batch bus st = Some st' /\
    buffer_head st' = buffer_head st + 30 /\
    buffer_tail st' = buffer_tail st /\
    forall i, array_get (sensor_buffer st') i =
              if decide (buffer_head st <= i < buffer_head st + 30)
              then Some (read_sensors (bus (i - buffer_head st)))
              else array_get (sensor_buffer st) i.
Proof.
  intros Hwf Hth Hroom.
  destruct (producer_batch_rounds bus st 30 Hwf Hth) as (st' & Hrun & _ & Hrest);
    [lia|done|].
  by exists st'.
Qed.

Lemma producer_batch_in_order_witness :
  exists st',
    producer_batch counting_bus initial_buffer = Some st' /\
    buffer_head st' = buffer_head initial_buffer + 30 /\
    buffer_tail st' = buffer_tail initial_buffer /\
    forall i, array_get (sensor_buffer st') i =
              if decide (buffer_head initial_buffer <= i
                         < buffer_head initial_buffer + 30)
              then Some (read_sensors (counting_bus (i - buffer_head initial_buffer)))
              else array_get (sensor_buffer initial_buffer) i.
Proof.
  apply (producer_batch_in_order counting_bus initial_buffer initial_buffer_wf).
  - by vm_compute.
  - by vm_compute.
Defined.

(** X6. From reset, after any number of batches: the producer has returned
    from each, [buffer_tail] is still 0, slot 99 still holds the zero
    reading of reset, and the latest 99 readings are in the buffer,
    reading number [k] (counted from 0 over all batches) in slot
    [k mod 99]. The ring works on 99 of the 100 slots. *)
Theorem producer_batches_ring (buses : list (Z -> bus_sample)) :
  exists st,
    producer_batches buses initial_buffer = Some st /\
    buffer_wf st /\
    buffer_tail st = 0 /\
    array_get (sensor_buffer st) 99 = Some zero_reading /\
    forall k, 0 <= k < 30 * Z.of_nat (length buses) ->
              30 * Z.of_nat (length buses) - 99 <= k ->
              array_get (sensor_buffer st) (k mod 99)
              = Some (reading_number buses k).
Proof.
  destruct (ring_batches buses [] buses initial_buffer eq_refl)
    as (st & Hrun & Hwf & Htail & _ & Hslots).
  { split_and!; [apply initial_buffer_wf|done|done|]. simpl. lia. }
  destruct (producer_batches_spec buses initial_buffer initial_buffer_wf eq_refl)
    as (st1 & Hrun1 & _ & _ & Hlast & _).
  rewrite Hrun in Hrun1. injection Hrun1 as <-.
  exists st. split_and!; [done..| |done].
  rewrite Hlast. reflexivity.
Qed.

(** ** Properties of the readings and of the statistics *)



(** X8. [calculate_max] on [n >= 1] numbers returns one of them, and none of
    them is above it. *)
Theorem calculate_max_is_maximum (data : list float) (count : Z) :
  1 <= count <= Z.of_nat (length data) ->
  Forall numeric (take (Z.to_nat count) data) ->
  exists m,
    calculate_max data count = Some m /\
    m ∈ take (Z.to_nat count) data /\
    Forall (fun x => f32_le x m) (take (Z.to_nat count) data).
Proof.
  intros Hc Hnum.
  destruct (calculate_max_spec data count Hc) as (m & Hm & Hin & Hall).
  exists m. split_and!; [done..|by apply Hall].
Qed.

Lemma calculate_max_is_maximum_witness :
  exists m,
    calculate_max sample_2_4_1 3 = Some m /\
    m ∈ take (Z.to_nat 3) sample_2_4_1 /\
    Forall (fun x => f32_le x m) (take (Z.to_nat 3) sample_2_4_1).
Proof.
  apply (calculate_max_is_maximum sample_2_4_1 3).
  - by vm_compute.
  - vm_compute. by repeat constructor.
Defined.

(** X9. [calculate_min] on [n >= 1] numbers returns one of them, and none of
    them is below it. *)
Theorem calculate_min_is_minimum (data : list float) (count : Z) :
  1 <= count <= Z.of_nat (length data) ->
  Forall numeric (take (Z.to_nat count) data) ->
  exists m,
    calculate_min data count = Some m /\
    m ∈ take (Z.to_nat count) data /\
    Forall (fun x => f32_le m x) (take (Z.to_nat count) data).
Proof.
  intros Hc Hnum.
  destruct (calculate_min_spec data count Hc) as (m & Hm & Hin & Hall).
  exists m. split_and!; [done..|by apply Hall].
Qed.

Lemma calculate_min_is_minimum_witness :
  exists m,
    calculate_min sample_2_4_1 3 = Some m /\
    m ∈ take (Z.to_nat 3) sample_2_4_1 /\
    Forall (fun x => f32_le m x) (take (Z.to_nat 3) sample_2_4_1).
Proof.
  apply (calculate_min_is_minimum sample_2_4_1 3).
  - by vm_compute.
  - vm_compute. by repeat constructor.
Defined.

(** X10. [calculate_median] called again on the array a first call has left
    returns the same value and leaves the array as it is: on an array
    already in ascending order the sort exchanges nothing. *)
Theorem calculate_median_idempotent (data : list float) (count : Z) :
  1 <= count <= Z.of_nat (length data) -> count < UINT32_MOD ->
  Forall numeric (take (Z.to_nat count) data) ->
  exists m data',
    calculate_median data count = Some (m, data') /\
    calculate_median data' count = Some (m, data').
Proof.
  intros Hc Hu Hnum.
  destruct (sort_in_place_spec data count Hc Hu) as (s & Hsort & Hlen & _ & Hord).
  destruct (calculate_median_spec data count Hc Hu) as (s' & m & Hmed & _).
  assert (s' ++ drop (Z.to_nat count) data = s ++ drop (Z.to_nat count) data) as Heq.
  { revert Hmed. unfold calculate_median. rewrite Hsort. cbn [mbind option_bind].
    case_decide; intros Hmed;
      repeat (match type of Hmed with
              | context [array_get ?a ?i] => destruct (array_get a i); [|done]
              end; cbn [mbind option_bind] in Hmed);
      by injection Hmed as _ <-. }
  rewrite Heq in Hmed. exists m, (s ++ drop (Z.to_nat count) data).
  split; [done|].
  assert (sort_in_place (s ++ drop (Z.to_nat count) data) count
          = Some (s ++ drop (Z.to_nat count) data)) as Hsort2.
  { apply sort_in_place_sorted; [|done|].
    - rewrite length_app, length_drop. lia.
    - rewrite take_app_length' by done. by apply Hord. }
  revert Hmed. unfold calculate_median. by rewrite Hsort, Hsort2.
Qed.

Lemma calculate_median_idempotent_witness :
  exists m data',
    calculate_median sample_4_2_1 3 = Some (m, data') /\
    calculate_median data' 3 = Some (m, data').
Proof.
  apply (calculate_median_idempotent sample_4_2_1 3).
  - by vm_compute.
  - by vm_compute.
  - vm_compute. by repeat constructor.
Defined.

(** X11. Every summary the consumer computes after any number of batches
    since reset, the bus delivering bytes, has its three minima equal to
    0: slot 99 of the buffer is never written and still holds the zero
    reading, and no sensor value is below 0. *)
Theorem consumer_minima_are_zero `{Libm}
    (buses : list (Z -> bus_sample)) (stack : consumer_arrays) :
  (forall bus i, bus ∈ buses -> bus_in_range (bus i)) ->
  arrays_declared stack ->
  exists st r,
    producer_batches buses initial_buffer = Some st /\
    consumer_cycle stack st = Some r /\
    pir_min r = F32.zero /\
    humidity_and_heat_min r = F32.zero /\
    ldr_min r = F32.zero.
Proof.
  intros Hbytes Hstack.
  destruct (producer_batches_slots buses Hbytes)
    as (st & Hrun & (Hlen & _) & _ & Hlast & Hslots).
  destruct (consumer_cycle_columns st stack Hlen Hstack)
    as (r & Hr & Hpir & Hhh & Hldr & _).
  exists st, r. split; [done|]. split; [done|].
  assert (forall (f : sensor_data_t -> float) (m : float),
            (forall x, sensor_slot x -> sensor_value (f x)) ->
            f zero_reading = F32.zero ->
            calculate_min (f <$> sensor_buffer st) BUFFER_SIZE = Some m ->
            m = F32.zero) as Hmin.
  { intros f m Hf Hzero Hm.
    assert (take (Z.to_nat BUFFER_SIZE) (f <$> sensor_buffer st)
            = f <$> sensor_buffer st) as Htake
      by (apply take_ge; rewrite length_fmap; lia).
    apply (calculate_min_zero (f <$> sensor_buffer st) BUFFER_SIZE).
    - rewrite length_fmap, Hlen. by vm_compute.
    - rewrite Htake. apply Forall_fmap. eapply Forall_impl; [done|]. apply Hf.
    - rewrite Htake, <- Hzero. apply list_elem_of_fmap_2.
      by apply list_elem_of_lookup_2 in Hlast.
    - done. }
  split_and!.
  - apply (Hmin PIR); [by intros x (? & _)|done|done].
  - apply (Hmin humidity_and_heat); [by intros x (_ & ? & _)|done|done].
  - apply (Hmin LDR); [by intros x (_ & _ & ?)|done|done].
Qed.

Lemma counting_bus_in_range (i : Z) : bus_in_range (counting_bus i).
Proof.
  pose proof (Z.mod_pos_bound i 256 ltac:(lia)).
  repeat split; simpl; lia.
Qed.

Lemma consumer_minima_are_zero_witness :
  exists st r,
    producer_batches [counting_bus; counting_bus] initial_buffer = Some st /\
    consumer_cycle (H := libm_square) garbage_stack st = Some r /\
    pir_min r = F32.zero /\
    humidity_and_heat_min r = F32.zero /\
    ldr_min r = F32.zero.
Proof.
  apply (consumer_minima_are_zero (H := libm_square)).
  - intros bus i. rewrite !elem_of_cons, elem_of_nil.
    intros [->|[->|[]]]; apply counting_bus_in_range.
  - repeat split; vm_compute; reflexivity.
Defined.

(** ** Properties of the handshake *)

(** X12. Whatever state the two semaphores start in, the producer's batch and
    the consumer's copy never overlap: in no execution are both tasks
    between their [osMutexWait] and their [osMutexRelease]. *)
Theorem tasks_never_share_section (p c : bool) (tr : list event) (s : system) :
  reaches (started p c) tr s ->
  producer_in_section s && consumer_in_section s = false.
Proof.
  intros Hreach. pose proof (reaches_mutex_agrees p c tr s Hreach) as Hok.
  unfold mutex_agrees in Hok.
  destruct (sensor_buffer_mutex s) as [[]|],
    (producer_in_section s), (consumer_in_section s); done.
Qed.

Lemma tasks_never_share_section_witness :
  exists tr s,
    run_schedule (take 7 first_round) (started true false) = Some (tr, s) /\
    consumer_in_section s = true /\
    producer_in_section s && consumer_in_section s = false.
Proof.
  destruct (run_schedule (take 7 first_round) (started true false))
    as [[tr s]|] eqn:Hrun; [|by vm_compute in Hrun].
  exists tr, s. split; [done|].
  pose proof (tasks_never_share_section true false tr s
                (run_schedule_reaches _ _ _ _ Hrun)) as Hexcl.
  split; [|done]. vm_compute in Hrun. by injection Hrun as <- <-.
Defined.

(** X13. Had [producer_semaphore] been signaled once at start (and
    [consumer_semaphore] not), batches and copies would take turns in
    every execution, a batch first: the consumer never copies before a
    batch has ended, and the producer never starts a second batch before
    the consumer has copied the first. *)
Theorem batches_and_copies_alternate (tr : list event) (s : system) :
  reaches (started true false) tr s -> alternates true tr = true.
Proof. intros Hreach. by destruct (reaches_turn tr s Hreach). Qed.

Lemma batches_and_copies_alternate_witness :
  exists tr s,
    run_schedule first_round (started true false) = Some (tr, s) /\
    Batch ∈ tr /\ CopyOut ∈ tr /\
    alternates true tr = true.
Proof.
  destruct (run_schedule first_round (started true false))
    as [[tr s]|] eqn:Hrun; [|by vm_compute in Hrun].
  exists tr, s. split; [done|].
  pose proof (batches_and_copies_alternate tr s
                (run_schedule_reaches _ _ _ _ Hrun)) as Halt.
  vm_compute in Hrun. injection Hrun as <- <-.
  split_and!; [|by (repeat (apply elem_of_cons; first [by left | right]))|done].
  by repeat (apply elem_of_cons; first [by left | right]).
Defined.

(** ** The statistics of sensor values *)

Lemma average_of_sensor_values (a b : float) :
  sensor_value a -> sensor_value b -> f32_le a b -> average_between a b.
Proof.
  intros (i & Hi & ->) (j & Hj & ->) Hle.
  apply of_Z_le in Hle; [|lia..].
  apply average_of_Z_between; lia.
Qed.

(** On sensor values the minimum, the median and the maximum come in
    this order, for odd and for even counts. *)
Lemma sensor_values_ordered (data : list float) (count : Z) :
  1 <= count <= Z.of_nat (length data) -> count < UINT32_MOD ->
  Forall sensor_value (take (Z.to_nat count) data) ->
  exists mn md mx,
    calculate_min data count = Some mn /\
    fst <$> calculate_median data count = Some md /\
    calculate_max data count = Some mx /\
    f32_le mn md /\ f32_le md mx.
Proof.
  intros Hc Hu Hvalues.
  assert (Forall numeric (take (Z.to_nat count) data)) as Hnum
    by (eapply Forall_impl; [done|]; intros v Hv; by apply sensor_value_facts).
  rewrite Forall_forall in Hvalues.
  destruct (calculate_min_spec data count Hc) as (mn & Hmn & _ & Hmin).
  destruct (calculate_max_spec data count Hc) as (mx & Hmx & _ & Hmax).
  destruct (calculate_median_spec data count Hc Hu)
    as (s & md & Hmed & Hlen & Hperm & Hord & Hmd).
  specialize (Hmin Hnum). specialize (Hmax Hnum). specialize (Hord Hnum).
  rewrite <- Hperm in Hmin, Hmax. rewrite Forall_forall in Hmin, Hmax.
  exists mn, md, mx. rewrite Hmed. split_and!; [done..| |];
    revert Hmd; unfold median_of_sorted; rewrite Hlen;
    destruct (Nat.odd (Z.to_nat count)) eqn:Hodd.
  - intros Hmd. by apply list_elem_of_lookup_2, Hmin in Hmd.
  - destruct (s !! (Z.to_nat count / 2 - 1)%nat) as [a|] eqn:Ha; [|done].
    destruct (s !! (Z.to_nat count / 2)%nat) as [b|] eqn:Hb; [|done].
    cbn [mbind option_bind]. intros [= <-].
    assert (average_between a b) as [Hlo Hhi].
    { apply (central_average_between s a b count data); try (done || lia).
      intros _ x y Hx Hy. apply average_of_sensor_values; by apply Hvalues. }
    apply (f32_le_trans mn a); [|done]. by apply list_elem_of_lookup_2, Hmin in Ha.
  - intros Hmd. by apply list_elem_of_lookup_2, Hmax in Hmd.
  - destruct (s !! (Z.to_nat count / 2 - 1)%nat) as [a|] eqn:Ha; [|done].
    destruct (s !! (Z.to_nat count / 2)%nat) as [b|] eqn:Hb; [|done].
    cbn [mbind option_bind]. intros [= <-].
    assert (average_between a b) as [Hlo Hhi].
    { apply (central_average_between s a b count data); try (done || lia).
      intros _ x y Hx Hy. apply average_of_sensor_values; by apply Hvalues. }
    apply (f32_le_trans _ b); [done|]. by apply list_elem_of_lookup_2, Hmax in Hb.
Qed.

(** X14. The [float] sum of two 16-bit readings is their sum: no rounding, no
    overflow. *)
Theorem sensor_values_add_exactly (a b : i2c_frame) :
  frame_in_range a -> frame_in_range b ->
  F32.add (i2c_read_sensor_data a) (i2c_read_sensor_data b)
  = F32.of_Z ((256 * fst a + snd a) + (256 * fst b + snd b)).
Proof.
  intros [Ha0 Ha1] [Hb0 Hb1]. unfold i2c_read_sensor_data.
  rewrite !join_bytes by done. unfold uint8 in *.
  apply add_of_Z; change (2 ^ 23) with 8388608; lia.
Qed.

Lemma sensor_values_add_exactly_witness :
  F32.add (i2c_read_sensor_data (18, 52)) (i2c_read_sensor_data (255, 255))
  = F32.of_Z ((256 * 18 + 52) + (256 * 255 + 255)).
Proof.
  apply (sensor_values_add_exactly (18, 52) (255, 255));
    split; unfold uint8; simpl; lia.
Defined.

(** X15. On [n >= 1] sensor values, [calculate_min <= calculate_median <=
    calculate_max], for odd and for even [n]: the average of the two
    central values is computed without rounding or overflow. *)
Theorem min_median_max_of_readings (data : list float) (count : Z) :
  1 <= count <= Z.of_nat (length data) -> count < UINT32_MOD ->
  Forall sensor_value (take (Z.to_nat count) data) ->
  exists mn md mx,
    calculate_min data count = Some mn /\
    fst <$> calculate_median data count = Some md /\
    calculate_max data count = Some mx /\
    f32_le mn md /\ f32_le md mx.
Proof. apply sensor_values_ordered. Qed.

Lemma min_median_max_of_readings_witness :
  exists mn md mx,
    calculate_min [F32.of_Z 65535; F32.of_Z 65534; F32.of_Z 7; F32.of_Z 0] 4 = Some mn /\
    fst <$> calculate_median [F32.of_Z 65535; F32.of_Z 65534; F32.of_Z 7; F32.of_Z 0] 4
      = Some md /\
    calculate_max [F32.of_Z 65535; F32.of_Z 65534; F32.of_Z 7; F32.of_Z 0] 4 = Some mx /\
    f32_le mn md /\ f32_le md mx.
Proof.
  apply (min_median_max_of_readings
           [F32.of_Z 65535; F32.of_Z 65534; F32.of_Z 7; F32.of_Z 0] 4).
  - cbn [length]. lia.
  - unfold UINT32_MOD. lia.
  - apply Forall_take.
    apply Forall_cons_2; [exists 65535; split; [lia|reflexivity]|].
    apply Forall_cons_2; [exists 65534; split; [lia|reflexivity]|].
    apply Forall_cons_2; [exists 7; split; [lia|reflexivity]|].
    apply Forall_cons_2; [exists 0; split; [lia|reflexivity]|].
    apply Forall_nil_2.
Defined.

(** X16. Every summary the consumer computes after any number of batches
    since reset, the bus delivering bytes, has for each of the three
    sensors [min <= median <= max]. *)
Theorem consumer_summary_ordered `{Libm}
    (buses : list (Z -> bus_sample)) (stack : consumer_arrays) :
  (forall bus i, bus ∈ buses -> bus_in_range (bus i)) ->
  arrays_declared stack ->
  exists st r,
    producer_batches buses initial_buffer = Some st /\
    consumer_cycle stack st = Some r /\
    f32_le (pir_min r) (pir_median r) /\
    f32_le (pir_median r) (pir_max r) /\
    f32_le (humidity_and_heat_min r) (humidity_and_heat_median r) /\
    f32_le (humidity_and_heat_median r) (humidity_and_heat_max r) /\
    f32_le (ldr_min r) (ldr_median r) /\
    f32_le (ldr_median r) (ldr_max r).
Proof.
  intros Hbytes Hstack.
  destruct (producer_batches_slots buses Hbytes)
    as (st & Hrun & (Hlen & _) & _ & _ & Hslots).
  destruct (consumer_cycle_columns st stack Hlen Hstack)
    as (r & Hr & Hmn1 & Hmn2 & Hmn3 & Hmx1 & Hmx2 & Hmx3 & Hmd1 & Hmd2 & Hmd3).
  exists st, r. split; [done|]. split; [done|].
  assert (forall (f : sensor_data_t -> float) (mn md mx : float),
            (forall x, sensor_slot x -> sensor_value (f x)) ->
            calculate_min (f <$> sensor_buffer st) BUFFER_SIZE = Some mn ->
            fst <$> calculate_median (f <$> sensor_buffer st) BUFFER_SIZE = Some md ->
            calculate_max (f <$> sensor_buffer st) BUFFER_SIZE = Some mx ->
            f32_le mn md /\ f32_le md mx) as Hcol.
  { intros f mn md mx Hf Hmn Hmd Hmx.
    destruct (sensor_values_ordered (f <$> sensor_buffer st) BUFFER_SIZE)
      as (mn' & md' & mx' & Hmn' & Hmd' & Hmx' & Hord).
    - rewrite length_fmap, Hlen. by vm_compute.
    - by vm_compute.
    - apply Forall_take, Forall_fmap. eapply Forall_impl; [done|]. apply Hf.
    - rewrite Hmn in Hmn'. rewrite Hmd in Hmd'. rewrite Hmx in Hmx'.
      injection Hmn' as <-. injection Hmd' as <-. injection Hmx' as <-. done. }
  destruct (Hcol PIR _ _ _ ltac:(by intros x (? & _)) Hmn1 Hmd1 Hmx1) as [? ?].
  destruct (Hcol humidity_and_heat _ _ _ ltac:(by intros x (_ & ? & _)) Hmn2 Hmd2 Hmx2)
    as [? ?].
  destruct (Hcol LDR _ _ _ ltac:(by intros x (_ & _ & ?)) Hmn3 Hmd3 Hmx3) as [? ?].
  by split_and!.
Qed.

Lemma consumer_summary_ordered_witness :
  exists st r,
    producer_batches [counting_bus; counting_bus] initial_buffer = Some st /\
    consumer_cycle (H := libm_square) garbage_stack st = Some r /\
    f32_le (pir_min r) (pir_median r) /\
    f32_le (pir_median r) (pir_max r) /\
    f32_le (humidity_and_heat_min r) (humidity_and_heat_median r) /\
    f32_le (humidity_and_heat_median r) (humidity_and_heat_max r) /\
    f32_le (ldr_min r) (ldr_median r) /\
    f32_le (ldr_median r) (ldr_max r).
Proof.
  apply (consumer_summary_ordered (H := libm_square)).
  - intros bus i. rewrite !elem_of_cons, elem_of_nil.
    intros [->|[->|[]]]; apply counting_bus_in_range.
  - repeat split; vm_compute; reflexivity.
Defined.

(** ** The mean of sensor values *)

Lemma total_nonneg (ks : list Z) : Forall (fun k => 0 <= k) ks -> 0 <= total ks.
Proof. induction 1 as [|k ks Hk _ IH]; simpl; lia. Qed.

Lemma total_bound (ks : list Z) (b : Z) :
  Forall (fun k => 0 <= k < b) ks -> 0 <= total ks <= Z.of_nat (length ks) * (b - 1).
Proof. induction 1 as [|k ks Hk _ IH]; simpl length; simpl total; nia. Qed.

(** Adding integers as [float]s left to right does not round while the
    sum has fewer than 24 bits. *)
Lemma foldl_add_of_Z (ks : list Z) (a : Z) :
  0 <= a -> Forall (fun k => 0 <= k) ks -> a + total ks < 2 ^ 23 ->
  foldl F32.add (F32.of_Z a) (F32.of_Z <$> ks) = F32.of_Z (a + total ks).
Proof.
  intros Ha Hks. revert a Ha.
  induction Hks as [|k ks Hk Hks IH]; intros a Ha Hsum; simpl total in *.
  - by rewrite Z.add_0_r.
  - pose proof (total_nonneg ks Hks).
    cbn [fmap list_fmap foldl]. rewrite add_of_Z by lia.
    rewrite IH by lia. f_equal. lia.
Qed.

(** X17. [calculate_median] on any [n >= 1] values, NaN included, returns; the
    array afterwards holds the same values as before, the first [n]
    rearranged among themselves and the rest in place; for odd [n] the
    value returned is one of them. *)
Theorem calculate_median_rearranges (data : list float) (count : Z) :
  1 <= count <= Z.of_nat (length data) -> count < UINT32_MOD ->
  exists m data',
    calculate_median data count = Some (m, data') /\
    take (Z.to_nat count) data' ≡ₚ take (Z.to_nat count) data /\
    drop (Z.to_nat count) data' = drop (Z.to_nat count) data /\
    data' ≡ₚ data /\
    (count mod 2 = 1 -> m ∈ take (Z.to_nat count) data).
Proof.
  intros Hc Hu.
  destruct (calculate_median_spec data count Hc Hu)
    as (s & m & Hmed & Hlen & Hperm & _ & Hm).
  exists m, (s ++ drop (Z.to_nat count) data). split; [done|].
  rewrite take_app_length', drop_app_length' by done. split_and!; [done..| |].
  - rewrite Hperm. by rewrite take_drop.
  - intros Hodd. revert Hm. unfold median_of_sorted. rewrite Hlen.
    assert (Nat.odd (Z.to_nat count) = true) as ->
      by (apply odd_of_mod; lia).
    intros Hm. rewrite <- Hperm. by apply list_elem_of_lookup_2 in Hm.
Qed.

Lemma calculate_median_rearranges_witness :
  exists m data',
    calculate_median [S754_nan; F32.of_Z 2; F32.of_Z 1] 3 = Some (m, data') /\
    take (Z.to_nat 3) data' ≡ₚ take (Z.to_nat 3) [S754_nan; F32.of_Z 2; F32.of_Z 1] /\
    drop (Z.to_nat 3) data' = drop (Z.to_nat 3) [S754_nan; F32.of_Z 2; F32.of_Z 1] /\
    data' ≡ₚ [S754_nan; F32.of_Z 2; F32.of_Z 1] /\
    (3 mod 2 = 1 -> m ∈ take (Z.to_nat 3) [S754_nan; F32.of_Z 2; F32.of_Z 1]).
Proof.
  apply (calculate_median_rearranges [S754_nan; F32.of_Z 2; F32.of_Z 1] 3).
  - cbn [length]. lia.
  - unfold UINT32_MOD. lia.
Defined.

(** X18. On up to 128 sensor values [calculate_std_dev] takes its deviations
    about the exact mean rounded once: the [float] sum of the values is
    their sum, without rounding. *)
Theorem calculate_std_dev_mean_exact `{Libm} (ks : list Z) :
  (length ks <= 128)%nat ->
  Forall (fun k => 0 <= k < 65536) ks ->
  calculate_std_dev (F32.of_Z <$> ks) (Z.of_nat (length ks))
  = Some (std_dev_about
            (F32.div (F32.of_Z (total ks)) (F32.of_Z (Z.of_nat (length ks))))
            (F32.of_Z <$> ks)).
Proof.
  intros Hlen Hks.
  rewrite calculate_std_dev_returns by (rewrite length_fmap; lia).
  rewrite take_ge by (rewrite length_fmap; lia).
  unfold population_std_dev, std_dev_about, spec_sum_square_deviations,
    spec_mean, spec_sum.
  rewrite length_fmap.
  pose proof (total_bound ks 65536 Hks) as Hb.
  change F32.zero with (F32.of_Z 0) at 1.
  rewrite foldl_add_of_Z;
    [done|lia|by eapply Forall_impl; [done|]; intros k Hk; simpl in *; lia|].
  change (2 ^ 23) with 8388608. lia.
Qed.

Lemma calculate_std_dev_mean_exact_witness :
  calculate_std_dev (H := libm_square) (F32.of_Z <$> [1; 2; 3; 4; 65535])
    (Z.of_nat (length [1; 2; 3; 4; 65535]))
  = Some (std_dev_about (H := libm_square)
            (F32.div (F32.of_Z (total [1; 2; 3; 4; 65535]))
                     (F32.of_Z (Z.of_nat (length [1; 2; 3; 4; 65535]))))
            (F32.of_Z <$> [1; 2; 3; 4; 65535])).
Proof.
  apply (calculate_std_dev_mean_exact (H := libm_square) [1; 2; 3; 4; 65535]).
  - cbn [length]. lia.
  - repeat (apply Forall_cons_2; [lia|]). apply Forall_nil_2.
Defined.
